(** * Minesweeper (game.ts): board generation, reveal cascade, flags, timer

    A shallow embedding of the [Minesweeper] class of [src/game.ts].

    - Numbers are [Z] (row and column arithmetic goes through [row - 1],
      the mine counter may become negative).
    - [board: Cell[][]] is a list of rows, read with stdpp's list lookup;
      a JavaScript read outside an array yields [undefined], here [None].
    - The class mutates one object; here every method takes the object and
      returns the updated one.
    - [setTimeout] and [setInterval] callbacks are kept in a queue of
      pending timers that is part of the state; the event loop runs them one
      at a time, earliest deadline first.
    - Sound, particles, confetti, the overlay and CSS classes are
      presentation only and are left out.  The face emoji is kept: it is the
      one place where the class records whether [win] or [gameOver] ended
      the game. *)

From Stdlib Require Import ZArith List Bool Lia.
From stdpp Require Import base tactics option list numbers.
From Stdlib Require String Ascii DecimalString.

Local Open Scope Z_scope.

(** ** Cells and boards *)

Record Cell := mkCell {
  row : Z;
  col : Z;
  isMine : bool;
  isRevealed : bool;
  isFlagged : bool;
  adjacentMines : Z
}.

Abbreviation Board := (list (list Cell)).

Definition setMine (v : bool) (cell : Cell) : Cell :=
  mkCell (row cell) (col cell) v (isRevealed cell) (isFlagged cell) (adjacentMines cell).

Definition setRevealed (v : bool) (cell : Cell) : Cell :=
  mkCell (row cell) (col cell) (isMine cell) v (isFlagged cell) (adjacentMines cell).

Definition setFlagged (v : bool) (cell : Cell) : Cell :=
  mkCell (row cell) (col cell) (isMine cell) (isRevealed cell) v (adjacentMines cell).

Definition setAdjacentMines (v : Z) (cell : Cell) : Cell :=
  mkCell (row cell) (col cell) (isMine cell) (isRevealed cell) (isFlagged cell) v.

(** [this.board[r][c]]: [undefined] (here [None]) outside the arrays. *)
Definition getCell (b : Board) (r c : Z) : option Cell :=
  if (0 <=? r) && (0 <=? c)
  then match b !! Z.to_nat r with
       | Some cells => cells !! Z.to_nat c
       | None => None
       end
  else None.

(** An assignment to a field of [this.board[r][c]]: the cell object is
    updated in place.  Only used after [getCell] found the cell. *)
Definition updCell (f : Cell → Cell) (r c : Z) (b : Board) : Board :=
  if (0 <=? r) && (0 <=? c)
  then alter (alter f (Z.to_nat c)) (Z.to_nat r) b
  else b.

(** The guard of [getAdjacentCells], also the set of cells for which
    [renderBoard] creates an element. *)
Definition inBoard (rows cols r c : Z) : bool :=
  (0 <=? r) && (r <? rows) && (0 <=? c) && (c <? cols).

(** [initBoard]: a fresh [rows] x [cols] grid of blank cells. *)
Definition initBoard (rows cols : Z) : Board :=
  (λ r, (λ c, mkCell r c false false false 0) <$> seqZ 0 cols) <$> seqZ 0 rows.

(** [getAdjacentCells(row, col)]: the cells of the 3 x 3 block around
    [(r, c)] that lie on the board, without the centre, in row-major order.
    The board always has [rows] rows of [cols] cells (see [wfBoard]), so the
    read below the guard finds a cell. *)
Definition adjacentSlot (rows cols : Z) (b : Board) (r c r' c' : Z) : list Cell :=
  if inBoard rows cols r' c' && negb ((r' =? r) && (c' =? c))
  then match getCell b r' c' with Some cell => [cell] | None => [] end
  else [].

Definition getAdjacentCells (rows cols : Z) (b : Board) (r c : Z) : list Cell :=
  r' ← seqZ (r - 1) 3;
  c' ← seqZ (c - 1) 3;
  adjacentSlot rows cols b r c r' c'.

(** [adjacent.filter(cell => cell.isMine).length] *)
Definition countMineCells (cells : list Cell) : Z :=
  Z.of_nat (length (List.filter isMine cells)).

(** [calculateAdjacentMines]: two nested loops in row-major order; a cell
    that is not a mine gets the number of mines among its adjacent cells. *)
Definition adjacentMinesBody (rows cols : Z) (b : Board) (r c : Z) : Board :=
  match getCell b r c with
  | Some cell =>
      if negb (isMine cell)
      then updCell (setAdjacentMines
                      (countMineCells (getAdjacentCells rows cols b r c))) r c b
      else b
  | None => b
  end.

Definition calculateAdjacentMines (rows cols : Z) (b : Board) : Board :=
  foldl (λ b r, foldl (λ b c, adjacentMinesBody rows cols b r c) b (seqZ 0 cols))
        b (seqZ 0 rows).

(** ** Results of running a handler *)

Inductive JsError := TypeError | RangeError.

(** A handler returns, throws, or never returns. *)
Inductive Outcome (A : Type) :=
  | Done (a : A)
  | Throw (e : JsError)
  | Hang.
Arguments Done {A} a.
Arguments Throw {A} e.
Arguments Hang {A}.

Definition bindO {A B} (o : Outcome A) (k : A → Outcome B) : Outcome B :=
  match o with
  | Done a => k a
  | Throw e => Throw e
  | Hang => Hang
  end.

(** ** Random numbers *)

(** A value of [Math.random()]: the rational [(rnum mod rden) / rden],
    which lies in the interval from 0 (included) to 1 (excluded). *)
Record Rand := mkRand { rnum : Z; rden : positive }.

(** [Math.floor(x * n)] *)
Definition floorMul (x : Rand) (n : Z) : Z :=
  ((rnum x mod Z.pos (rden x)) * n) / Z.pos (rden x).

(** [excludeZone.some(cell => cell.row === row && cell.col === col)] *)
Definition isExcludedAt (excludeZone : list (Z * Z)) (r c : Z) : bool :=
  existsb (λ p, (p.1 =? r) && (p.2 =? c)) excludeZone.

(** The loop of [placeMines].  Every iteration draws two random numbers;
    [draws] lists the pairs the generator will hand out.  When the list is
    used up before enough mines are placed the loop is still running:
    [Hang]. *)
Fixpoint placeMinesLoop (rows cols mines : Z) (excludeZone : list (Z * Z))
    (draws : list (Rand * Rand)) (minesPlaced : Z) (b : Board) : Outcome Board :=
  if minesPlaced <? mines then
    match draws with
    | [] => Hang
    | (x, y) :: draws' =>
        let r := floorMul x rows in
        let c := floorMul y cols in
        let isExcluded := isExcludedAt excludeZone r c in
        match getCell b r c with
        | None => Throw TypeError
        | Some cell =>
            if negb (isMine cell) && negb isExcluded
            then placeMinesLoop rows cols mines excludeZone draws'
                   (minesPlaced + 1) (updCell (setMine true) r c b)
            else placeMinesLoop rows cols mines excludeZone draws' minesPlaced b
        end
    end
  else Done b.

(** [placeMines(excludeRow, excludeCol)] on the board.  Of the cells in
    [excludeZone] only [row] and [col] are read, so the zone is kept as a
    list of coordinates. *)
Definition excludeZone (rows cols : Z) (b : Board) (excludeRow excludeCol : Z)
    : list (Z * Z) :=
  ((λ cell, (row cell, col cell)) <$> getAdjacentCells rows cols b excludeRow excludeCol)
  ++ [(excludeRow, excludeCol)].

Definition placeMinesBoard (rows cols mines : Z) (draws : list (Rand * Rand))
    (excludeRow excludeCol : Z) (b : Board) : Outcome Board :=
  bindO (placeMinesLoop rows cols mines
           (excludeZone rows cols b excludeRow excludeCol) draws 0 b)
        (λ b', Done (calculateAdjacentMines rows cols b')).

(** ** The game object and the browser's timers *)

Inductive Face :=
  | FaceSmile   (* the neutral face of a running game *)
  | FaceGasp    (* while a mouse button is held on a cell *)
  | FaceDead    (* set by [gameOver] *)
  | FaceCool.   (* set by [win] *)

(** The callbacks the class hands to [setTimeout] and [setInterval]. *)
Inductive Task :=
  | TRevealCell (r c : Z)
      (* revealCell: [this.revealCell(adjCell.row, adjCell.col, true)] *)
  | TShowMine (gen : nat) (r c : Z)
      (* gameOver: [cell.isRevealed = true] on the cell object captured when
         the timeout was set; [gen] tells which board that object is in *)
  | TTick.
      (* startTimer: [this.timer++; if (this.timer > 999) this.timer = 999] *)

Record TimerEntry := mkTimer {
  tid : nat;               (* the id returned by setTimeout / setInterval *)
  due : Z;                 (* earliest time, in ms, at which it may run *)
  period : option Z;       (* [Some p] for an interval, [None] for a timeout *)
  callback : Task
}.

Record Minesweeper := mkGame {
  board : Board;
  rows : Z;
  cols : Z;
  mines : Z;
  minesLeft : Z;
  isGameOver : bool;
  isFirstClick : bool;
  timer : Z;
  timerInterval : option nat;
  revealedCount : Z;
  totalNonMines : Z;
  face : Face;                 (* faceElement.textContent *)
  boardGen : nat;              (* identity of the cell objects: [initBoard]
                                  allocates new ones *)
  now : Z;                     (* the clock, in ms *)
  nextTimerId : nat;           (* the next id the browser hands out *)
  timers : list TimerEntry     (* pending timers, oldest first *)
}.

Definition set_board (v : Board) (g : Minesweeper) : Minesweeper :=
  mkGame v (rows g) (cols g) (mines g) (minesLeft g) (isGameOver g) (isFirstClick g)
    (timer g) (timerInterval g) (revealedCount g) (totalNonMines g) (face g)
    (boardGen g) (now g) (nextTimerId g) (timers g).

Definition set_minesLeft (v : Z) (g : Minesweeper) : Minesweeper :=
  mkGame (board g) (rows g) (cols g) (mines g) v (isGameOver g) (isFirstClick g)
    (timer g) (timerInterval g) (revealedCount g) (totalNonMines g) (face g)
    (boardGen g) (now g) (nextTimerId g) (timers g).

Definition set_isGameOver (v : bool) (g : Minesweeper) : Minesweeper :=
  mkGame (board g) (rows g) (cols g) (mines g) (minesLeft g) v (isFirstClick g)
    (timer g) (timerInterval g) (revealedCount g) (totalNonMines g) (face g)
    (boardGen g) (now g) (nextTimerId g) (timers g).

Definition set_isFirstClick (v : bool) (g : Minesweeper) : Minesweeper :=
  mkGame (board g) (rows g) (cols g) (mines g) (minesLeft g) (isGameOver g) v
    (timer g) (timerInterval g) (revealedCount g) (totalNonMines g) (face g)
    (boardGen g) (now g) (nextTimerId g) (timers g).

Definition set_timer (v : Z) (g : Minesweeper) : Minesweeper :=
  mkGame (board g) (rows g) (cols g) (mines g) (minesLeft g) (isGameOver g) (isFirstClick g)
    v (timerInterval g) (revealedCount g) (totalNonMines g) (face g)
    (boardGen g) (now g) (nextTimerId g) (timers g).

Definition set_timerInterval (v : option nat) (g : Minesweeper) : Minesweeper :=
  mkGame (board g) (rows g) (cols g) (mines g) (minesLeft g) (isGameOver g) (isFirstClick g)
    (timer g) v (revealedCount g) (totalNonMines g) (face g)
    (boardGen g) (now g) (nextTimerId g) (timers g).

Definition set_revealedCount (v : Z) (g : Minesweeper) : Minesweeper :=
  mkGame (board g) (rows g) (cols g) (mines g) (minesLeft g) (isGameOver g) (isFirstClick g)
    (timer g) (timerInterval g) v (totalNonMines g) (face g)
    (boardGen g) (now g) (nextTimerId g) (timers g).

Definition set_face (v : Face) (g : Minesweeper) : Minesweeper :=
  mkGame (board g) (rows g) (cols g) (mines g) (minesLeft g) (isGameOver g) (isFirstClick g)
    (timer g) (timerInterval g) (revealedCount g) (totalNonMines g) v
    (boardGen g) (now g) (nextTimerId g) (timers g).

Definition set_now (v : Z) (g : Minesweeper) : Minesweeper :=
  mkGame (board g) (rows g) (cols g) (mines g) (minesLeft g) (isGameOver g) (isFirstClick g)
    (timer g) (timerInterval g) (revealedCount g) (totalNonMines g) (face g)
    (boardGen g) v (nextTimerId g) (timers g).

Definition set_timers (v : list TimerEntry) (g : Minesweeper) : Minesweeper :=
  mkGame (board g) (rows g) (cols g) (mines g) (minesLeft g) (isGameOver g) (isFirstClick g)
    (timer g) (timerInterval g) (revealedCount g) (totalNonMines g) (face g)
    (boardGen g) (now g) (nextTimerId g) v.

(** [setTimeout(cb, delay)]: a new pending timer with a fresh id. *)
Definition setTimeout (cb : Task) (delay : Z) (g : Minesweeper) : Minesweeper :=
  mkGame (board g) (rows g) (cols g) (mines g) (minesLeft g) (isGameOver g) (isFirstClick g)
    (timer g) (timerInterval g) (revealedCount g) (totalNonMines g) (face g)
    (boardGen g) (now g) (S (nextTimerId g))
    (timers g ++ [mkTimer (nextTimerId g) (now g + delay) None cb]).

(** [this.timerInterval = window.setInterval(cb, 1000)] *)
Definition startTimer (g : Minesweeper) : Minesweeper :=
  mkGame (board g) (rows g) (cols g) (mines g) (minesLeft g) (isGameOver g) (isFirstClick g)
    (timer g) (Some (nextTimerId g)) (revealedCount g) (totalNonMines g) (face g)
    (boardGen g) (now g) (S (nextTimerId g))
    (timers g ++ [mkTimer (nextTimerId g) (now g + 1000) (Some 1000) TTick]).

(** [clearInterval(id)] *)
Definition clearInterval (id : nat) (l : list TimerEntry) : list TimerEntry :=
  filter (λ e, tid e ≠ id) l.

(** [stopTimer]: [if (this.timerInterval) { clearInterval(...); ... = null }].
    The id 0 is falsy, as is [null]. *)
Definition stopTimer (g : Minesweeper) : Minesweeper :=
  match timerInterval g with
  | Some id =>
      if Nat.eqb id 0 then g
      else set_timerInterval None (set_timers (clearInterval id (timers g)) g)
  | None => g
  end.

(** [newGame] *)
Definition newGame (g : Minesweeper) : Minesweeper :=
  let g := stopTimer g in
  mkGame (initBoard (rows g) (cols g)) (rows g) (cols g) (mines g)
    (mines g) false true 0 (timerInterval g) 0 (rows g * cols g - mines g) FaceSmile
    (S (boardGen g)) (now g) (nextTimerId g) (timers g).

(** The three presets of [difficulties]. *)
Inductive DifficultyName := easy | medium | hard.

Definition difficulties (d : DifficultyName) : Z * Z * Z :=
  match d with
  | easy => (9, 9, 10)
  | medium => (16, 16, 40)
  | hard => (16, 30, 99)
  end.

(** [setDifficulty(difficulty)] *)
Definition setDifficulty (d : DifficultyName) (g : Minesweeper) : Minesweeper :=
  let '(r, c, m) := difficulties d in
  newGame (mkGame (board g) r c m (minesLeft g) (isGameOver g) (isFirstClick g)
    (timer g) (timerInterval g) (revealedCount g) (totalNonMines g) (face g)
    (boardGen g) (now g) (nextTimerId g) (timers g)).

(** The object built by [new Minesweeper()]: the field initialisers, then
    [newGame()].  Timer ids start at 1. *)
Definition construct : Minesweeper :=
  newGame (mkGame [] 9 9 10 10 false true 0 None 0 0 FaceSmile 0 0 1 []).

(** [placeMines(excludeRow, excludeCol)] *)
Definition placeMines (draws : list (Rand * Rand)) (excludeRow excludeCol : Z)
    (g : Minesweeper) : Outcome Minesweeper :=
  bindO (placeMinesBoard (rows g) (cols g) (mines g) draws excludeRow excludeCol (board g))
        (λ b, Done (set_board b g)).

(** The cells of the board in row-major order, as the nested loops of
    [gameOver] visit them. *)
Definition allCells (b : Board) : list Cell := concat b.

(** [gameOver(hitRow, hitCol)]: one timeout per mine, 50 ms apart.  The
    two timeouts that only touch the page (the one that ends the shake of
    the board and the one that shows the overlay) are left out, like those
    of [win]. *)
Definition gameOver (hitRow hitCol : Z) (g : Minesweeper) : Minesweeper :=
  let g := set_isGameOver true g in
  let g := stopTimer g in
  let g := set_face FaceDead g in
  snd (foldl (λ '(delay, g) cell,
                if isMine cell
                then (delay + 50,
                      setTimeout (TShowMine (boardGen g) (row cell) (col cell)) delay g)
                else (delay, g))
             (0, g) (allCells (board g))).

(** [win] *)
Definition win (g : Minesweeper) : Minesweeper :=
  set_face FaceCool (stopTimer (set_isGameOver true g)).

(** [adjacent.forEach((adjCell, index) => setTimeout(..., index * 20))] *)
Fixpoint scheduleReveals (index : Z) (adjacent : list Cell) (g : Minesweeper)
    : Minesweeper :=
  match adjacent with
  | [] => g
  | adjCell :: rest =>
      scheduleReveals (index + 1) rest
        (setTimeout (TRevealCell (row adjCell) (col adjCell)) (index * 20) g)
  end.

(** [revealCell(row, col, isChain)].  [isChain] only selects sounds. *)
Definition revealCell (r c : Z) (isChain : bool) (g : Minesweeper)
    : Outcome Minesweeper :=
  match getCell (board g) r c with
  | None => Throw TypeError
  | Some cell =>
      if isRevealed cell || isFlagged cell then Done g
      else
        let g := set_board (updCell (setRevealed true) r c (board g)) g in
        let g := set_revealedCount (revealedCount g + 1) g in
        if isMine cell then Done (gameOver r c g)
        else
          let g :=
            if adjacentMines cell =? 0
            then scheduleReveals 0 (getAdjacentCells (rows g) (cols g) (board g) r c) g
            else g in
          if revealedCount g =? totalNonMines g then Done (win g) else Done g
  end.

(** [handleClick(e)], with [r] and [c] the [data-row] and [data-col] of the
    clicked element and [draws] the random numbers a first click consumes. *)
Definition handleClick (draws : list (Rand * Rand)) (r c : Z) (g : Minesweeper)
    : Outcome Minesweeper :=
  if isGameOver g then Done g
  else
    match getCell (board g) r c with
    | None => Throw TypeError
    | Some cell =>
        if isFlagged cell || isRevealed cell then Done g
        else
          bindO (if isFirstClick g
                 then bindO (placeMines draws r c (set_isFirstClick false g))
                            (λ g, Done (startTimer g))
                 else Done g)
                (revealCell r c false)
    end.

(** [handleRightClick(e)] *)
Definition handleRightClick (r c : Z) (g : Minesweeper) : Outcome Minesweeper :=
  if isGameOver g then Done g
  else
    match getCell (board g) r c with
    | None => Throw TypeError
    | Some cell =>
        if isRevealed cell then Done g
        else
          let flagged := negb (isFlagged cell) in
          let g := set_board (updCell (setFlagged flagged) r c (board g)) g in
          Done (set_minesLeft (minesLeft g + (if flagged then -1 else 1)) g)
    end.

(** The [mousedown] and [mouseup] / [mouseleave] listeners of a cell. *)
Definition handleMouseDown (g : Minesweeper) : Minesweeper :=
  if isGameOver g then g else set_face FaceGasp g.

Definition handleMouseUp (g : Minesweeper) : Minesweeper :=
  if isGameOver g then g else set_face FaceSmile g.

(** The interval callback of [startTimer]. *)
Definition tick (g : Minesweeper) : Minesweeper :=
  let g := set_timer (timer g + 1) g in
  if 999 <? timer g then set_timer 999 g else g.

(** ** The event loop *)

(** The pending timer that runs next: the earliest deadline, the oldest
    among equal ones.  Returns it with the timers that stay pending. *)
Fixpoint nextTimer (l : list TimerEntry) : option (TimerEntry * list TimerEntry) :=
  match l with
  | [] => None
  | e :: rest =>
      match nextTimer rest with
      | None => Some (e, [])
      | Some (e', rest') =>
          if due e <=? due e' then Some (e, rest) else Some (e', e :: rest')
      end
  end.

(** Running a callback.  An exception thrown inside a callback is reported
    on the console and the object stays as the callback left it; the only
    [throw] is the failed read at the start of [revealCell]. *)
Definition runTask (t : Task) (g : Minesweeper) : Minesweeper :=
  match t with
  | TRevealCell r c =>
      match revealCell r c true g with
      | Done g' => g'
      | _ => g
      end
  | TShowMine gen r c =>
      if Nat.eqb gen (boardGen g)
      then set_board (updCell (setRevealed true) r c (board g)) g
      else g
  | TTick => tick g
  end.

(** One turn of the event loop on the next pending timer: the clock moves
    to its deadline unless it is already later, an interval is armed again,
    and the callback runs. *)
Definition fireNext (g : Minesweeper) : Minesweeper :=
  match nextTimer (timers g) with
  | None => g
  | Some (e, rest) =>
      let t := Z.max (now g) (due e) in
      let rest' :=
        match period e with
        | Some p => rest ++ [mkTimer (tid e) (t + p) (Some p) (callback e)]
        | None => rest
        end in
      runTask (callback e) (set_timers rest' (set_now t g))
  end.

(** What can happen to the page. *)
Inductive Event :=
  | EClick (r c : Z) (draws : list (Rand * Rand))
  | ERightClick (r c : Z)
  | EMouseDown
  | EMouseUp
  | ENewGame
  | ESetDifficulty (d : DifficultyName)
  | EFire                (* the event loop runs the next pending timer *)
  | EWait (dt : Z).      (* [dt] ms pass without anything running *)

(** One event.  [None]: the handler never returns.  An exception leaves the
    handler; both handlers throw, if at all, before their first write. *)
Definition step (g : Minesweeper) (e : Event) : option Minesweeper :=
  match e with
  | EClick r c draws =>
      match handleClick draws r c g with
      | Done g' => Some g'
      | Throw _ => Some g
      | Hang => None
      end
  | ERightClick r c =>
      match handleRightClick r c g with
      | Done g' => Some g'
      | Throw _ => Some g
      | Hang => None
      end
  | EMouseDown => Some (handleMouseDown g)
  | EMouseUp => Some (handleMouseUp g)
  | ENewGame => Some (newGame g)
  | ESetDifficulty d => Some (setDifficulty d g)
  | EFire => Some (fireNext g)
  | EWait dt => Some (set_now (now g + Z.max 0 dt) g)
  end.

Fixpoint run (g : Minesweeper) (evs : list Event) : option Minesweeper :=
  match evs with
  | [] => Some g
  | e :: evs' =>
      match step g e with
      | Some g' => run g' evs'
      | None => None
      end
  end.

(** The game state of the specification, read off the object. *)
Inductive GameState := NotStarted | InProgress | Won | Lost.

Definition gameState (g : Minesweeper) : GameState :=
  if isGameOver g then
    match face g with
    | FaceCool => Won
    | _ => Lost
    end
  else if isFirstClick g then NotStarted else InProgress.

(** ** Counting cells *)

Definition sumZ {A} (w : A → Z) (l : list A) : Z :=
  foldr (λ x acc, w x + acc) 0 l.

Definition indicator (P : Cell → bool) (cell : Cell) : Z :=
  if P cell then 1 else 0.

(** The number of cells of the board that satisfy [P]. *)
Definition countCells (P : Cell → bool) (b : Board) : Z :=
  sumZ (sumZ (indicator P)) b.

Definition isUnrevealed (cell : Cell) : bool := negb (isRevealed cell).
Definition isRevealedSafe (cell : Cell) : bool := isRevealed cell && negb (isMine cell).
Definition isRevealedMine (cell : Cell) : bool := isRevealed cell && isMine cell.
Definition isSafe (cell : Cell) : bool := negb (isMine cell).
Definition anyCell (cell : Cell) : bool := true.

(** ** Well-formed boards *)

(** The class invariant on [board], [rows] and [cols]: [rows] rows of [cols]
    cells, and every cell knows its own position. *)
Definition wfBoard (rows cols : Z) (b : Board) : Prop :=
  0 ≤ rows ∧ 0 ≤ cols ∧
  length b = Z.to_nat rows ∧
  (∀ i cells, b !! i = Some cells → length cells = Z.to_nat cols) ∧
  (∀ r c cell, getCell b r c = Some cell → row cell = r ∧ col cell = c).

(** Two cells are next to each other (Moore neighbourhood). *)
Definition adjacent (r c r' c' : Z) : Prop :=
  r - 1 ≤ r' ≤ r + 1 ∧ c - 1 ≤ c' ≤ c + 1 ∧ ¬ (r' = r ∧ c' = c).

(** Modelled on the specification's wording: the number of mine-bearing
    cells in the Moore neighbourhood of [(r, c)], clipped at the board
    edges. To be compared with what [calculateAdjacentMines] stores. *)
Definition mineAt (rows cols : Z) (b : Board) (r c : Z) : Z :=
  if inBoard rows cols r c
  then match getCell b r c with
       | Some cell => if isMine cell then 1 else 0
       | None => 0
       end
  else 0.

Definition mooreMineCount (rows cols : Z) (b : Board) (r c : Z) : Z :=
  mineAt rows cols b (r - 1) (c - 1) + mineAt rows cols b (r - 1) c
  + mineAt rows cols b (r - 1) (c + 1)
  + mineAt rows cols b r (c - 1) + mineAt rows cols b r (c + 1)
  + mineAt rows cols b (r + 1) (c - 1) + mineAt rows cols b (r + 1) c
  + mineAt rows cols b (r + 1) (c + 1).


(** Boards that have the same mines. *)
Definition sameMines (b b' : Board) : Prop :=
  ∀ r c, isMine <$> getCell b r c = isMine <$> getCell b' r c.

(** A cell with its [adjacentMines] blanked: two boards that agree on these
    differ at most in the stored counts. *)
Definition eraseAdj (cell : Cell) : Cell := setAdjacentMines 0 cell.

Definition sameButAdj (b b' : Board) : Prop :=
  ∀ r c, eraseAdj <$> getCell b r c = eraseAdj <$> getCell b' r c.

(** On the positions in [S], the cells of [b] that are not mines store the
    number of mines that surround them in [b0]. *)
Definition countedOn (rows cols : Z) (b0 : Board) (S : Z → Z → Prop) (b : Board) : Prop :=
  ∀ r c cell, S r c → getCell b r c = Some cell → isMine cell = false →
    adjacentMines cell = mooreMineCount rows cols b0 r c.

(** The cell a pair of random numbers selects. *)
Definition drawnCell (rows cols : Z) (d : Rand * Rand) : Z * Z :=
  (floorMul d.1 rows, floorMul d.2 cols).

(** [b'] is [b] with some more mines, none of them in the zone. *)
Definition minesAdded (zone : list (Z * Z)) (b b' : Board) : Prop :=
  ∀ r c, getCell b' r c = getCell b r c ∨
         ∃ cell, getCell b r c = Some cell ∧ isMine cell = false ∧
                 isExcludedAt zone r c = false ∧
                 getCell b' r c = Some (setMine true cell).

Definition inZone (zone : list (Z * Z)) (cell : Cell) : bool :=
  isExcludedAt zone (row cell) (col cell).

(** A cell on which the loop of [placeMines] can still put a mine. *)
Definition isFree (zone : list (Z * Z)) (cell : Cell) : bool :=
  negb (isMine cell) && negb (inZone zone cell).

(** Random numbers that select every cell of the board once, row by row. *)
Definition coveringDraws (rows cols : Z) : list (Rand * Rand) :=
  r ← seqZ 0 rows; c ← seqZ 0 cols;
  [(mkRand r (Z.to_pos rows), mkRand c (Z.to_pos cols))].

(** The cell at position [p], by its [row] and [col] fields. *)
Definition isAt (p : Z * Z) (cell : Cell) : bool :=
  (p.1 =? row cell) && (p.2 =? col cell).

(** ** Timers set by the handlers *)

(** The timers [scheduleReveals] appends. *)
Fixpoint revealEntries (id : nat) (now index : Z) (adjacent : list Cell)
    : list TimerEntry :=
  match adjacent with
  | [] => []
  | adjCell :: rest =>
      mkTimer id (now + index * 20) None (TRevealCell (row adjCell) (col adjCell))
      :: revealEntries (S id) now (index + 1) rest
  end.

(** The timers the loop of [gameOver] appends. *)
Fixpoint mineEntries (gen id : nat) (now delay : Z) (cells : list Cell)
    : list TimerEntry :=
  match cells with
  | [] => []
  | cell :: rest =>
      if isMine cell
      then mkTimer id (now + delay) None (TShowMine gen (row cell) (col cell))
           :: mineEntries gen (S id) now (delay + 50) rest
      else mineEntries gen id now delay rest
  end.

(** New timeouts: consecutive fresh ids from [id] on, none an interval. *)
Definition freshTimeouts (id : nat) (new : list TimerEntry) : Prop :=
  tid <$> new = seq id (length new) ∧
  ∀ e, e ∈ new → period e = None ∧ callback e ≠ TTick.

(** ** Invariant of the timer fields

    It holds in every state the page can reach, whatever the events. *)
Record TimerInv (g : Minesweeper) : Prop := {
  ti_timer : 0 ≤ timer g ≤ 999;
  ti_zero : isFirstClick g = true → timer g = 0;
  ti_next : (1 ≤ nextTimerId g)%nat;
  ti_ids : ∀ e, e ∈ timers g → (1 ≤ tid e < nextTimerId g)%nat;
  ti_nodup : NoDup (tid <$> timers g);
  ti_interval : ∀ id, timerInterval g = Some id →
                  (1 ≤ id < nextTimerId g)%nat ∧ ∃ e, e ∈ timers g ∧ tid e = id;
  ti_tick : ∀ e, e ∈ timers g →
              (callback e = TTick ↔ timerInterval g = Some (tid e));
  ti_period : ∀ e, e ∈ timers g →
                (period e = Some 1000 ∧ callback e = TTick) ∨
                (period e = None ∧ callback e ≠ TTick);
  ti_first : isFirstClick g = true → timerInterval g = None;
  ti_over : isGameOver g = true → timerInterval g = None;
  ti_running : isFirstClick g = false → isGameOver g = false →
               timerInterval g ≠ None
}.

(** The page after the events [evs]. *)
Definition reachable (g : Minesweeper) : Prop :=
  ∃ evs, run construct evs = Some g.

(** ** Invariant of a game

    It holds while games are played in an orderly way: a new game is only
    started when no timeout of the previous one is still pending. *)

Definition validConfig (g : Minesweeper) : Prop :=
  0 < rows g ∧ 0 < cols g ∧ 0 ≤ mines g < rows g * cols g - 9 ∧
  totalNonMines g = rows g * cols g - mines g.

(** Some mine of the board is revealed. *)
Definition mineShown (b : Board) : bool := 0 <? countCells isRevealedMine b.

Record GameInv (g : Minesweeper) : Prop := {
  gi_config : validConfig g;
  gi_wf : wfBoard (rows g) (cols g) (board g);
  gi_mines : countCells isMine (board g) = if isFirstClick g then 0 else mines g;
  gi_adjacent : ∀ r c cell, getCell (board g) r c = Some cell → isMine cell = false →
                  adjacentMines cell = mooreMineCount (rows g) (cols g) (board g) r c;
  gi_fresh : isFirstClick g = true →
             countCells isRevealed (board g) = 0 ∧ timers g = [] ∧ isGameOver g = false;
  gi_reveal : ∀ e r c, e ∈ timers g → callback e = TRevealCell r c →
                ∃ cell, getCell (board g) r c = Some cell ∧ isMine cell = false;
  gi_show : ∀ e gen r c, e ∈ timers g → callback e = TShowMine gen r c →
              gen = boardGen g ∧ mineShown (board g) = true ∧
              ∃ cell, getCell (board g) r c = Some cell ∧ isMine cell = true;
  gi_count : revealedCount g =
             countCells isRevealedSafe (board g)
             + (if mineShown (board g) then 1 else 0);
  gi_lost : mineShown (board g) = true → isGameOver g = true;
  gi_open : isGameOver g = false → revealedCount g ≠ totalNonMines g;
  gi_won : isGameOver g = true → mineShown (board g) = false →
           face g = FaceCool ∧ revealedCount g = totalNonMines g
}.

(** A field update that leaves the layout of the mines alone. *)
Definition keepsLayout (f : Cell → Cell) : Prop :=
  ∀ cell, row (f cell) = row cell ∧ col (f cell) = col cell ∧
          isMine (f cell) = isMine cell ∧ adjacentMines (f cell) = adjacentMines cell.

(** No timeout is pending. *)
Definition quiet (g : Minesweeper) : Prop :=
  ∀ e, e ∈ timers g → callback e = TTick.

Definition allowed (g : Minesweeper) (e : Event) : Prop :=
  match e with
  | ENewGame | ESetDifficulty _ => quiet g
  | _ => True
  end.

(** The states of orderly play. *)
Inductive orderly : Minesweeper → Prop :=
  | orderly_init : orderly construct
  | orderly_step g e g' :
      orderly g → allowed g e → step g e = Some g' → orderly g'.

(** [revealCell] up to the test for a mine: the cell is marked and
    counted. *)
Definition markRevealed (r c : Z) (g : Minesweeper) : Minesweeper :=
  set_revealedCount (revealedCount g + 1)
    (set_board (updCell (setRevealed true) r c (board g)) g).

(** ** Letting the timeouts run *)

Definition isTimeout (e : TimerEntry) : bool :=
  match callback e with
  | TTick => false
  | _ => true
  end.

(** A cascade step or a mine to show is still pending. *)
Definition timeoutPending (g : Minesweeper) : bool := existsb isTimeout (timers g).

(** The event loop runs until no timeout is pending (the clock interval
    keeps running); [fuel] bounds the number of turns. *)
Fixpoint settle (fuel : nat) (g : Minesweeper) : Minesweeper :=
  match fuel with
  | O => g
  | S fuel' => if timeoutPending g then settle fuel' (fireNext g) else g
  end.

(** ** A game on the easy board, used for examples *)

Definition at9 (r c : Z) : Rand * Rand := (mkRand r 9, mkRand c 9).

(** Random numbers that put seven mines in the top row and three around
    the bottom right corner. *)
Definition exampleDraws : list (Rand * Rand) :=
  [at9 0 0; at9 0 1; at9 0 2; at9 0 3; at9 0 4; at9 0 5; at9 0 6;
   at9 7 7; at9 7 8; at9 8 7].

Definition stateAfter (evs : list Event) : Minesweeper :=
  match run construct evs with
  | Some g => g
  | None => construct
  end.

(** First click in the middle, then the cascade runs to its end: every
    safe cell but the corner (8, 8) is revealed. *)
Definition exampleOpened : Minesweeper :=
  stateAfter (EClick 4 4 exampleDraws :: repeat EFire 400).

(** ... and then a click on the mine at (0, 0). *)
Definition exampleLost : Minesweeper :=
  stateAfter (EClick 4 4 exampleDraws :: repeat EFire 400 ++ [EClick 0 0 []]).

(** ** The claims that do not hold as stated *)

(** Flag toggling as the specification words it: a no-op on a revealed
    cell, otherwise the flag flips and the counter moves by one. *)
Definition toggleFlagClaim (g : Minesweeper) (r c : Z) : Prop :=
  ∀ cell, getCell (board g) r c = Some cell →
    if isRevealed cell then handleRightClick r c g = Done g
    else ∃ g', handleRightClick r c g = Done g' ∧
               isFlagged <$> getCell (board g') r c = Some (negb (isFlagged cell)) ∧
               minesLeft g' = minesLeft g + (if isFlagged cell then 1 else -1).

(** An operation is rejected with an out-of-bounds signal: an error other
    than the [TypeError] of a read through [undefined]. *)
Definition signalsOutOfBounds (o : Outcome Minesweeper) : Prop :=
  ∃ e, o = Throw e ∧ e ≠ TypeError.

Definition outOfBoundsClaim (g : Minesweeper) (r c : Z) : Prop :=
  inBoard (rows g) (cols g) r c = false →
  (∀ draws, signalsOutOfBounds (handleClick draws r c g)) ∧
  signalsOutOfBounds (handleRightClick r c g).


(** The easy board after [placeMines(4, 4)] with [exampleDraws]. *)
Definition examplePlaced : Minesweeper :=
  match placeMines exampleDraws 4 4 construct with
  | Done g => g
  | _ => construct
  end.

Definition isRestart (e : Event) : bool :=
  match e with
  | ENewGame | ESetDifficulty _ => true
  | _ => false
  end.

(** The callback the event loop would run next. *)
Definition nextCallback (g : Minesweeper) : option Task :=
  match nextTimer (timers g) with
  | Some (e, _) => Some (callback e)
  | None => None
  end.

(** The opened example, finished by a click on the last safe cell. *)
Definition exampleWon : Minesweeper :=
  stateAfter (EClick 4 4 exampleDraws :: repeat EFire 400 ++ [EClick 8 8 []]).

(** ** A measure for the pending work

    Every turn of the event loop that runs while a timeout is pending
    lowers [potential]: a cell that gets revealed pays for the at most
    eight timeouts it sets, and the clock interval can only run as often
    as it fits before the last timeout. *)

Definition timeoutWeight (e : TimerEntry) : Z := if isTimeout e then 1 else 0.

(** The latest deadline among the pending timeouts, not before [base]. *)
Definition latestFrom (base : Z) (l : list TimerEntry) : Z :=
  foldr (λ e acc, if isTimeout e then Z.max (due e) acc else acc) base l.

Definition unrevealed (g : Minesweeper) : Z := countCells isUnrevealed (board g).

(** A time by which the cascade is over: each cell still to be revealed
    can set timeouts at most 140 ms ahead. *)
Definition horizon (g : Minesweeper) : Z :=
  latestFrom (now g) (timers g) + 140 * unrevealed g.

(** How often an interval can still run up to time [H]. *)
Definition tickWeight (H : Z) (e : TimerEntry) : Z :=
  if isTimeout e then 0 else Z.max 0 ((H - due e) / 1000 + 1).

Definition potential (g : Minesweeper) : Z :=
  9 * unrevealed g + sumZ timeoutWeight (timers g)
  + sumZ (tickWeight (horizon g)) (timers g).

(** Fuel that lets [settle] finish. *)
Definition settleFuel (g : Minesweeper) : nat := Z.to_nat (potential g).

(** Every mine of the board is revealed or has its [gameOver] timeout
    pending. *)
Definition minesAnnounced (g : Minesweeper) : Prop :=
  ∀ r c cell, getCell (board g) r c = Some cell → isMine cell = true →
    isRevealed cell = true ∨
    ∃ e, e ∈ timers g ∧ callback e = TShowMine (boardGen g) r c.

(** The pending timeouts all show mines. *)
Definition onlyMinesPending (g : Minesweeper) : Prop :=
  ∀ e, e ∈ timers g → isTimeout e = true → ∃ gen r c, callback e = TShowMine gen r c.

(** ** The region a cascade reveals *)

(** The cell at [(r, c)] was not revealed in [b0] and is revealed in [b]. *)
Definition newly (b0 b : Board) (r c : Z) : Prop :=
  ∃ cell0 cell, getCell b0 r c = Some cell0 ∧ isRevealed cell0 = false ∧
                getCell b r c = Some cell ∧ isRevealed cell = true.

(** The cell at [(r, c)] has no mine next to it. *)
Definition zeroAt (b : Board) (r c : Z) : Prop :=
  ∃ cell, getCell b r c = Some cell ∧ adjacentMines cell = 0.

(** [(r, c)] is joined to the start cell by a chain of adjacent newly
    revealed cells, all of which but the last have no mine next to them. *)
Inductive linked (b0 b : Board) (sr sc : Z) : Z → Z → Prop :=
  | linked_start : newly b0 b sr sc → linked b0 b sr sc sr sc
  | linked_step r c r' c' :
      linked b0 b sr sc r c → zeroAt b r c → adjacent r c r' c' →
      newly b0 b r' c' → linked b0 b sr sc r' c'.




(** Invariant of a running cascade that started at [(sr, sc)] on a board
    whose revealed cells were those of [b0].  [hole] is the target of the
    timeout that is just being run. *)
Record CascInv (b0 : Board) (sr sc : Z) (hole : Z → Z → Prop) (g : Minesweeper)
    : Prop := {
  ci_shape : ∀ r c, getCell b0 r c = None ↔ getCell (board g) r c = None;
  ci_mono : ∀ r c cell0 cell,
      getCell b0 r c = Some cell0 → getCell (board g) r c = Some cell →
      isRevealed cell0 = true → isRevealed cell = true;
  ci_linked : ∀ r c, newly b0 (board g) r c → linked b0 (board g) sr sc r c;
  ci_safe : mineShown (board g) = false;
  ci_tasks : ∀ e r c, e ∈ timers g → callback e = TRevealCell r c →
      ∃ zr zc, linked b0 (board g) sr sc zr zc ∧ zeroAt (board g) zr zc ∧
               adjacent zr zc r c;
  ci_closed : ∀ r c cell r' c' cell',
      newly b0 (board g) r c → getCell (board g) r c = Some cell →
      adjacentMines cell = 0 → adjacent r c r' c' →
      getCell (board g) r' c' = Some cell' →
      isRevealed cell' = true ∨ isFlagged cell' = true ∨
      (∃ e, e ∈ timers g ∧ callback e = TRevealCell r' c') ∨ hole r' c'
}.

Definition noHole (r c : Z) : Prop := False.

(** A second example on the easy board: a wall of mines in column 4 and a
    mine at (0, 8).  The first click opens the left part; then the cell
    (5, 7) is flagged and (4, 7) is clicked. *)
Definition wallDraws : list (Rand * Rand) :=
  [at9 0 4; at9 1 4; at9 2 4; at9 3 4; at9 4 4; at9 5 4; at9 6 4; at9 7 4;
   at9 8 4; at9 0 8].

Definition wallFlagged : Minesweeper :=
  stateAfter (EClick 4 0 wallDraws :: repeat EFire 200 ++ [ERightClick 5 7]).

Definition wallClicked : Minesweeper :=
  stateAfter (EClick 4 0 wallDraws :: repeat EFire 200
              ++ [ERightClick 5 7; EClick 4 7 []]).


(** * Further properties of the game code *)

(** The number of rows (or columns) of the board that the 3 x 3 block
    around index [x] meets, on a board with [n] rows (or columns). *)
Definition span (n x : Z) : Z := Z.min (n - 1) (x + 1) - Z.max 0 (x - 1) + 1.

(** ** Invariant of the page

    It holds in every state the page can reach, also when a new game is
    started while timeouts of the previous one are pending. *)
Record PageInv (g : Minesweeper) : Prop := {
  pi_config : validConfig g;
  pi_wf : wfBoard (rows g) (cols g) (board g);
  pi_first : isFirstClick g = true → countCells isMine (board g) = 0;
  pi_flags : minesLeft g = mines g - countCells isFlagged (board g);
  pi_shown : ∀ r c cell, getCell (board g) r c = Some cell →
               isRevealed cell = true → isFlagged cell = true →
               isMine cell = true ∧ isGameOver g = true;
  pi_gen : ∀ e gen r c, e ∈ timers g → callback e = TShowMine gen r c →
             (gen ≤ boardGen g)%nat ∧
             (gen = boardGen g →
                isFirstClick g = false ∧ isGameOver g = true ∧
                ∃ cell, getCell (board g) r c = Some cell ∧ isMine cell = true)
}.

(** On the board with the wall of mines: the mine (0, 4) is flagged, the
    mine (1, 4) is clicked, and the timeouts of [gameOver] have run. *)
Definition wallLostEvents : list Event :=
  EClick 4 0 wallDraws :: repeat EFire 200
  ++ [ERightClick 0 4; EClick 1 4 []] ++ repeat EFire 20.

Definition wallLost : Minesweeper := stateAfter wallLostEvents.

(** ** What stays fixed during a game *)

(** What [placeMines] decides about a cell. *)
Definition layoutOf (cell : Cell) : Z * Z * bool * Z :=
  (row cell, col cell, isMine cell, adjacentMines cell).

Definition sameLayout (b b' : Board) : Prop :=
  ∀ r c, layoutOf <$> getCell b r c = layoutOf <$> getCell b' r c.

Definition staysRevealed (b b' : Board) : Prop :=
  ∀ r c cell, getCell b r c = Some cell → isRevealed cell = true →
    ∃ cell', getCell b' r c = Some cell' ∧ isRevealed cell' = true.

(** The game goes on on the same board. *)
Definition sameGame (g g' : Minesweeper) : Prop :=
  sameLayout (board g) (board g') ∧ staysRevealed (board g) (board g') ∧
  rows g' = rows g ∧ cols g' = cols g ∧ mines g' = mines g ∧
  isFirstClick g' = isFirstClick g ∧ boardGen g' = boardGen g.

(** The easy board right after the first click in the middle: the cascade
    has been set going and none of its steps has run. *)
Definition exampleClicked : Minesweeper := stateAfter [EClick 4 4 exampleDraws].

(** The easy board when a mine is clicked right after the first click,
    while the cascade is running: the game is Lost, and the cascade has gone
    on until one more reveal brings the counter to [totalNonMines]. *)
Definition lostEarlyEvents : list Event :=
  EClick 4 4 exampleDraws :: EClick 0 0 [] :: repeat EFire 389.

Definition exampleLostEarly : Minesweeper := stateAfter lostEarlyEvents.

(** The easy board with a flag put on (0, 0) before the first click, and
    the game after [placeMines(4, 4)] on it: a mine lands under the flag. *)
Definition exampleFlagged : Minesweeper := stateAfter [ERightClick 0 0].

Definition exampleFlagPlaced : Minesweeper :=
  match placeMines exampleDraws 4 4 (set_isFirstClick false exampleFlagged) with
  | Done g => g
  | _ => construct
  end.

(** ** The face and the configuration *)

(** The face tells whether the game is over. *)
Definition faceAgrees (g : Minesweeper) : Prop :=
  if isGameOver g then face g = FaceDead ∨ face g = FaceCool
  else face g = FaceSmile ∨ face g = FaceGasp.

(** The size and the number of mines are those of a preset. *)
Definition isPreset (g : Minesweeper) : Prop :=
  ∃ d, difficulties d = (rows g, cols g, mines g).

(** ** The texts on the page *)

Module Display.
Import Stdlib.Strings.String Stdlib.Strings.Ascii.
Local Open Scope string_scope.

(** [n.toString()] for an integer [n]: its decimal digits, after a minus
    sign when [n] is negative. *)
Definition toString (n : Z) : string :=
  DecimalString.NilZero.string_of_int (Z.to_int n).

(** [s.padStart(targetLength, pad)] for a [pad] of one character. *)
Definition padStart (targetLength : nat) (pad : ascii) (s : string) : string :=
  string_of_list_ascii (repeat pad (targetLength - length s)) ++ s.

(** [updateDisplay]: the texts of the mine counter and of the clock. *)
Definition minesLeftText (g : Minesweeper) : string :=
  padStart 3 "0" (toString (minesLeft g)).

Definition timerText (g : Minesweeper) : string :=
  padStart 3 "0" (toString (timer g)).

Definition isDigit (a : ascii) : bool :=
  (48 <=? nat_of_ascii a)%nat && (nat_of_ascii a <=? 57)%nat.

Definition allDigits (s : string) : bool := forallb isDigit (list_ascii_of_string s).

(** The number a text denotes, if it is one. *)
Definition numberOf (s : string) : option Z :=
  Z.of_int <$> DecimalString.NilZero.int_of_string s.

(** The counter as the page shows it for the numbers 0 to 999. *)
Definition showsNumber (n : Z) (s : string) : bool :=
  (length s =? 3)%nat && allDigits s &&
  match numberOf s with Some m => (m =? n)%Z | None => false end.

(** The cell's element: its class list and its text. *)
Record Element := mkElement {
  className : list string;
  textContent : string
}.

(** [el.classList.add(token)] *)
Definition classListAdd (token : string) (el : Element) : Element :=
  if existsb (String.eqb token) (className el) then el
  else mkElement (className el ++ [token])%list (textContent el).

(** [updateCellDisplay(row, col)] on the element [querySelector] finds for
    the cell, if any. *)
Definition updateCellDisplay (cell : Cell) (cellElement : option Element)
    : option Element :=
  match cellElement with
  | None => None
  | Some el =>
      let el := mkElement ["cell"] (textContent el) in
      Some
        (if isFlagged cell then classListAdd "flagged" el
         else if isRevealed cell then
           let el := classListAdd "revealed" el in
           if isMine cell then classListAdd "mine" el
           else if (0 <? adjacentMines cell)%Z then
             let el := classListAdd ("num-" ++ toString (adjacentMines cell)) el in
             mkElement (className el) (toString (adjacentMines cell))
           else el
         else el)
  end.

End Display.

(** * Play in any order

    Definitions for what holds in every state the page can reach, also
    after a new game that was started while timeouts were pending, and for
    the claims that fail there. *)



(** ** A new game while the cascade is running *)




(** First click in the middle, New Game at once, flags on the sixteen cells
    around the 3 x 3 block in the middle, and then the timeouts run: the
    cascade of the old game has revealed the nine cells inside the ring of
    flags before the first click of the new game, and no timeout is
    pending. *)
Definition ringFlags : list Event :=
  [ERightClick 2 2; ERightClick 2 3; ERightClick 2 4; ERightClick 2 5;
   ERightClick 2 6; ERightClick 3 2; ERightClick 3 6; ERightClick 4 2;
   ERightClick 4 6; ERightClick 5 2; ERightClick 5 6; ERightClick 6 2;
   ERightClick 6 3; ERightClick 6 4; ERightClick 6 5; ERightClick 6 6].

Definition staleRing : Minesweeper :=
  stateAfter (EClick 4 4 exampleDraws :: ENewGame :: ringFlags ++ repeat EFire 100).



(** ** A mine clicked while the cascade is running *)

(** The easy board when the mine (0, 0) is clicked right after the first
    click, before any step of the cascade has run. *)
Definition exampleMineClicked : Minesweeper :=
  stateAfter [EClick 4 4 exampleDraws; EClick 0 0 []].

(** The easy board 240 ms after the first click, when 200 timers have run
    and the cascade is half way, and the same with the mine (0, 0) clicked
    then. *)
Definition exampleCascading : Minesweeper :=
  stateAfter (EClick 4 4 exampleDraws :: repeat EFire 200).

Definition exampleMineClickedLate : Minesweeper :=
  stateAfter (EClick 4 4 exampleDraws :: repeat EFire 200 ++ [EClick 0 0 []]).
(** * Lemmas about boards *)

Lemma sumZ_app {A} (w : A → Z) (l1 l2 : list A) :
  sumZ w (l1 ++ l2) = sumZ w l1 + sumZ w l2.
Proof. induction l1 as [|x l1 IH]; simpl; [reflexivity | rewrite IH; lia]. Qed.

Lemma sumZ_alter {A} (w : A → Z) (f : A → A) (l : list A) (i : nat) (x : A) :
  l !! i = Some x →
  sumZ w (alter f i l) = sumZ w l - w x + w (f x).
Proof.
  revert i. induction l as [|y l IH]; intros [|i] Hl; try discriminate.
  - injection Hl as ->. change (w (f x) + sumZ w l = w x + sumZ w l - w x + w (f x)). lia.
  - change (w y + sumZ w (alter f i l) = w y + sumZ w l - w x + w (f x)).
    rewrite (IH i Hl). lia.
Qed.

Lemma sumZ_le {A} (w1 w2 : A → Z) (l : list A) :
  (∀ x, x ∈ l → w1 x ≤ w2 x) → sumZ w1 l ≤ sumZ w2 l.
Proof.
  induction l as [|x l IH]; intros H; simpl; [lia|].
  pose proof (H x (list_elem_of_here _ _)).
  assert (sumZ w1 l ≤ sumZ w2 l) by (apply IH; intros; apply H; by constructor).
  lia.
Qed.

Lemma sumZ_eq_pointwise {A} (w1 w2 : A → Z) (l : list A) :
  (∀ x, x ∈ l → w1 x ≤ w2 x) → sumZ w1 l = sumZ w2 l →
  ∀ x, x ∈ l → w1 x = w2 x.
Proof.
  induction l as [|y l IH]; intros Hle Heq x Hx; [by apply elem_of_nil in Hx|].
  simpl in Heq.
  pose proof (Hle y (list_elem_of_here _ _)).
  assert (sumZ w1 l ≤ sumZ w2 l)
    by (apply sumZ_le; intros; apply Hle; by constructor).
  apply elem_of_cons in Hx as [->|Hx]; [lia|].
  apply IH; [intros; apply Hle; by constructor | lia | done].
Qed.

Lemma sumZ_const {A} (k : Z) (l : list A) :
  sumZ (λ _, k) l = k * Z.of_nat (length l).
Proof. induction l as [|x l IH]; simpl length; simpl sumZ; [lia | rewrite IH; lia]. Qed.

Lemma sumZ_ext {A} (w1 w2 : A → Z) (l : list A) :
  (∀ x, x ∈ l → w1 x = w2 x) → sumZ w1 l = sumZ w2 l.
Proof.
  induction l as [|x l IH]; intros H; simpl; [reflexivity|].
  rewrite (H x (list_elem_of_here _ _)), IH; [reflexivity|].
  intros; apply H; by constructor.
Qed.

Lemma sumZ_nonneg {A} (w : A → Z) (l : list A) :
  (∀ x, 0 ≤ w x) → 0 ≤ sumZ w l.
Proof. intros H. induction l as [|x l IH]; simpl; [lia | specialize (H x); lia]. Qed.

Lemma indicator_range P cell : 0 ≤ indicator P cell ≤ 1.
Proof. unfold indicator. destruct (P cell); lia. Qed.

Lemma countCells_nonneg P b : 0 ≤ countCells P b.
Proof.
  unfold countCells. apply sumZ_nonneg. intros cells. apply sumZ_nonneg.
  intros cell. apply indicator_range.
Qed.

(** *** Reading and writing one cell *)

Lemma updCell_nonneg f b r c :
  0 ≤ r → 0 ≤ c → updCell f r c b = alter (alter f (Z.to_nat c)) (Z.to_nat r) b.
Proof.
  intros Hr Hc. unfold updCell.
  by rewrite (proj2 (Z.leb_le 0 r) Hr), (proj2 (Z.leb_le 0 c) Hc).
Qed.

Lemma updCell_neg f b r c : ¬ (0 ≤ r ∧ 0 ≤ c) → updCell f r c b = b.
Proof.
  intros H. unfold updCell.
  destruct (0 <=? r) eqn:Hr, (0 <=? c) eqn:Hc; simpl; try reflexivity.
  apply Z.leb_le in Hr, Hc. tauto.
Qed.

Lemma getCell_lookup b r c cell :
  getCell b r c = Some cell ↔
  0 ≤ r ∧ 0 ≤ c ∧ ∃ cells, b !! Z.to_nat r = Some cells ∧ cells !! Z.to_nat c = Some cell.
Proof.
  unfold getCell. split.
  - destruct (0 <=? r) eqn:Hr, (0 <=? c) eqn:Hc; simpl; try discriminate.
    destruct (b !! Z.to_nat r) as [cells|] eqn:Hb; [|discriminate].
    intros H. repeat split; [lia | lia | eauto].
  - intros (Hr & Hc & cells & Hb & Hcell).
    rewrite (proj2 (Z.leb_le 0 r) Hr), (proj2 (Z.leb_le 0 c) Hc). simpl.
    by rewrite Hb.
Qed.

Lemma getCell_Some_nonneg b r c cell :
  getCell b r c = Some cell → 0 ≤ r ∧ 0 ≤ c.
Proof. intros H. apply getCell_lookup in H. tauto. Qed.

(** Reading a cell after a write: the written cell shows the new fields,
    every other cell is as before. *)
Lemma getCell_updCell f b r c r' c' :
  getCell (updCell f r c b) r' c' =
  if decide (r' = r ∧ c' = c) then f <$> getCell b r c else getCell b r' c'.
Proof.
  destruct (decide (0 ≤ r ∧ 0 ≤ c)) as [[Hr Hc]|Hneg].
  - rewrite updCell_nonneg by done.
    destruct (decide (r' = r ∧ c' = c)) as [[-> ->]|Hne].
    + unfold getCell.
      rewrite (proj2 (Z.leb_le 0 r) Hr), (proj2 (Z.leb_le 0 c) Hc). simpl.
      rewrite list_lookup_alter_eq.
      destruct (b !! Z.to_nat r) as [cells|]; simpl; [|reflexivity].
      by rewrite list_lookup_alter_eq.
    + unfold getCell.
      destruct (0 <=? r') eqn:Hr', (0 <=? c') eqn:Hc'; simpl; try reflexivity.
      apply Z.leb_le in Hr', Hc'.
      destruct (decide (Z.to_nat r = Z.to_nat r')) as [Heq|Hner].
      * rewrite <- Heq, list_lookup_alter_eq.
        destruct (b !! Z.to_nat r) as [cells|]; simpl; [|reflexivity].
        apply list_lookup_alter_ne. intros Heqc. apply Hne. lia.
      * by rewrite list_lookup_alter_ne.
  - rewrite updCell_neg by done.
    destruct (decide (r' = r ∧ c' = c)) as [[-> ->]|Hne]; [|reflexivity].
    destruct (getCell b r c) as [cell|] eqn:H; [|reflexivity].
    apply getCell_Some_nonneg in H. tauto.
Qed.

Lemma getCell_updCell_eq f b r c cell :
  getCell b r c = Some cell →
  getCell (updCell f r c b) r c = Some (f cell).
Proof.
  intros H. rewrite getCell_updCell, H. by rewrite decide_True.
Qed.

Lemma getCell_updCell_ne f b r c r' c' :
  ¬ (r' = r ∧ c' = c) →
  getCell (updCell f r c b) r' c' = getCell b r' c'.
Proof. intros H. rewrite getCell_updCell. by rewrite decide_False. Qed.

Lemma wfBoard_getCell rows cols b r c :
  wfBoard rows cols b →
  inBoard rows cols r c = true ↔ ∃ cell, getCell b r c = Some cell.
Proof.
  intros (Hrows & Hcols & Hlen & Hrow & _). unfold inBoard. split.
  - intros H. repeat (apply andb_true_iff in H as [H ?]).
    apply Z.leb_le in H. apply Z.ltb_lt in H0, H2. apply Z.leb_le in H1.
    destruct (lookup_lt_is_Some_2 b (Z.to_nat r)) as [cells Hb]; [lia|].
    pose proof (Hrow _ _ Hb) as Hl.
    destruct (lookup_lt_is_Some_2 cells (Z.to_nat c)) as [cell Hcell]; [lia|].
    exists cell. apply getCell_lookup. eauto 6.
  - intros [cell H]. apply getCell_lookup in H as (Hr & Hc & cells & Hb & Hcell).
    pose proof (Hrow _ _ Hb) as Hl.
    apply lookup_lt_Some in Hb, Hcell.
    repeat (apply andb_true_iff; split);
      first [apply Z.leb_le | apply Z.ltb_lt]; lia.
Qed.

Lemma wfBoard_inBoard rows cols b r c cell :
  wfBoard rows cols b → getCell b r c = Some cell → inBoard rows cols r c = true.
Proof. intros Hwf H. apply (wfBoard_getCell _ _ _ _ _ Hwf). eauto. Qed.

Lemma wfBoard_pos rows cols b r c cell :
  wfBoard rows cols b → getCell b r c = Some cell → row cell = r ∧ col cell = c.
Proof. intros (_ & _ & _ & _ & H). apply H. Qed.

Lemma inBoard_spec rows cols r c :
  inBoard rows cols r c = true ↔ 0 ≤ r < rows ∧ 0 ≤ c < cols.
Proof.
  unfold inBoard. rewrite !andb_true_iff, !Z.leb_le, !Z.ltb_lt. lia.
Qed.

(** A field update that keeps [row] and [col] keeps the board well formed. *)
Lemma wfBoard_updCell rows cols b f r c :
  (∀ cell, row (f cell) = row cell ∧ col (f cell) = col cell) →
  wfBoard rows cols b → wfBoard rows cols (updCell f r c b).
Proof.
  intros Hf Hwf.
  destruct (decide (0 ≤ r ∧ 0 ≤ c)) as [[Hr Hc]|Hneg];
    [|by rewrite updCell_neg].
  destruct Hwf as (Hrows & Hcols & Hlen & Hrow & Hpos).
  split; [done|]. split; [done|]. split; [|split].
  - rewrite updCell_nonneg by done. by rewrite length_alter.
  - intros i cells. rewrite updCell_nonneg by done.
    destruct (decide (Z.to_nat r = i)) as [<-|Hne].
    + rewrite list_lookup_alter_eq.
      destruct (b !! Z.to_nat r) as [cells0|] eqn:Hb; simpl; [|discriminate].
      intros [= <-]. rewrite length_alter. eauto.
    + rewrite list_lookup_alter_ne by done. eauto.
  - intros r' c' cell'. rewrite getCell_updCell.
    destruct (decide (r' = r ∧ c' = c)) as [[-> ->]|Hne]; [|apply Hpos].
    destruct (getCell b r c) as [cell|] eqn:Hb; simpl; [|discriminate].
    intros [= <-]. destruct (Hf cell) as [-> ->]. eauto.
Qed.

(** Writing one cell changes a count by what that cell contributes. *)
Lemma countCells_updCell P f b r c cell :
  getCell b r c = Some cell →
  countCells P (updCell f r c b) =
  countCells P b - indicator P cell + indicator P (f cell).
Proof.
  intros H. apply getCell_lookup in H as (Hr & Hc & cells & Hb & Hcell).
  rewrite updCell_nonneg by done. unfold countCells.
  rewrite (sumZ_alter _ _ _ _ _ Hb), (sumZ_alter _ _ _ _ _ Hcell). lia.
Qed.

Lemma countCells_le P Q b :
  (∀ r c cell, getCell b r c = Some cell → P cell = true → Q cell = true) →
  countCells P b ≤ countCells Q b.
Proof.
  intros H. unfold countCells. apply sumZ_le. intros cells Hcells.
  apply sumZ_le. intros cell Hcell.
  apply list_elem_of_lookup in Hcells as [i Hi], Hcell as [j Hj].
  assert (Hg : getCell b (Z.of_nat i) (Z.of_nat j) = Some cell).
  { apply getCell_lookup. rewrite !Nat2Z.id. split; [lia|]. split; [lia|]. eauto. }
  specialize (H _ _ _ Hg). unfold indicator.
  destruct (P cell); [rewrite H by done|destruct (Q cell)]; lia.
Qed.

(** Two nested counts that agree pick out the same cells. *)
Lemma countCells_eq_all P Q b r c cell :
  (∀ r c cell, getCell b r c = Some cell → P cell = true → Q cell = true) →
  countCells P b = countCells Q b →
  getCell b r c = Some cell → Q cell = true → P cell = true.
Proof.
  intros Hsub Heq Hget HQ.
  apply getCell_lookup in Hget as (Hr & Hc & cells & Hb & Hcell).
  assert (Hle : ∀ cells, cells ∈ b → ∀ cell, cell ∈ cells →
                indicator P cell ≤ indicator Q cell).
  { intros cells' Hcells cell' Hcell'.
    apply list_elem_of_lookup in Hcells as [i Hi], Hcell' as [j Hj].
    assert (Hg : getCell b (Z.of_nat i) (Z.of_nat j) = Some cell').
    { apply getCell_lookup. rewrite !Nat2Z.id. split; [lia|]. split; [lia|]. eauto. }
    specialize (Hsub _ _ _ Hg). unfold indicator.
    destruct (P cell'); [rewrite Hsub by done|destruct (Q cell')]; lia. }
  assert (Hrow : sumZ (indicator P) cells = sumZ (indicator Q) cells).
  { apply (sumZ_eq_pointwise (sumZ (indicator P)) (sumZ (indicator Q)) b).
    - intros cells' Hcells. apply sumZ_le. by apply Hle.
    - exact Heq.
    - apply list_elem_of_lookup. eauto. }
  assert (Hc1 : indicator P cell = indicator Q cell).
  { apply (sumZ_eq_pointwise (indicator P) (indicator Q) cells).
    - apply Hle. apply list_elem_of_lookup. eauto.
    - exact Hrow.
    - apply list_elem_of_lookup. eauto. }
  unfold indicator in Hc1. rewrite HQ in Hc1. destruct (P cell); [done|lia].
Qed.

(** Complementary predicates split the cells of the board. *)
Lemma countCells_split P b rows cols :
  wfBoard rows cols b →
  countCells P b + countCells (λ cell, negb (P cell)) b = rows * cols.
Proof.
  intros (Hrows & Hcols & Hlen & Hrow & _). unfold countCells.
  assert (H : ∀ l : list (list Cell),
             (∀ cells, cells ∈ l → length cells = Z.to_nat cols) →
             sumZ (sumZ (indicator P)) l
             + sumZ (sumZ (indicator (λ cell, negb (P cell)))) l
             = Z.of_nat (length l) * cols).
  { induction l as [|cells l IH]; intros Hl; [simpl; lia|].
    simpl sumZ at 1 3. simpl length.
    assert (Hcells : sumZ (indicator P) cells
                     + sumZ (indicator (λ cell, negb (P cell))) cells = cols).
    { specialize (Hl cells (list_elem_of_here _ _)).
      assert (Hgen : ∀ l' : list Cell, sumZ (indicator P) l'
               + sumZ (indicator (λ cell, negb (P cell))) l' = Z.of_nat (length l')).
      { induction l' as [|x l' IH']; [reflexivity|].
        simpl sumZ. simpl length. unfold indicator at 1 3.
        destruct (P x); simpl; lia. }
      rewrite Hgen, Hl. lia. }
    specialize (IH (λ cells' H', Hl cells' (list_elem_of_further _ _ _ H'))).
    lia. }
  rewrite H, Hlen; [lia|].
  intros cells Hcells. apply list_elem_of_lookup in Hcells as [i Hi]. eauto.
Qed.


(** *** Adjacent cells *)

Lemma seqZ_3 m : seqZ m 3 = [m; m + 1; m + 2].
Proof.
  unfold seqZ. simpl. repeat (f_equal; try lia).
Qed.

Lemma getAdjacentCells_unfold rows cols b r c :
  getAdjacentCells rows cols b r c =
  adjacentSlot rows cols b r c (r - 1) (c - 1)
  ++ adjacentSlot rows cols b r c (r - 1) c
  ++ adjacentSlot rows cols b r c (r - 1) (c + 1)
  ++ adjacentSlot rows cols b r c r (c - 1)
  ++ adjacentSlot rows cols b r c r (c + 1)
  ++ adjacentSlot rows cols b r c (r + 1) (c - 1)
  ++ adjacentSlot rows cols b r c (r + 1) c
  ++ adjacentSlot rows cols b r c (r + 1) (c + 1).
Proof.
  unfold getAdjacentCells. rewrite !seqZ_3. simpl.
  replace (r - 1 + 1) with r by lia. replace (c - 1 + 1) with c by lia.
  replace (r - 1 + 2) with (r + 1) by lia. replace (c - 1 + 2) with (c + 1) by lia.
  assert (Hcentre : adjacentSlot rows cols b r c r c = []).
  { unfold adjacentSlot. rewrite !Z.eqb_refl. simpl. by rewrite andb_false_r. }
  rewrite Hcentre, !app_nil_r. simpl. by rewrite <- !app_assoc.
Qed.

Lemma adjacentSlot_length rows cols b r c r' c' :
  (length (adjacentSlot rows cols b r c r' c') ≤ 1)%nat.
Proof.
  unfold adjacentSlot.
  destruct (inBoard rows cols r' c' && negb ((r' =? r) && (c' =? c))); simpl; [|lia].
  destruct (getCell b r' c'); simpl; lia.
Qed.

Lemma getAdjacentCells_length rows cols b r c :
  (length (getAdjacentCells rows cols b r c) ≤ 8)%nat.
Proof.
  rewrite getAdjacentCells_unfold, !length_app.
  pose proof (adjacentSlot_length rows cols b r c (r - 1) (c - 1)).
  pose proof (adjacentSlot_length rows cols b r c (r - 1) c).
  pose proof (adjacentSlot_length rows cols b r c (r - 1) (c + 1)).
  pose proof (adjacentSlot_length rows cols b r c r (c - 1)).
  pose proof (adjacentSlot_length rows cols b r c r (c + 1)).
  pose proof (adjacentSlot_length rows cols b r c (r + 1) (c - 1)).
  pose proof (adjacentSlot_length rows cols b r c (r + 1) c).
  pose proof (adjacentSlot_length rows cols b r c (r + 1) (c + 1)).
  lia.
Qed.

Lemma elem_of_adjacentSlot rows cols b r c r' c' cell :
  cell ∈ adjacentSlot rows cols b r c r' c' ↔
  inBoard rows cols r' c' = true ∧ ¬ (r' = r ∧ c' = c) ∧ getCell b r' c' = Some cell.
Proof.
  unfold adjacentSlot.
  destruct (inBoard rows cols r' c') eqn:Hin,
    (Z.eqb_spec r' r), (Z.eqb_spec c' c), (getCell b r' c') as [x|];
    simpl; rewrite ?list_elem_of_singleton, ?elem_of_nil;
    intuition (try congruence; try discriminate).
Qed.

(** The cells [getAdjacentCells] returns are the cells of the board next to
    [(r, c)]. *)
Lemma elem_of_getAdjacentCells rows cols b r c cell :
  cell ∈ getAdjacentCells rows cols b r c ↔
  ∃ r' c', adjacent r c r' c' ∧ inBoard rows cols r' c' = true ∧
           getCell b r' c' = Some cell.
Proof.
  unfold getAdjacentCells. rewrite list_elem_of_bind. split.
  - intros (r' & Hc & Hr). apply list_elem_of_bind in Hc as (c' & Hcell & Hc).
    apply elem_of_seqZ in Hr, Hc. apply elem_of_adjacentSlot in Hcell as (? & ? & ?).
    exists r', c'. unfold adjacent. repeat split; try done; lia.
  - intros (r' & c' & (Hr & Hc & Hne) & Hin & Hget).
    exists r'. split; [|apply elem_of_seqZ; lia].
    apply list_elem_of_bind. exists c'. split; [|apply elem_of_seqZ; lia].
    by apply elem_of_adjacentSlot.
Qed.

Lemma countMineCells_app l1 l2 :
  countMineCells (l1 ++ l2) = countMineCells l1 + countMineCells l2.
Proof. unfold countMineCells. rewrite List.filter_app, length_app. lia. Qed.

Lemma countMineCells_slot rows cols b r c r' c' :
  ¬ (r' = r ∧ c' = c) →
  countMineCells (adjacentSlot rows cols b r c r' c') = mineAt rows cols b r' c'.
Proof.
  intros Hne. unfold adjacentSlot, mineAt, countMineCells.
  assert (Hn : (r' =? r) && (c' =? c) = false).
  { apply andb_false_iff.
    destruct (Z.eqb_spec r' r), (Z.eqb_spec c' c); tauto. }
  rewrite Hn, andb_true_r.
  destruct (inBoard rows cols r' c'); [|reflexivity].
  destruct (getCell b r' c') as [cell|]; [|reflexivity].
  simpl. by destruct (isMine cell).
Qed.

(** What the code counts is the number of mines in the Moore
    neighbourhood. *)
Lemma countMineCells_moore rows cols b r c :
  countMineCells (getAdjacentCells rows cols b r c) = mooreMineCount rows cols b r c.
Proof.
  rewrite getAdjacentCells_unfold, !countMineCells_app.
  rewrite !countMineCells_slot by lia. unfold mooreMineCount. lia.
Qed.

Lemma mineAt_range rows cols b r c : 0 ≤ mineAt rows cols b r c ≤ 1.
Proof.
  unfold mineAt. destruct (inBoard rows cols r c); [|lia].
  destruct (getCell b r c) as [cell|]; [destruct (isMine cell)|]; lia.
Qed.

Lemma mooreMineCount_range rows cols b r c : 0 ≤ mooreMineCount rows cols b r c ≤ 8.
Proof.
  unfold mooreMineCount.
  pose proof (mineAt_range rows cols b (r - 1) (c - 1)).
  pose proof (mineAt_range rows cols b (r - 1) c).
  pose proof (mineAt_range rows cols b (r - 1) (c + 1)).
  pose proof (mineAt_range rows cols b r (c - 1)).
  pose proof (mineAt_range rows cols b r (c + 1)).
  pose proof (mineAt_range rows cols b (r + 1) (c - 1)).
  pose proof (mineAt_range rows cols b (r + 1) c).
  pose proof (mineAt_range rows cols b (r + 1) (c + 1)).
  lia.
Qed.

(** The count is zero exactly when no adjacent cell is a mine. *)
Lemma mooreMineCount_zero rows cols b r c :
  mooreMineCount rows cols b r c = 0 →
  ∀ r' c' cell, adjacent r c r' c' → inBoard rows cols r' c' = true →
                getCell b r' c' = Some cell → isMine cell = false.
Proof.
  intros Hz r' c' cell Hadj Hin Hget.
  destruct (isMine cell) eqn:Hm; [exfalso|reflexivity].
  assert (Hcell : cell ∈ getAdjacentCells rows cols b r c).
  { apply elem_of_getAdjacentCells. eauto. }
  rewrite <- countMineCells_moore in Hz. unfold countMineCells in Hz.
  assert (Hf : cell ∈ List.filter isMine (getAdjacentCells rows cols b r c)).
  { apply list_elem_of_In, List.filter_In. split; [by apply list_elem_of_In|done]. }
  destruct (List.filter isMine (getAdjacentCells rows cols b r c));
    [by apply elem_of_nil in Hf | simpl in Hz; lia].
Qed.

Lemma mooreMineCount_sameMines rows cols b b' r c :
  sameMines b b' → mooreMineCount rows cols b r c = mooreMineCount rows cols b' r c.
Proof.
  intros H.
  assert (Hm : ∀ r c, mineAt rows cols b r c = mineAt rows cols b' r c).
  { intros r0 c0. unfold mineAt. specialize (H r0 c0).
    destruct (getCell b r0 c0), (getCell b' r0 c0); simpl in H;
      try discriminate; [|reflexivity].
    injection H as ->. reflexivity. }
  unfold mooreMineCount. by rewrite !Hm.
Qed.

(** *** [calculateAdjacentMines] *)

Lemma foldl_invariant {A B} (f : B → A → B) (P : list A → B → Prop) l b :
  P [] b →
  (∀ pre x b', P pre b' → P (pre ++ [x]) (f b' x)) →
  P l (foldl f b l).
Proof.
  revert P b. induction l as [|x l IH]; intros P b H0 Hstep; [exact H0|].
  simpl. apply (IH (λ pre, P (x :: pre))).
  - apply (Hstep [] x b H0).
  - intros pre y b' Hp. apply (Hstep (x :: pre) y b' Hp).
Qed.

Lemma eraseAdj_setAdjacentMines v cell :
  eraseAdj (setAdjacentMines v cell) = eraseAdj cell.
Proof. reflexivity. Qed.

Lemma sameButAdj_refl b : sameButAdj b b.
Proof. by intros r c. Qed.

Lemma sameButAdj_trans b1 b2 b3 :
  sameButAdj b1 b2 → sameButAdj b2 b3 → sameButAdj b1 b3.
Proof. intros H1 H2 r c. by rewrite H1. Qed.

Lemma sameButAdj_sameMines b b' : sameButAdj b b' → sameMines b b'.
Proof.
  intros H r c. specialize (H r c).
  destruct (getCell b r c) as [x|], (getCell b' r c) as [y|];
    simpl in *; try discriminate; [|reflexivity].
  f_equal. assert (He : eraseAdj x = eraseAdj y) by congruence.
  by apply (f_equal isMine) in He.
Qed.

Lemma sameButAdj_updCell v b r c :
  sameButAdj b (updCell (setAdjacentMines v) r c b).
Proof.
  intros r' c'. rewrite getCell_updCell.
  destruct (decide (r' = r ∧ c' = c)) as [[-> ->]|]; [|reflexivity].
  by destruct (getCell b r c).
Qed.

Lemma adjacentMinesBody_sameButAdj rows cols b r c :
  sameButAdj b (adjacentMinesBody rows cols b r c).
Proof.
  unfold adjacentMinesBody.
  destruct (getCell b r c) as [cell|]; [|apply sameButAdj_refl].
  destruct (isMine cell); simpl; [apply sameButAdj_refl|apply sameButAdj_updCell].
Qed.

(** One pass of the loop body: the visited cell, when it is not a mine,
    gets its count; the counts stored before stay. *)
Lemma adjacentMinesBody_counted rows cols b0 b (S : Z → Z → Prop) r c :
  sameButAdj b0 b → countedOn rows cols b0 S b →
  countedOn rows cols b0 (λ r' c', S r' c' ∨ (r' = r ∧ c' = c))
    (adjacentMinesBody rows cols b r c).
Proof.
  intros Hsame Hcnt r' c' cell' HS Hget Hm.
  unfold adjacentMinesBody in Hget.
  destruct (getCell b r c) as [cell|] eqn:Hcell.
  - destruct (isMine cell) eqn:Hmine; simpl in Hget.
    + destruct HS as [HS|[-> ->]]; [by apply (Hcnt r' c')|congruence].
    + rewrite getCell_updCell in Hget.
      destruct (decide (r' = r ∧ c' = c)) as [[-> ->]|Hne].
      * rewrite Hcell in Hget. injection Hget as <-. simpl.
        rewrite countMineCells_moore.
        symmetry. by apply mooreMineCount_sameMines, sameButAdj_sameMines.
      * destruct HS as [HS|?]; [by apply (Hcnt r' c')|tauto].
  - destruct HS as [HS|[-> ->]]; [by apply (Hcnt r' c')|congruence].
Qed.

Lemma countedOn_weaken rows cols b0 (S S' : Z → Z → Prop) b :
  (∀ r c, S' r c → S r c) → countedOn rows cols b0 S b → countedOn rows cols b0 S' b.
Proof. intros HS H r c cell HS'. apply H. by apply HS. Qed.

(** After [calculateAdjacentMines] every board cell that is not a mine holds
    the number of mines around it; nothing but [adjacentMines] changed. *)
Lemma calculateAdjacentMines_spec rows cols b :
  let b' := calculateAdjacentMines rows cols b in
  sameButAdj b b' ∧
  ∀ r c cell, 0 ≤ r < rows → 0 ≤ c < cols →
    getCell b' r c = Some cell → isMine cell = false →
    adjacentMines cell = mooreMineCount rows cols b' r c.
Proof.
  intros b'.
  assert (H : sameButAdj b b' ∧
              countedOn rows cols b
                (λ r c, r ∈ seqZ 0 rows ∧ c ∈ seqZ 0 cols) b').
  { subst b'. unfold calculateAdjacentMines.
    apply (foldl_invariant _
             (λ pre b', sameButAdj b b' ∧
                countedOn rows cols b (λ r c, r ∈ pre ∧ c ∈ seqZ 0 cols) b')).
    - split; [apply sameButAdj_refl|].
      intros r c cell [Hr _]. by apply elem_of_nil in Hr.
    - intros pre r b1 [Hs1 Hc1].
      assert (Hin : sameButAdj b
                (foldl (λ b c, adjacentMinesBody rows cols b r c) b1 (seqZ 0 cols)) ∧
              countedOn rows cols b
                (λ r' c', (r' ∈ pre ∧ c' ∈ seqZ 0 cols) ∨ (r' = r ∧ c' ∈ seqZ 0 cols))
                (foldl (λ b c, adjacentMinesBody rows cols b r c) b1 (seqZ 0 cols))).
      { apply (foldl_invariant _
                 (λ prec b2, sameButAdj b b2 ∧
                    countedOn rows cols b
                      (λ r' c', (r' ∈ pre ∧ c' ∈ seqZ 0 cols) ∨ (r' = r ∧ c' ∈ prec))
                      b2)).
        - split; [done|]. eapply countedOn_weaken; [|exact Hc1].
          intros r' c' [?|[_ Hc]]; [done|by apply elem_of_nil in Hc].
        - intros prec c b2 [Hs2 Hc2]. split.
          + eapply sameButAdj_trans; [exact Hs2|apply adjacentMinesBody_sameButAdj].
          + eapply countedOn_weaken;
              [|apply (adjacentMinesBody_counted _ _ _ _ _ r c Hs2 Hc2)].
            intros r' c' [?|[-> Hc]]; [tauto|].
            apply elem_of_app in Hc as [?|Hc]; [tauto|].
            apply list_elem_of_singleton in Hc. tauto. }
      destruct Hin as [Hs3 Hc3]. split; [done|].
      eapply countedOn_weaken; [|exact Hc3].
      intros r' c' [Hr Hc]. apply elem_of_app in Hr as [?|Hr]; [tauto|].
      apply list_elem_of_singleton in Hr. tauto. }
  destruct H as [Hs Hc]. split; [done|].
  intros r c cell Hr Hcc Hget Hm.
  rewrite (Hc r c cell); try done.
  - by apply mooreMineCount_sameMines, sameButAdj_sameMines.
  - split; apply elem_of_seqZ; lia.
Qed.

(** *** [placeMines] *)

Lemma floorMul_range x n : 0 < n → 0 ≤ floorMul x n < n.
Proof.
  intros Hn. unfold floorMul.
  pose proof (Z.mod_pos_bound (rnum x) (Z.pos (rden x)) (Pos2Z.is_pos _)) as Hm.
  split.
  - apply Z.div_pos; [nia|lia].
  - apply Z.div_lt_upper_bound; [lia|nia].
Qed.

Lemma minesAdded_refl zone b : minesAdded zone b b.
Proof. intros r c. by left. Qed.

Lemma minesAdded_step zone b b' r c cell :
  getCell b r c = Some cell → isMine cell = false → isExcludedAt zone r c = false →
  minesAdded zone (updCell (setMine true) r c b) b' → minesAdded zone b b'.
Proof.
  intros Hget Hm Hz H r' c'. specialize (H r' c').
  rewrite getCell_updCell in H.
  destruct (decide (r' = r ∧ c' = c)) as [[-> ->]|Hne]; [|exact H].
  rewrite Hget in H. simpl in H.
  destruct H as [H|(cell1 & [= <-] & Hm1 & _)]; [|discriminate].
  right. eauto.
Qed.

(** The loop, when it ends, has added exactly the missing mines, each on a
    cell outside the zone. *)
Lemma placeMinesLoop_spec rows cols mines zone draws :
  ∀ placed b b', wfBoard rows cols b → placed ≤ mines →
    placeMinesLoop rows cols mines zone draws placed b = Done b' →
    wfBoard rows cols b' ∧
    countCells isMine b' = countCells isMine b + (mines - placed) ∧
    minesAdded zone b b'.
Proof.
  induction draws as [|[x y] draws IH]; intros placed b b' Hwf Hle; simpl.
  - destruct (placed <? mines) eqn:Hlt; [discriminate|].
    apply Z.ltb_ge in Hlt. intros [= <-].
    split; [done|]. split; [lia|apply minesAdded_refl].
  - destruct (placed <? mines) eqn:Hlt.
    + apply Z.ltb_lt in Hlt.
      destruct (getCell b (floorMul x rows) (floorMul y cols)) as [cell|] eqn:Hget;
        [|discriminate].
      destruct (isMine cell) eqn:Hm; simpl; [by apply IH|].
      destruct (isExcludedAt zone (floorMul x rows) (floorMul y cols)) eqn:Hz;
        simpl; [by apply IH|].
      intros Hloop. apply IH in Hloop as (Hwf' & Hcnt & Hadd).
      * split; [done|]. split.
        -- rewrite Hcnt, (countCells_updCell _ _ _ _ _ _ Hget).
           unfold indicator. rewrite Hm. simpl. lia.
        -- eapply minesAdded_step; eauto.
      * by apply wfBoard_updCell.
      * lia.
    + apply Z.ltb_ge in Hlt. intros [= <-].
      split; [done|]. split; [lia|apply minesAdded_refl].
Qed.

Lemma countCells_zero P b :
  (∀ r c cell, getCell b r c = Some cell → P cell = false) → countCells P b = 0.
Proof.
  intros H.
  assert (Hle : countCells P b ≤ countCells (λ _, false) b).
  { apply countCells_le. intros r c cell Hget HP. rewrite (H _ _ _ Hget) in HP.
    discriminate. }
  assert (Hz : countCells (λ _, false) b = 0).
  { unfold countCells. rewrite (sumZ_ext _ (λ _, 0)); [by rewrite sumZ_const|].
    intros cells _. unfold indicator. by rewrite sumZ_const. }
  pose proof (countCells_nonneg P b). lia.
Qed.

Lemma countCells_zero_inv P b r c cell :
  countCells P b = 0 → getCell b r c = Some cell → P cell = false.
Proof.
  intros Hz Hget. destruct (P cell) eqn:HP; [exfalso|done].
  assert (H : (λ _ : Cell, false) cell = true); [|discriminate].
  apply (countCells_eq_all (λ _, false) P b r c cell); try done.
  rewrite Hz. by apply countCells_zero.
Qed.

Lemma eraseAdj_eq x y :
  eraseAdj x = eraseAdj y →
  row x = row y ∧ col x = col y ∧ isMine x = isMine y ∧
  isRevealed x = isRevealed y ∧ isFlagged x = isFlagged y.
Proof. destruct x, y. unfold eraseAdj, setAdjacentMines. simpl. by intros [= -> -> -> -> ->]. Qed.

(** The loop ends when the random numbers reach every free cell. *)
Lemma placeMinesLoop_terminates rows cols mines zone draws :
  0 < rows → 0 < cols →
  ∀ placed b, wfBoard rows cols b →
    mines - placed ≤ countCells (isFree zone) b →
    (∀ r c cell, getCell b r c = Some cell → isFree zone cell = true →
                 (r, c) ∈ drawnCell rows cols <$> draws) →
    ∃ b', placeMinesLoop rows cols mines zone draws placed b = Done b'.
Proof.
  intros Hrows Hcols.
  induction draws as [|[x y] draws IH]; intros placed b Hwf Hfree Hcover; simpl.
  - destruct (placed <? mines) eqn:Hlt; [|eauto].
    apply Z.ltb_lt in Hlt. exfalso.
    rewrite countCells_zero in Hfree; [lia|].
    intros r c cell Hget. destruct (isFree zone cell) eqn:Hf; [|done].
    specialize (Hcover _ _ _ Hget Hf). by apply elem_of_nil in Hcover.
  - destruct (placed <? mines) eqn:Hlt; [|eauto].
    apply Z.ltb_lt in Hlt.
    pose proof (floorMul_range x rows Hrows) as Hr.
    pose proof (floorMul_range y cols Hcols) as Hc.
    destruct (proj1 (wfBoard_getCell rows cols b (floorMul x rows) (floorMul y cols) Hwf))
      as [cell Hget]; [apply inBoard_spec; lia|].
    rewrite Hget.
    destruct (wfBoard_pos _ _ _ _ _ _ Hwf Hget) as [Hrow Hcol].
    assert (Hfc : isFree zone cell =
                  negb (isMine cell)
                  && negb (isExcludedAt zone (floorMul x rows) (floorMul y cols))).
    { unfold isFree, inZone. by rewrite Hrow, Hcol. }
    rewrite <- Hfc.
    destruct (isFree zone cell) eqn:Hf.
    + apply IH.
      * by apply wfBoard_updCell.
      * rewrite (countCells_updCell _ _ _ _ _ _ Hget). unfold indicator.
        rewrite Hf. change (isFree zone (setMine true cell)) with false.
        cbv iota. lia.
      * intros r c cell' Hget' Hf'. rewrite getCell_updCell in Hget'.
        destruct (decide (r = floorMul x rows ∧ c = floorMul y cols)) as [[-> ->]|Hne].
        -- rewrite Hget in Hget'. injection Hget' as <-. discriminate.
        -- specialize (Hcover _ _ _ Hget' Hf'). rewrite fmap_cons in Hcover.
           apply elem_of_cons in Hcover as [Heq|?]; [|done].
           unfold drawnCell in Heq. simpl in Heq. injection Heq as -> ->. tauto.
    + apply IH; [done|done|].
      intros r c cell' Hget' Hf'.
      specialize (Hcover _ _ _ Hget' Hf'). rewrite fmap_cons in Hcover.
      apply elem_of_cons in Hcover as [Heq|?]; [|done].
      unfold drawnCell in Heq. simpl in Heq. injection Heq as -> ->. congruence.
Qed.

Lemma sumZ_plus {A} (w1 w2 : A → Z) (l : list A) :
  sumZ (λ x, w1 x + w2 x) l = sumZ w1 l + sumZ w2 l.
Proof. induction l as [|x l IH]; simpl; [reflexivity | rewrite IH; lia]. Qed.

Lemma countCells_or_le P Q b :
  countCells (λ cell, P cell || Q cell) b ≤ countCells P b + countCells Q b.
Proof.
  unfold countCells. rewrite <- sumZ_plus. apply sumZ_le. intros cells _.
  rewrite <- sumZ_plus. apply sumZ_le. intros cell _. unfold indicator.
  destruct (P cell), (Q cell); simpl; lia.
Qed.

Lemma countCells_ext P Q b :
  (∀ cell, P cell = Q cell) → countCells P b = countCells Q b.
Proof.
  intros H. unfold countCells. apply sumZ_ext. intros cells _.
  apply sumZ_ext. intros cell _. unfold indicator. by rewrite H.
Qed.

(** At most one cell of a board sits at a given position. *)
Lemma countCells_isAt rows cols b p :
  wfBoard rows cols b → countCells (isAt p) b ≤ 1.
Proof.
  intros Hwf. destruct p as [pr pc].
  destruct (getCell b pr pc) as [cell|] eqn:Hget.
  - pose (f := λ cell : Cell, mkCell (-1) (col cell) (isMine cell) (isRevealed cell)
                                (isFlagged cell) (adjacentMines cell)).
    assert (H0 : countCells (isAt (pr, pc)) (updCell f pr pc b) = 0).
    { apply countCells_zero. intros r c cell'. rewrite getCell_updCell.
      destruct (decide (r = pr ∧ c = pc)) as [[-> ->]|Hne].
      - rewrite Hget. intros [= <-]. unfold isAt, f. simpl.
        apply getCell_Some_nonneg in Hget.
        destruct (Z.eqb_spec pr (-1)); [lia|done].
      - intros Hget'. destruct (wfBoard_pos _ _ _ _ _ _ Hwf Hget') as [Hr' Hc'].
        unfold isAt. simpl.
        destruct (Z.eqb_spec pr (row cell')), (Z.eqb_spec pc (col cell')); try done.
        exfalso. apply Hne. split; congruence. }
    rewrite (countCells_updCell _ _ _ _ _ _ Hget) in H0.
    pose proof (indicator_range (isAt (pr, pc)) cell).
    pose proof (indicator_range (isAt (pr, pc)) (f cell)). lia.
  - rewrite countCells_zero; [lia|].
    intros r c cell Hget'. destruct (wfBoard_pos _ _ _ _ _ _ Hwf Hget') as [Hr' Hc'].
    unfold isAt. simpl.
    destruct (Z.eqb_spec pr (row cell)), (Z.eqb_spec pc (col cell)); try done.
    congruence.
Qed.

Lemma countCells_inZone rows cols b zone :
  wfBoard rows cols b → countCells (inZone zone) b ≤ Z.of_nat (length zone).
Proof.
  intros Hwf. induction zone as [|p zone IH].
  - rewrite countCells_zero; [simpl; lia|]. done.
  - rewrite (countCells_ext _ (λ cell, isAt p cell || inZone zone cell)) by done.
    pose proof (countCells_or_le (isAt p) (inZone zone) b).
    pose proof (countCells_isAt _ _ _ p Hwf). simpl length. lia.
Qed.

Lemma isExcludedAt_elem zone r c : isExcludedAt zone r c = true ↔ (r, c) ∈ zone.
Proof.
  unfold isExcludedAt. rewrite existsb_exists. split.
  - intros ([pr pc] & Hin & Heq). simpl in Heq.
    apply andb_true_iff in Heq as [->%Z.eqb_eq ->%Z.eqb_eq].
    by apply list_elem_of_In.
  - intros Hin. exists (r, c). split; [by apply list_elem_of_In|].
    simpl. by rewrite !Z.eqb_refl.
Qed.

Lemma length_excludeZone rows cols b er ec :
  (length (excludeZone rows cols b er ec) ≤ 9)%nat.
Proof.
  unfold excludeZone. rewrite length_app, length_fmap. simpl.
  pose proof (getAdjacentCells_length rows cols b er ec). lia.
Qed.

(** On the board, the zone is the 3 x 3 block around the excluded cell. *)
Lemma isExcludedAt_excludeZone rows cols b er ec r c :
  wfBoard rows cols b → inBoard rows cols r c = true →
  isExcludedAt (excludeZone rows cols b er ec) r c = true ↔
  er - 1 ≤ r ≤ er + 1 ∧ ec - 1 ≤ c ≤ ec + 1.
Proof.
  intros Hwf Hin. rewrite isExcludedAt_elem. unfold excludeZone.
  rewrite elem_of_app, list_elem_of_fmap, list_elem_of_singleton. split.
  - intros [(cell & Heq & Hcell)|[= -> ->]]; [|lia].
    apply elem_of_getAdjacentCells in Hcell as (r' & c' & Hadj & _ & Hget).
    destruct (wfBoard_pos _ _ _ _ _ _ Hwf Hget) as [Hr Hc].
    injection Heq as -> ->. rewrite Hr, Hc. unfold adjacent in Hadj. lia.
  - intros [Hr Hc].
    destruct (decide (r = er ∧ c = ec)) as [[-> ->]|Hne]; [by right|left].
    destruct (proj1 (wfBoard_getCell _ _ _ _ _ Hwf) Hin) as [cell Hget].
    destruct (wfBoard_pos _ _ _ _ _ _ Hwf Hget) as [Hr' Hc'].
    exists cell. split; [by rewrite Hr', Hc'|].
    apply elem_of_getAdjacentCells. exists r, c. unfold adjacent. tauto.
Qed.

Lemma countCells_isFree rows cols b zone :
  wfBoard rows cols b → countCells isMine b = 0 →
  rows * cols - Z.of_nat (length zone) ≤ countCells (isFree zone) b.
Proof.
  intros Hwf Hm.
  pose proof (countCells_split (isFree zone) b rows cols Hwf) as Hsplit.
  rewrite (countCells_ext (λ cell, negb (isFree zone cell))
             (λ cell, isMine cell || inZone zone cell)) in Hsplit.
  - pose proof (countCells_or_le isMine (inZone zone) b).
    pose proof (countCells_inZone _ _ _ zone Hwf). lia.
  - intros cell. unfold isFree. by destruct (isMine cell), (inZone zone cell).
Qed.

Lemma coveringDraws_cover rows cols r c :
  inBoard rows cols r c = true →
  (r, c) ∈ drawnCell rows cols <$> coveringDraws rows cols.
Proof.
  intros Hin. apply inBoard_spec in Hin as [Hr Hc].
  apply list_elem_of_fmap.
  exists (mkRand r (Z.to_pos rows), mkRand c (Z.to_pos cols)). split.
  - unfold drawnCell, floorMul. simpl. rewrite !Z2Pos.id by lia.
    rewrite !Z.mod_small by lia. by rewrite !Z.div_mul by lia.
  - unfold coveringDraws. apply list_elem_of_bind. exists r.
    split; [|apply elem_of_seqZ; lia].
    apply list_elem_of_bind. exists c.
    split; [apply list_elem_of_singleton; reflexivity|apply elem_of_seqZ; lia].
Qed.

Lemma wfBoard_initBoard rows cols :
  0 ≤ rows → 0 ≤ cols → wfBoard rows cols (initBoard rows cols).
Proof.
  intros Hrows Hcols. unfold initBoard.
  split; [done|]. split; [done|]. split; [|split].
  - by rewrite length_fmap, length_seqZ.
  - intros i cells Hi. rewrite list_lookup_fmap in Hi.
    destruct (seqZ 0 rows !! i); simpl in Hi; [|discriminate].
    injection Hi as <-. by rewrite length_fmap, length_seqZ.
  - intros r c cell Hget.
    apply getCell_lookup in Hget as (Hr & Hc & cells & Hb & Hcell).
    rewrite list_lookup_fmap in Hb.
    destruct (seqZ 0 rows !! Z.to_nat r) as [r'|] eqn:Hr'; simpl in Hb; [|discriminate].
    injection Hb as <-. rewrite list_lookup_fmap in Hcell.
    destruct (seqZ 0 cols !! Z.to_nat c) as [c'|] eqn:Hc'; simpl in Hcell; [|discriminate].
    injection Hcell as <-. simpl.
    apply lookup_seqZ in Hr' as [-> _]. apply lookup_seqZ in Hc' as [-> _]. lia.
Qed.

Lemma getCell_initBoard rows cols r c cell :
  getCell (initBoard rows cols) r c = Some cell →
  cell = mkCell r c false false false 0.
Proof.
  intros Hget.
  apply getCell_lookup in Hget as (Hr & Hc & cells & Hb & Hcell).
  unfold initBoard in Hb. rewrite list_lookup_fmap in Hb.
  destruct (seqZ 0 rows !! Z.to_nat r) as [r'|] eqn:Hr'; simpl in Hb; [|discriminate].
  injection Hb as <-. rewrite list_lookup_fmap in Hcell.
  destruct (seqZ 0 cols !! Z.to_nat c) as [c'|] eqn:Hc'; simpl in Hcell; [|discriminate].
  injection Hcell as <-.
  apply lookup_seqZ in Hr' as [-> _]. apply lookup_seqZ in Hc' as [-> _].
  f_equal; lia.
Qed.

Lemma adjacentMinesBody_wf rows cols b r c :
  wfBoard rows cols b → wfBoard rows cols (adjacentMinesBody rows cols b r c).
Proof.
  intros Hwf. unfold adjacentMinesBody.
  destruct (getCell b r c) as [cell|]; [|done].
  destruct (isMine cell); simpl; [done|]. by apply wfBoard_updCell.
Qed.

Lemma adjacentMinesBody_count P rows cols b r c :
  (∀ v cell, P (setAdjacentMines v cell) = P cell) →
  countCells P (adjacentMinesBody rows cols b r c) = countCells P b.
Proof.
  intros HP. unfold adjacentMinesBody.
  destruct (getCell b r c) as [cell|] eqn:Hget; [|done].
  destruct (isMine cell); simpl; [done|].
  rewrite (countCells_updCell _ _ _ _ _ _ Hget). unfold indicator.
  rewrite HP. lia.
Qed.

Lemma calculateAdjacentMines_wf rows cols b :
  wfBoard rows cols b → wfBoard rows cols (calculateAdjacentMines rows cols b).
Proof.
  intros Hwf. unfold calculateAdjacentMines.
  apply (foldl_invariant _ (λ _ b', wfBoard rows cols b')); [done|].
  intros _ r b1 H1.
  apply (foldl_invariant _ (λ _ b', wfBoard rows cols b')); [done|].
  intros _ c b2 H2. by apply adjacentMinesBody_wf.
Qed.

Lemma calculateAdjacentMines_count P rows cols b :
  (∀ v cell, P (setAdjacentMines v cell) = P cell) →
  countCells P (calculateAdjacentMines rows cols b) = countCells P b.
Proof.
  intros HP. unfold calculateAdjacentMines.
  apply (foldl_invariant _ (λ _ b', countCells P b' = countCells P b)); [done|].
  intros _ r b1 H1.
  apply (foldl_invariant _ (λ _ b', countCells P b' = countCells P b)); [done|].
  intros _ c b2 H2. by rewrite adjacentMinesBody_count.
Qed.

(** What [placeMines] leaves on a board that had no mines: [mines] mines,
    none in the 3 x 3 block around the excluded cell, and the counts. *)
Lemma placeMinesBoard_spec rows cols mines draws er ec b b' :
  0 ≤ mines → wfBoard rows cols b → countCells isMine b = 0 →
  placeMinesBoard rows cols mines draws er ec b = Done b' →
  wfBoard rows cols b' ∧
  countCells isMine b' = mines ∧
  (∀ r c cell', getCell b' r c = Some cell' →
     ∃ cell, getCell b r c = Some cell ∧
       isRevealed cell' = isRevealed cell ∧ isFlagged cell' = isFlagged cell ∧
       (isMine cell' = true → ¬ (er - 1 ≤ r ≤ er + 1 ∧ ec - 1 ≤ c ≤ ec + 1))) ∧
  (∀ r c cell, getCell b' r c = Some cell → isMine cell = false →
     adjacentMines cell = mooreMineCount rows cols b' r c).
Proof.
  intros Hmines Hwf Hnone. unfold placeMinesBoard.
  destruct (placeMinesLoop rows cols mines (excludeZone rows cols b er ec) draws 0 b)
    as [b1| |] eqn:Hloop; simpl; try discriminate.
  intros [= <-].
  apply placeMinesLoop_spec in Hloop as (Hwf1 & Hcnt & Hadd); [|done|lia].
  destruct (calculateAdjacentMines_spec rows cols b1) as [Hsame Hadj].
  pose proof (calculateAdjacentMines_wf _ _ _ Hwf1) as Hwf'.
  split; [done|]. split; [|split].
  - rewrite calculateAdjacentMines_count by done. lia.
  - intros r c cell' Hget'.
    pose proof (Hsame r c) as Hs. rewrite Hget' in Hs.
    destruct (getCell b1 r c) as [cell1|] eqn:Hget1; simpl in Hs; [|discriminate].
    assert (Hs' : eraseAdj cell' = eraseAdj cell1) by congruence.
    apply eraseAdj_eq in Hs' as (_ & _ & Hm1 & Hr1 & Hf1).
    assert (Hmine0 : ∀ cell, getCell b r c = Some cell → isMine cell = false)
      by (intros cell; by apply countCells_zero_inv).
    destruct (Hadd r c) as [Heq|(cell & Hget & Hm & Hz & Hget1')].
    + rewrite Hget1 in Heq. exists cell1. split; [done|]. split; [done|].
      split; [done|]. intros Hm'. rewrite Hm1, (Hmine0 _ (eq_sym Heq)) in Hm'.
      discriminate.
    + rewrite Hget1 in Hget1'. injection Hget1' as ->.
      exists cell. split; [done|]. split; [done|]. split; [done|].
      intros _ Hblock.
      apply (isExcludedAt_excludeZone rows cols b er ec r c Hwf) in Hblock;
        [congruence|].
      eapply wfBoard_inBoard; eauto.
  - intros r c cell Hget Hm. apply Hadj; try done.
    + pose proof (wfBoard_inBoard _ _ _ _ _ _ Hwf' Hget) as Hin.
      apply inBoard_spec in Hin. lia.
    + pose proof (wfBoard_inBoard _ _ _ _ _ _ Hwf' Hget) as Hin.
      apply inBoard_spec in Hin. lia.
Qed.

(** [placeMines] returns when the random numbers reach every cell of the
    board and the board has room for the mines outside the zone. *)
Lemma placeMinesBoard_terminates rows cols mines draws er ec b :
  0 < rows → 0 < cols → mines < rows * cols - 9 →
  wfBoard rows cols b → countCells isMine b = 0 →
  (∀ r c, inBoard rows cols r c = true → (r, c) ∈ drawnCell rows cols <$> draws) →
  ∃ b', placeMinesBoard rows cols mines draws er ec b = Done b'.
Proof.
  intros Hrows Hcols Hmines Hwf Hnone Hcover.
  destruct (placeMinesLoop_terminates rows cols mines
              (excludeZone rows cols b er ec) draws Hrows Hcols 0 b Hwf)
    as [b1 Hb1].
  - pose proof (countCells_isFree _ _ _ (excludeZone rows cols b er ec) Hwf Hnone).
    pose proof (length_excludeZone rows cols b er ec). lia.
  - intros r c cell Hget _. apply Hcover. eapply wfBoard_inBoard; eauto.
  - unfold placeMinesBoard. rewrite Hb1. simpl. eauto.
Qed.

(** * The handlers, written out *)

Lemma scheduleReveals_eq adjacent : ∀ index g,
  scheduleReveals index adjacent g =
  mkGame (board g) (rows g) (cols g) (mines g) (minesLeft g) (isGameOver g)
    (isFirstClick g) (timer g) (timerInterval g) (revealedCount g)
    (totalNonMines g) (face g) (boardGen g) (now g)
    (nextTimerId g + length adjacent)
    (timers g ++ revealEntries (nextTimerId g) (now g) index adjacent).
Proof.
  induction adjacent as [|adjCell rest IH]; intros index g; simpl.
  - rewrite Nat.add_0_r, app_nil_r. by destruct g.
  - rewrite IH. simpl. rewrite <- app_assoc. simpl. f_equal. lia.
Qed.

Lemma gameOver_loop_eq cells : ∀ delay g,
  snd (foldl (λ '(delay, g) cell,
                if isMine cell
                then (delay + 50,
                      setTimeout (TShowMine (boardGen g) (row cell) (col cell)) delay g)
                else (delay, g))
             (delay, g) cells) =
  mkGame (board g) (rows g) (cols g) (mines g) (minesLeft g) (isGameOver g)
    (isFirstClick g) (timer g) (timerInterval g) (revealedCount g)
    (totalNonMines g) (face g) (boardGen g) (now g)
    (nextTimerId g + length (mineEntries (boardGen g) (nextTimerId g) (now g) delay cells))
    (timers g ++ mineEntries (boardGen g) (nextTimerId g) (now g) delay cells).
Proof.
  induction cells as [|cell rest IH]; intros delay g; simpl.
  - rewrite Nat.add_0_r, app_nil_r. by destruct g.
  - destruct (isMine cell); [|apply IH].
    rewrite IH. simpl. rewrite <- app_assoc. simpl. f_equal. lia.
Qed.

Lemma revealEntries_length adjacent : ∀ id now index,
  length (revealEntries id now index adjacent) = length adjacent.
Proof.
  induction adjacent as [|adjCell rest IH]; intros id now index; simpl; [done|].
  by rewrite IH.
Qed.

Lemma revealEntries_fresh adjacent : ∀ id now index,
  freshTimeouts id (revealEntries id now index adjacent).
Proof.
  induction adjacent as [|adjCell rest IH]; intros id now index; simpl.
  - split; [done|]. intros e He. by apply elem_of_nil in He.
  - destruct (IH (S id) now (index + 1)) as [Hids Hcb]. split.
    + rewrite fmap_cons, Hids. reflexivity.
    + intros e He. apply elem_of_cons in He as [->|He]; [done|by apply Hcb].
Qed.

Lemma mineEntries_fresh gen cells : ∀ id now delay,
  freshTimeouts id (mineEntries gen id now delay cells).
Proof.
  induction cells as [|cell rest IH]; intros id now delay; simpl.
  - split; [done|]. intros e He. by apply elem_of_nil in He.
  - destruct (isMine cell); [|apply IH].
    destruct (IH (S id) now (delay + 50)) as [Hids Hcb]. split.
    + rewrite fmap_cons, Hids. reflexivity.
    + intros e He. apply elem_of_cons in He as [->|He]; [done|by apply Hcb].
Qed.

(** * The timer fields *)

Lemma TimerInv_same g g' :
  TimerInv g →
  timer g' = timer g → timerInterval g' = timerInterval g →
  isFirstClick g' = isFirstClick g → isGameOver g' = isGameOver g →
  nextTimerId g' = nextTimerId g → timers g' = timers g →
  TimerInv g'.
Proof.
  intros [] H1 H2 H3 H4 H5 H6.
  constructor; rewrite ?H1, ?H2, ?H3, ?H4, ?H5, ?H6; assumption.
Qed.

Lemma freshTimeouts_ids id new e :
  freshTimeouts id new → e ∈ new → (id ≤ tid e < id + length new)%nat.
Proof.
  intros [Hids _] He.
  assert (H : tid e ∈ tid <$> new) by (by apply list_elem_of_fmap_2).
  rewrite Hids in H. by apply elem_of_seq in H.
Qed.

(** Setting timeouts keeps the invariant. *)
Lemma TimerInv_append g g' new :
  TimerInv g →
  timer g' = timer g → timerInterval g' = timerInterval g →
  isFirstClick g' = isFirstClick g → isGameOver g' = isGameOver g →
  nextTimerId g' = (nextTimerId g + length new)%nat →
  timers g' = timers g ++ new →
  freshTimeouts (nextTimerId g) new →
  TimerInv g'.
Proof.
  intros [] H1 H2 H3 H4 H5 H6 Hfresh.
  constructor; rewrite ?H1, ?H2, ?H3, ?H4, ?H5, ?H6; try assumption.
  - lia.
  - intros e He. apply elem_of_app in He as [He|He].
    + specialize (ti_ids0 e He). lia.
    + pose proof (freshTimeouts_ids _ _ _ Hfresh He). lia.
  - rewrite fmap_app. apply list.NoDup_app. split; [done|]. split.
    + intros x Hx Hx'. destruct Hfresh as [Hids _]. rewrite Hids in Hx'.
      apply elem_of_seq in Hx'. apply list_elem_of_fmap in Hx as (e & -> & He).
      specialize (ti_ids0 e He). lia.
    + destruct Hfresh as [-> _]. apply NoDup_seq.
  - intros id Hid. destruct (ti_interval0 id Hid) as [Hlt (e & He & Heq)].
    split; [lia|]. exists e. split; [apply elem_of_app; by left|done].
  - intros e He. apply elem_of_app in He as [He|He]; [by apply ti_tick0|].
    pose proof (freshTimeouts_ids _ _ _ Hfresh He) as Hid.
    destruct Hfresh as [_ Hcb]. destruct (Hcb e He) as [_ Hne].
    split; [done|]. intros Hint. apply ti_interval0 in Hint. lia.
  - intros e He. apply elem_of_app in He as [He|He]; [by apply ti_period0|].
    right. destruct Hfresh as [_ Hcb]. by apply Hcb.
Qed.

(** Replacing the queue by timers with the same ids, callbacks and periods,
    among them every interval. *)
Lemma TimerInv_timers g g' :
  TimerInv g →
  timer g' = timer g → timerInterval g' = timerInterval g →
  isFirstClick g' = isFirstClick g → isGameOver g' = isGameOver g →
  nextTimerId g' = nextTimerId g →
  NoDup (tid <$> timers g') →
  (∀ e, e ∈ timers g' → ∃ e0, e0 ∈ timers g ∧ tid e = tid e0 ∧
                               callback e = callback e0 ∧ period e = period e0) →
  (∀ e0, e0 ∈ timers g → callback e0 = TTick →
         ∃ e, e ∈ timers g' ∧ tid e = tid e0) →
  TimerInv g'.
Proof.
  intros [] H1 H2 H3 H4 H5 Hnd Hsub Hticks.
  constructor; rewrite ?H1, ?H2, ?H3, ?H4, ?H5; try assumption.
  - intros e He. destruct (Hsub e He) as (e0 & He0 & -> & _). by apply ti_ids0.
  - intros id Hid. destruct (ti_interval0 id Hid) as [Hlt (e0 & He0 & Heq)].
    split; [done|].
    destruct (Hticks e0) as (e & He & Htid); [done| |].
    + apply ti_tick0; [done|]. by rewrite Heq.
    + exists e. split; [done|]. congruence.
  - intros e He. destruct (Hsub e He) as (e0 & He0 & -> & -> & _).
    by apply ti_tick0.
  - intros e He. destruct (Hsub e He) as (e0 & He0 & _ & -> & ->).
    by apply ti_period0.
Qed.

Lemma stopTimer_cases g :
  TimerInv g →
  (timerInterval g = None ∧ stopTimer g = g) ∨
  (∃ id, timerInterval g = Some id ∧
         stopTimer g = set_timerInterval None (set_timers (clearInterval id (timers g)) g)).
Proof.
  intros Hinv. unfold stopTimer.
  destruct (timerInterval g) as [id|] eqn:Hid; [right|by left].
  destruct (ti_interval g Hinv id Hid) as [Hlt _].
  destruct (Nat.eqb_spec id 0); [lia|]. eauto.
Qed.

(** [stopTimer] leaves no interval; the timeouts stay. *)
Lemma stopTimer_timers g e :
  TimerInv g →
  e ∈ timers (stopTimer g) ↔ e ∈ timers g ∧ callback e ≠ TTick.
Proof.
  intros Hinv. destruct (stopTimer_cases g Hinv) as [[Hn ->]|(id & Hid & ->)].
  - split; [|tauto]. intros He. split; [done|].
    intros Hcb. apply (ti_tick g Hinv e He) in Hcb. congruence.
  - simpl. unfold clearInterval. rewrite list_elem_of_filter. split.
    + intros [Hne He]. split; [done|]. intros Hcb.
      apply (ti_tick g Hinv e He) in Hcb. congruence.
    + intros [He Hcb]. split; [|done]. intros Heq. apply Hcb.
      apply (ti_tick g Hinv e He). by rewrite Heq.
Qed.

Lemma stopTimer_interval g : TimerInv g → timerInterval (stopTimer g) = None.
Proof.
  intros Hinv. by destruct (stopTimer_cases g Hinv) as [[Hn ->]|(id & Hid & ->)].
Qed.

Lemma stopTimer_fields g :
  board (stopTimer g) = board g ∧ rows (stopTimer g) = rows g ∧
  cols (stopTimer g) = cols g ∧ mines (stopTimer g) = mines g ∧
  minesLeft (stopTimer g) = minesLeft g ∧ isGameOver (stopTimer g) = isGameOver g ∧
  isFirstClick (stopTimer g) = isFirstClick g ∧ timer (stopTimer g) = timer g ∧
  revealedCount (stopTimer g) = revealedCount g ∧
  totalNonMines (stopTimer g) = totalNonMines g ∧ face (stopTimer g) = face g ∧
  boardGen (stopTimer g) = boardGen g ∧ now (stopTimer g) = now g ∧
  nextTimerId (stopTimer g) = nextTimerId g.
Proof.
  unfold stopTimer. destruct (timerInterval g) as [id|]; [|done].
  by destruct (Nat.eqb id 0).
Qed.

Lemma stopTimer_nodup g :
  NoDup (tid <$> timers g) → NoDup (tid <$> timers (stopTimer g)).
Proof.
  intros Hnd. unfold stopTimer. destruct (timerInterval g) as [id|]; [|done].
  destruct (Nat.eqb id 0); [done|]. simpl.
  eapply sublist_NoDup; [exact Hnd|]. apply fmap_sublist.
  unfold clearInterval. apply sublist_filter.
Qed.

(** The invariant after [stopTimer], in a state that is over or not begun. *)
Lemma TimerInv_stopped g g' :
  TimerInv g →
  0 ≤ timer g' ≤ 999 → (isFirstClick g' = true → timer g' = 0) →
  timerInterval g' = None →
  isFirstClick g' = true ∨ isGameOver g' = true →
  nextTimerId g' = nextTimerId g → timers g' = timers (stopTimer g) →
  TimerInv g'.
Proof.
  intros Hinv H1 H0 H2 H3 H5 H6.
  constructor; rewrite ?H2, ?H5, ?H6; try done.
  - by apply (ti_next g).
  - intros e He. apply (stopTimer_timers g e Hinv) in He as [He _].
    by apply (ti_ids g).
  - apply stopTimer_nodup, (ti_nodup g Hinv).
  - intros e He. apply (stopTimer_timers g e Hinv) in He as [He Hcb]. done.
  - intros e He. apply (stopTimer_timers g e Hinv) in He as [He Hcb].
    destruct (ti_period g Hinv e He) as [[_ ?]|?]; [done|by right].
  - intros Hf Ho. destruct H3; congruence.
Qed.

Lemma TimerInv_newGame g : TimerInv g → TimerInv (newGame g).
Proof.
  intros Hinv. apply (TimerInv_stopped g _ Hinv).
  - unfold newGame. simpl. lia.
  - done.
  - unfold newGame. simpl. by apply stopTimer_interval.
  - by left.
  - unfold newGame. simpl. apply stopTimer_fields.
  - reflexivity.
Qed.

Lemma TimerInv_setDifficulty d g : TimerInv g → TimerInv (setDifficulty d g).
Proof.
  intros Hinv. unfold setDifficulty. destruct (difficulties d) as [[r c] m].
  apply TimerInv_newGame. by apply (TimerInv_same g).
Qed.

Lemma stopTimer_set_isGameOver v g :
  stopTimer (set_isGameOver v g) = set_isGameOver v (stopTimer g).
Proof.
  unfold stopTimer. simpl. destruct (timerInterval g) as [id|]; [|done].
  by destruct (Nat.eqb id 0).
Qed.

Lemma TimerInv_win g : TimerInv g → TimerInv (win g).
Proof.
  intros Hinv. unfold win. rewrite stopTimer_set_isGameOver.
  pose proof (stopTimer_fields g) as (_&_&_&_&_&_&Hfirst&Htimer&_&_&_&_&_&Hnext).
  apply (TimerInv_stopped g _ Hinv).
  - simpl. rewrite Htimer. apply (ti_timer g Hinv).
  - simpl. rewrite Htimer, Hfirst. apply (ti_zero g Hinv).
  - simpl. by apply stopTimer_interval.
  - by right.
  - simpl. by rewrite Hnext.
  - reflexivity.
Qed.

Lemma gameOver_eq hitRow hitCol g :
  gameOver hitRow hitCol g =
  let g1 := set_face FaceDead (set_isGameOver true (stopTimer g)) in
  mkGame (board g1) (rows g1) (cols g1) (mines g1) (minesLeft g1) (isGameOver g1)
    (isFirstClick g1) (timer g1) (timerInterval g1) (revealedCount g1)
    (totalNonMines g1) (face g1) (boardGen g1) (now g1)
    (nextTimerId g1
     + length (mineEntries (boardGen g1) (nextTimerId g1) (now g1) 0 (allCells (board g1))))
    (timers g1 ++ mineEntries (boardGen g1) (nextTimerId g1) (now g1) 0
                    (allCells (board g1))).
Proof.
  unfold gameOver. by rewrite gameOver_loop_eq, stopTimer_set_isGameOver.
Qed.

Lemma TimerInv_gameOver hitRow hitCol g : TimerInv g → TimerInv (gameOver hitRow hitCol g).
Proof.
  intros Hinv. rewrite gameOver_eq. cbv zeta.
  pose proof (stopTimer_fields g) as (_&_&_&_&_&_&Hfirst&Htimer&_&_&_&_&_&Hnext).
  assert (Hinv1 : TimerInv (set_face FaceDead (set_isGameOver true (stopTimer g)))).
  { apply (TimerInv_stopped g _ Hinv).
    - simpl. rewrite Htimer. apply (ti_timer g Hinv).
    - simpl. rewrite Htimer, Hfirst. apply (ti_zero g Hinv).
    - simpl. by apply stopTimer_interval.
    - by right.
    - simpl. by rewrite Hnext.
    - reflexivity. }
  eapply (TimerInv_append _ _ _ Hinv1); try reflexivity.
  apply mineEntries_fresh.
Qed.

Lemma nextTimer_None l : nextTimer l = None → l = [].
Proof.
  destruct l as [|e l]; [done|]. simpl.
  destruct (nextTimer l) as [[e' rest']|]; [|done].
  by destruct (due e <=? due e').
Qed.

(** [nextTimer] takes a pending timer with the least deadline out of the
    queue. *)
Lemma nextTimer_Some l : ∀ e rest,
  nextTimer l = Some (e, rest) →
  l ≡ₚ e :: rest ∧ ∀ x, x ∈ rest → due e ≤ due x.
Proof.
  induction l as [|e0 l IH]; intros e rest; simpl; [done|].
  destruct (nextTimer l) as [[e' rest']|] eqn:Hn.
  - destruct (IH e' rest' eq_refl) as [Hperm Hmin].
    destruct (due e0 <=? due e') eqn:Hle; intros [= <- <-].
    + apply Z.leb_le in Hle. split; [done|].
      intros x Hx. rewrite Hperm in Hx.
      apply elem_of_cons in Hx as [->|Hx]; [done|]. specialize (Hmin x Hx). lia.
    + apply Z.leb_gt in Hle. split.
      * rewrite Hperm. apply Permutation_swap.
      * intros x Hx. apply elem_of_cons in Hx as [->|Hx]; [lia|by apply Hmin].
  - apply nextTimer_None in Hn as ->. intros [= <- <-]. split; [done|].
    intros x Hx. by apply elem_of_nil in Hx.
Qed.

Lemma tick_timer g : timer (tick g) = Z.min (timer g + 1) 999.
Proof.
  unfold tick. simpl. destruct (999 <? timer g + 1) eqn:Hlt; simpl.
  - apply Z.ltb_lt in Hlt. lia.
  - apply Z.ltb_ge in Hlt. lia.
Qed.

Lemma tick_fields g :
  timerInterval (tick g) = timerInterval g ∧ isFirstClick (tick g) = isFirstClick g ∧
  isGameOver (tick g) = isGameOver g ∧ nextTimerId (tick g) = nextTimerId g ∧
  timers (tick g) = timers g ∧ board (tick g) = board g ∧ face (tick g) = face g.
Proof. unfold tick. simpl. by destruct (999 <? timer g + 1). Qed.

Lemma TimerInv_tick g : TimerInv g → timerInterval g ≠ None → TimerInv (tick g).
Proof.
  intros Hinv Hrun. pose proof (ti_timer g Hinv) as Ht.
  pose proof (tick_timer g) as Htick.
  destruct (tick_fields g) as (H2 & H3 & H4 & H5 & H6 & _).
  destruct Hinv.
  constructor; rewrite ?H2, ?H3, ?H4, ?H5, ?H6; try done; [lia|].
  intros Hf. by apply ti_first0 in Hf.
Qed.

Lemma TimerInv_revealCell r c isChain g g' :
  TimerInv g → revealCell r c isChain g = Done g' → TimerInv g'.
Proof.
  intros Hinv. unfold revealCell.
  destruct (getCell (board g) r c) as [cell|]; [|discriminate].
  destruct (isRevealed cell || isFlagged cell); [by intros [= <-]|].
  set (g1 := set_revealedCount _ _).
  assert (Hinv1 : TimerInv g1) by (by apply (TimerInv_same g)).
  destruct (isMine cell); [intros [= <-]; by apply TimerInv_gameOver|].
  set (g2 := if adjacentMines cell =? 0 then _ else _).
  assert (Hinv2 : TimerInv g2).
  { subst g2. destruct (adjacentMines cell =? 0); [|done].
    rewrite scheduleReveals_eq.
    eapply (TimerInv_append _ _ (revealEntries _ _ _ _) Hinv1); try reflexivity.
    - simpl. by rewrite revealEntries_length.
    - apply revealEntries_fresh. }
  destruct (revealedCount g2 =? totalNonMines g2); intros [= <-];
    [by apply TimerInv_win|done].
Qed.

Lemma TimerInv_runTask t g :
  TimerInv g → (t = TTick → timerInterval g ≠ None) → TimerInv (runTask t g).
Proof.
  intros Hinv Hrun. destruct t as [r c|gen r c|]; simpl.
  - destruct (revealCell r c true g) as [g'| |] eqn:Hr; try done.
    by apply (TimerInv_revealCell _ _ _ _ _ Hinv Hr).
  - destruct (Nat.eqb gen (boardGen g)); [|done]. by apply (TimerInv_same g).
  - apply TimerInv_tick; auto.
Qed.

(** The queue after the next timer was taken out and, if it is an
    interval, armed again. *)
Lemma TimerInv_dequeue g e rest rest' t :
  TimerInv g → nextTimer (timers g) = Some (e, rest) →
  rest' = match period e with
          | Some p => rest ++ [mkTimer (tid e) (t + p) (Some p) (callback e)]
          | None => rest
          end →
  TimerInv (set_timers rest' (set_now t g)).
Proof.
  intros Hinv Hnext ->. apply nextTimer_Some in Hnext as [Hperm _].
  pose proof (ti_nodup g Hinv) as Hnd. rewrite Hperm, fmap_cons in Hnd.
  assert (Hin : ∀ x, x ∈ rest → x ∈ timers g).
  { intros x Hx. rewrite Hperm. by apply elem_of_cons; right. }
  assert (He : e ∈ timers g) by (rewrite Hperm; by apply elem_of_cons; left).
  apply (TimerInv_timers g); try reflexivity; try done; simpl.
  - destruct (period e) as [p|]; [|by apply list.NoDup_cons in Hnd as [_ ?]].
    rewrite fmap_app. simpl.
    by rewrite <- Permutation_cons_append.
  - intros x Hx. destruct (period e) as [p|] eqn:Hp; [|exists x; auto].
    apply elem_of_app in Hx as [Hx|Hx]; [exists x; auto|].
    apply list_elem_of_singleton in Hx as ->. exists e. by simpl.
  - intros e0 He0 Hcb. rewrite Hperm in He0.
    apply elem_of_cons in He0 as [->|He0].
    + destruct (ti_period g Hinv e He) as [[Hp _]|[_ ?]]; [|done].
      rewrite Hp. eexists. split; [apply elem_of_app; right; by constructor|done].
    + exists e0. split; [|done].
      destruct (period e); [apply elem_of_app; by left|done].
Qed.

Lemma TimerInv_fireNext g : TimerInv g → TimerInv (fireNext g).
Proof.
  intros Hinv. unfold fireNext.
  destruct (nextTimer (timers g)) as [[e rest]|] eqn:Hnext; [|done].
  apply TimerInv_runTask; [by eapply TimerInv_dequeue|].
  intros Hcb. simpl. apply nextTimer_Some in Hnext as [Hperm _].
  assert (He : e ∈ timers g) by (rewrite Hperm; by apply elem_of_cons; left).
  apply (ti_tick g Hinv e He) in Hcb. congruence.
Qed.

Lemma TimerInv_handleRightClick r c g g' :
  TimerInv g → handleRightClick r c g = Done g' → TimerInv g'.
Proof.
  intros Hinv. unfold handleRightClick.
  destruct (isGameOver g); [by intros [= <-]|].
  destruct (getCell (board g) r c) as [cell|]; [|discriminate].
  destruct (isRevealed cell); intros [= <-]; [done|].
  by apply (TimerInv_same g).
Qed.

Lemma TimerInv_startTimer g b :
  TimerInv g → isFirstClick g = true → isGameOver g = false →
  TimerInv (startTimer (set_board b (set_isFirstClick false g))).
Proof.
  intros Hinv Hfirst Hover. pose proof (ti_first g Hinv Hfirst) as Hnone.
  assert (Hticks : ∀ e, e ∈ timers g → callback e ≠ TTick).
  { intros e He Hcb. apply (ti_tick g Hinv e He) in Hcb. congruence. }
  destruct Hinv. constructor; simpl; try done.
  - lia.
  - intros e He. apply elem_of_app in He as [He|He].
    + specialize (ti_ids0 e He). lia.
    + apply list_elem_of_singleton in He as ->. simpl. lia.
  - rewrite fmap_app. apply list.NoDup_app. split; [done|]. split.
    + intros x Hx Hx'. apply list_elem_of_singleton in Hx'. simpl in Hx'.
      apply list_elem_of_fmap in Hx as (e & -> & He).
      specialize (ti_ids0 e He). lia.
    + apply NoDup_singleton.
  - intros id [= <-]. split; [lia|]. eexists.
    split; [apply elem_of_app; right; by constructor|done].
  - intros e He. apply elem_of_app in He as [He|He].
    + split; [by intros ?%Hticks|]. intros [= Heq].
      specialize (ti_ids0 e He). lia.
    + by apply list_elem_of_singleton in He as ->.
  - intros e He. apply elem_of_app in He as [He|He]; [by apply ti_period0|].
    apply list_elem_of_singleton in He as ->. by left.
  - congruence.
Qed.

Lemma TimerInv_handleClick draws r c g g' :
  TimerInv g → handleClick draws r c g = Done g' → TimerInv g'.
Proof.
  intros Hinv. unfold handleClick.
  destruct (isGameOver g) eqn:Hover; [by intros [= <-]|].
  destruct (getCell (board g) r c) as [cell|]; [|discriminate].
  destruct (isFlagged cell || isRevealed cell); [by intros [= <-]|].
  destruct (isFirstClick g) eqn:Hfirst; simpl.
  - unfold placeMines. simpl.
    destruct (placeMinesBoard _ _ _ _ _ _ _) as [b| |]; simpl; try discriminate.
    apply TimerInv_revealCell. by apply TimerInv_startTimer.
  - by apply TimerInv_revealCell.
Qed.

Lemma TimerInv_step g e g' : TimerInv g → step g e = Some g' → TimerInv g'.
Proof.
  intros Hinv. destruct e as [r c draws|r c| | | |d| |dt]; simpl.
  - destruct (handleClick draws r c g) as [g1| |] eqn:Hc; intros [= <-]; [|done].
    by apply (TimerInv_handleClick _ _ _ _ _ Hinv Hc).
  - destruct (handleRightClick r c g) as [g1| |] eqn:Hc; intros [= <-]; [|done].
    by apply (TimerInv_handleRightClick _ _ _ _ Hinv Hc).
  - intros [= <-]. unfold handleMouseDown.
    destruct (isGameOver g); [done|]. by apply (TimerInv_same g).
  - intros [= <-]. unfold handleMouseUp.
    destruct (isGameOver g); [done|]. by apply (TimerInv_same g).
  - intros [= <-]. by apply TimerInv_newGame.
  - intros [= <-]. by apply TimerInv_setDifficulty.
  - intros [= <-]. by apply TimerInv_fireNext.
  - intros [= <-]. by apply (TimerInv_same g).
Qed.

Lemma TimerInv_construct : TimerInv construct.
Proof.
  constructor; unfold construct, newGame, stopTimer; simpl;
    try done; try lia;
    try (intros e He; by apply elem_of_nil in He); try constructor.
Qed.

Lemma TimerInv_run evs : ∀ g g', TimerInv g → run g evs = Some g' → TimerInv g'.
Proof.
  induction evs as [|e evs IH]; intros g g' Hinv; simpl; [by intros [= <-]|].
  destruct (step g e) as [g1|] eqn:Hs; [|discriminate].
  apply IH. by apply (TimerInv_step _ _ _ Hinv Hs).
Qed.

Lemma TimerInv_reachable g : reachable g → TimerInv g.
Proof. intros [evs H]. exact (TimerInv_run evs _ _ TimerInv_construct H). Qed.

(** * The game invariant *)

Lemma keepsLayout_setRevealed v : keepsLayout (setRevealed v).
Proof. by intros cell. Qed.

Lemma keepsLayout_setFlagged v : keepsLayout (setFlagged v).
Proof. by intros cell. Qed.

Lemma getCell_updCell_Some f b r c r' c' cell :
  getCell (updCell f r c b) r' c' = Some cell →
  ∃ cell0, getCell b r' c' = Some cell0 ∧
           ((r' = r ∧ c' = c ∧ cell = f cell0) ∨ (¬ (r' = r ∧ c' = c) ∧ cell = cell0)).
Proof.
  rewrite getCell_updCell.
  destruct (decide (r' = r ∧ c' = c)) as [[-> ->]|Hne].
  - destruct (getCell b r c) as [cell0|]; simpl; [|discriminate].
    intros [= <-]. eauto 7.
  - intros H. eauto 7.
Qed.

Lemma getCell_updCell_Some_rev f b r c r' c' cell0 :
  getCell b r' c' = Some cell0 →
  ∃ cell, getCell (updCell f r c b) r' c' = Some cell ∧
          ((r' = r ∧ c' = c ∧ cell = f cell0) ∨ (¬ (r' = r ∧ c' = c) ∧ cell = cell0)).
Proof.
  intros H. rewrite getCell_updCell.
  destruct (decide (r' = r ∧ c' = c)) as [[-> ->]|Hne].
  - rewrite H. simpl. eauto 7.
  - eauto 7.
Qed.

Lemma sameMines_updCell f b r c : keepsLayout f → sameMines b (updCell f r c b).
Proof.
  intros Hf r' c'. rewrite getCell_updCell.
  destruct (decide (r' = r ∧ c' = c)) as [[-> ->]|Hne]; [|done].
  destruct (getCell b r c) as [cell|]; simpl; [|done].
  by destruct (Hf cell) as (_ & _ & -> & _).
Qed.

Lemma countCells_updCell_same P f b r c cell :
  getCell b r c = Some cell → P (f cell) = P cell →
  countCells P (updCell f r c b) = countCells P b.
Proof.
  intros Hget HP. rewrite (countCells_updCell _ _ _ _ _ _ Hget).
  unfold indicator. rewrite HP. lia.
Qed.

Lemma countCells_updCell_gain P f b r c cell :
  getCell b r c = Some cell → P cell = false → P (f cell) = true →
  countCells P (updCell f r c b) = countCells P b + 1.
Proof.
  intros Hget HP HP'. rewrite (countCells_updCell _ _ _ _ _ _ Hget).
  unfold indicator. rewrite HP, HP'. lia.
Qed.

Lemma mineShown_true b : mineShown b = true ↔ 0 < countCells isRevealedMine b.
Proof. unfold mineShown. apply Z.ltb_lt. Qed.

Lemma mineShown_false b : mineShown b = false ↔ countCells isRevealedMine b = 0.
Proof.
  unfold mineShown. rewrite Z.ltb_ge.
  pose proof (countCells_nonneg isRevealedMine b). lia.
Qed.

Lemma subset_nil {A} (l : list A) : (∀ x, x ∈ l → x ∈ @nil A) → l = [].
Proof.
  destruct l as [|x l]; [done|]. intros H.
  specialize (H x (list_elem_of_here _ _)). by apply elem_of_nil in H.
Qed.

(** Changes outside the board, with fewer pending timers. *)
Lemma GameInv_frame g g' :
  GameInv g →
  board g' = board g → rows g' = rows g → cols g' = cols g → mines g' = mines g →
  isGameOver g' = isGameOver g → isFirstClick g' = isFirstClick g →
  revealedCount g' = revealedCount g → totalNonMines g' = totalNonMines g →
  (isGameOver g = true → face g' = face g) → boardGen g' = boardGen g →
  (∀ e, e ∈ timers g' → ∃ e0, e0 ∈ timers g ∧ callback e = callback e0) →
  GameInv g'.
Proof.
  intros [] Hb Hr Hc Hm Ho Hf Hrc Ht Hface Hgen Hsub.
  unfold validConfig in *.
  constructor; unfold validConfig;
    rewrite ?Hb, ?Hr, ?Hc, ?Hm, ?Ho, ?Hf, ?Hrc, ?Ht, ?Hgen; try assumption.
  - intros Hfirst. destruct (gi_fresh0 Hfirst) as (H1 & H2 & H3).
    split; [done|]. split; [|done]. apply subset_nil. intros e He.
    destruct (Hsub e He) as (e0 & He0 & _). rewrite H2 in He0.
    by apply elem_of_nil in He0.
  - intros e r c He Hcb. destruct (Hsub e He) as (e0 & He0 & Heq).
    apply (gi_reveal0 e0); [done|congruence].
  - intros e gen r c He Hcb. destruct (Hsub e He) as (e0 & He0 & Heq).
    apply (gi_show0 e0); [done|congruence].
  - intros Hover Hshown. rewrite (Hface Hover). by apply gi_won0.
Qed.

Lemma elem_of_allCells b cell :
  cell ∈ allCells b ↔ ∃ r c, getCell b r c = Some cell.
Proof.
  unfold allCells. split.
  - induction b as [|cells b IH]; simpl; [by intros ?%elem_of_nil|].
    intros [Hc|Hc]%elem_of_app.
    + apply list_elem_of_lookup in Hc as [j Hj].
      exists 0, (Z.of_nat j). apply getCell_lookup.
      split; [lia|]. split; [lia|]. exists cells. by rewrite Nat2Z.id.
    + destruct (IH Hc) as (r & c & Hget).
      apply getCell_lookup in Hget as (Hr & Hc' & cells' & Hb & Hcell).
      exists (r + 1), c. apply getCell_lookup.
      split; [lia|]. split; [lia|]. exists cells'.
      replace (Z.to_nat (r + 1)) with (S (Z.to_nat r)) by lia. by split.
  - intros (r & c & Hget).
    apply getCell_lookup in Hget as (_ & _ & cells & Hb & Hcell).
    apply list_elem_of_lookup_2 in Hcell. apply list_elem_of_lookup_2 in Hb.
    clear -Hb Hcell.
    induction Hb as [|? ? ? ? IH]; simpl; apply elem_of_app; [by left|right; by apply IH].
Qed.

Lemma stopTimer_subset g e : e ∈ timers (stopTimer g) → e ∈ timers g.
Proof.
  unfold stopTimer. destruct (timerInterval g) as [id|]; [|done].
  destruct (Nat.eqb id 0); [done|]. simpl. unfold clearInterval.
  rewrite list_elem_of_filter. tauto.
Qed.

Lemma revealEntries_elem adjacent : ∀ id now index e,
  e ∈ revealEntries id now index adjacent →
  ∃ adjCell, adjCell ∈ adjacent ∧ callback e = TRevealCell (row adjCell) (col adjCell).
Proof.
  induction adjacent as [|x rest IH]; intros id now index e; simpl;
    [by intros ?%elem_of_nil|].
  intros [->|He]%elem_of_cons.
  - exists x. split; [by constructor|done].
  - destruct (IH _ _ _ _ He) as (y & Hy & Hcb). exists y. split; [by constructor|done].
Qed.

Lemma mineEntries_elem gen cells : ∀ id now delay e,
  e ∈ mineEntries gen id now delay cells →
  ∃ cell, cell ∈ cells ∧ isMine cell = true ∧
          callback e = TShowMine gen (row cell) (col cell).
Proof.
  induction cells as [|x rest IH]; intros id now delay e; simpl;
    [by intros ?%elem_of_nil|].
  destruct (isMine x) eqn:Hm.
  - intros [->|He]%elem_of_cons.
    + exists x. split; [by constructor|done].
    + destruct (IH _ _ _ _ He) as (y & Hy & Hcb). exists y.
      split; [by constructor|done].
  - intros He. destruct (IH _ _ _ _ He) as (y & Hy & Hcb). exists y.
    split; [by constructor|done].
Qed.

(** The layout part of the invariant survives a write that keeps the
    layout. *)
Lemma layout_updCell rows cols b f r c :
  keepsLayout f → wfBoard rows cols b →
  (∀ r c cell, getCell b r c = Some cell → isMine cell = false →
     adjacentMines cell = mooreMineCount rows cols b r c) →
  let b' := updCell f r c b in
  wfBoard rows cols b' ∧
  (∀ r c cell, getCell b' r c = Some cell → isMine cell = false →
     adjacentMines cell = mooreMineCount rows cols b' r c) ∧
  (∀ r c cell0, getCell b r c = Some cell0 →
     ∃ cell, getCell b' r c = Some cell ∧ isMine cell = isMine cell0).
Proof.
  intros Hf Hwf Hadj b'. split; [|split].
  - apply wfBoard_updCell; [|done]. intros cell. destruct (Hf cell). tauto.
  - intros r' c' cell Hget Hm.
    rewrite <- (mooreMineCount_sameMines rows cols b b') by (by apply sameMines_updCell).
    apply getCell_updCell_Some in Hget
      as (cell0 & Hget0 & [(-> & -> & ->)|[_ ->]]); [|by apply Hadj].
    destruct (Hf cell0) as (_ & _ & Hm0 & ->). apply Hadj; [done|congruence].
  - intros r' c' cell0 Hget0.
    destruct (getCell_updCell_Some_rev f b r c r' c' cell0 Hget0)
      as (cell & Hget & [(-> & -> & ->)|[_ ->]]); eexists; (split; [eassumption|]);
      [|done].
    by destruct (Hf cell0) as (_ & _ & -> & _).
Qed.

Lemma countCells_isSafe rows cols b :
  wfBoard rows cols b → countCells isSafe b = rows * cols - countCells isMine b.
Proof.
  intros Hwf. pose proof (countCells_split isMine b rows cols Hwf) as H.
  change (λ cell, negb (isMine cell)) with isSafe in H. lia.
Qed.

(** When all safe cells are revealed, no unrevealed safe cell is left. *)
Lemma all_safe_revealed rows cols b r c cell :
  wfBoard rows cols b →
  countCells isRevealedSafe b = rows * cols - countCells isMine b →
  getCell b r c = Some cell → isMine cell = false → isRevealed cell = true.
Proof.
  intros Hwf Hcnt Hget Hm. rewrite <- (countCells_isSafe _ _ _ Hwf) in Hcnt.
  assert (H : isRevealedSafe cell = true).
  { apply (countCells_eq_all isRevealedSafe isSafe b r c cell); try done.
    - intros _ _ cell' _. unfold isRevealedSafe, isSafe.
      by intros [_ ?]%andb_true_iff.
    - unfold isSafe. by rewrite Hm. }
  unfold isRevealedSafe in H. by apply andb_true_iff in H as [? _].
Qed.

(** Revealing a safe cell that was not revealed. *)
Lemma GameInv_reveal_safe g g' r c cell :
  GameInv g → isFirstClick g = false →
  getCell (board g) r c = Some cell → isRevealed cell = false → isMine cell = false →
  board g' = updCell (setRevealed true) r c (board g) →
  rows g' = rows g → cols g' = cols g → mines g' = mines g →
  totalNonMines g' = totalNonMines g → isFirstClick g' = isFirstClick g →
  boardGen g' = boardGen g → revealedCount g' = revealedCount g + 1 →
  (∀ e, e ∈ timers g' →
     e ∈ timers g ∨
     (adjacentMines cell = 0 ∧
      ∃ adj, adj ∈ getAdjacentCells (rows g) (cols g) (board g') r c ∧
             callback e = TRevealCell (row adj) (col adj))) →
  (isGameOver g' = true ∧ face g' = FaceCool ∧
   revealedCount g + 1 = totalNonMines g) ∨
  (isGameOver g' = isGameOver g ∧ face g' = face g ∧
   revealedCount g + 1 ≠ totalNonMines g) →
  GameInv g'.
Proof.
  intros Hinv Hnf Hget Hrev Hmine Hb Hr Hc Hm Ht Hf Hgen Hrc Htimers Hend.
  destruct (layout_updCell (rows g) (cols g) (board g) (setRevealed true) r c
              (keepsLayout_setRevealed true) (gi_wf g Hinv) (gi_adjacent g Hinv))
    as (Hwf' & Hadj' & Hkeep).
  rewrite <- Hb in Hwf', Hadj', Hkeep.
  assert (Hsafe : countCells isRevealedSafe (board g')
                  = countCells isRevealedSafe (board g) + 1).
  { rewrite Hb. apply (countCells_updCell_gain _ _ _ _ _ cell); try done.
    - unfold isRevealedSafe. by rewrite Hrev.
    - unfold isRevealedSafe. simpl. by rewrite Hmine. }
  assert (Hshown : mineShown (board g') = mineShown (board g)).
  { unfold mineShown. rewrite Hb.
    rewrite (countCells_updCell_same _ _ _ _ _ cell); try done.
    unfold isRevealedMine. simpl. by rewrite Hmine, !andb_false_r. }
  assert (Hmines : countCells isMine (board g') = countCells isMine (board g)).
  { rewrite Hb. by apply (countCells_updCell_same _ _ _ _ _ cell). }
  pose proof (gi_config g Hinv) as Hcfg. pose proof (gi_count g Hinv) as Hcnt.
  pose proof (gi_mines g Hinv) as Hmg. rewrite Hnf in Hmg.
  constructor; unfold validConfig in *; rewrite ?Hr, ?Hc, ?Hm, ?Ht, ?Hf, ?Hgen, ?Hrc;
    try assumption.
  - by rewrite Hmines, Hnf.
  - rewrite Hnf. discriminate.
  - intros e r' c' He Hcb. destruct (Htimers e He) as [He0|(Hz & adj & Hadj & Hcb')].
    + destruct (gi_reveal g Hinv e r' c' He0 Hcb) as (cell0 & Hget0 & Hm0).
      destruct (Hkeep _ _ _ Hget0) as (cell1 & Hget1 & Hm1).
      exists cell1. split; [done|congruence].
    + rewrite Hcb in Hcb'. injection Hcb' as -> ->.
      apply elem_of_getAdjacentCells in Hadj as (r' & c' & Hnb & Hin & Hgeta).
      destruct (wfBoard_pos _ _ _ _ _ _ Hwf' Hgeta) as [Hra Hca]. rewrite Hra, Hca.
      exists adj. split; [done|].
      assert (Hcentre : getCell (board g') r c = Some (setRevealed true cell)).
      { rewrite Hb. by apply getCell_updCell_eq. }
      apply (mooreMineCount_zero (rows g) (cols g) (board g') r c) with r' c';
        try done.
      rewrite <- (Hadj' r c _ Hcentre); done.
  - intros e gen r' c' He Hcb. destruct (Htimers e He) as [He0|(Hz & adj & Hadj & Hcb')];
      [|congruence].
    destruct (gi_show g Hinv e gen r' c' He0 Hcb) as (Hg & Hs & cell0 & Hget0 & Hm0).
    split; [done|]. split; [congruence|].
    destruct (Hkeep _ _ _ Hget0) as (cell1 & Hget1 & Hm1).
    exists cell1. split; [done|congruence].
  - rewrite Hsafe, Hshown, Hcnt. lia.
  - rewrite Hshown. intros Hs. pose proof (gi_lost g Hinv Hs).
    destruct Hend as [(-> & _)|(-> & _)]; done.
  - intros Hopen. destruct Hend as [(Ho & _)|(_ & _ & Hne)]; congruence.
  - rewrite Hshown. intros Hover Hs.
    destruct Hend as [(_ & Hface & Heq)|(Ho & Hface & Hne)]; [done|exfalso].
    rewrite Ho in Hover. destruct (gi_won g Hinv Hover Hs) as [_ Hall].
    rewrite Hs in Hcnt.
    assert (Hr1 : isRevealed cell = true); [|congruence].
    apply (all_safe_revealed (rows g) (cols g) (board g) r c cell);
      try done; [apply (gi_wf g Hinv)|]. lia.
Qed.

(** Revealing a mine that was not revealed, in a game that is not over. *)
Lemma GameInv_reveal_mine g g' r c cell :
  GameInv g → isFirstClick g = false → isGameOver g = false →
  getCell (board g) r c = Some cell → isRevealed cell = false → isMine cell = true →
  board g' = updCell (setRevealed true) r c (board g) →
  rows g' = rows g → cols g' = cols g → mines g' = mines g →
  totalNonMines g' = totalNonMines g → isFirstClick g' = isFirstClick g →
  boardGen g' = boardGen g → revealedCount g' = revealedCount g + 1 →
  isGameOver g' = true →
  (∀ e, e ∈ timers g' →
     e ∈ timers g ∨
     ∃ mine, mine ∈ allCells (board g') ∧ isMine mine = true ∧
             callback e = TShowMine (boardGen g) (row mine) (col mine)) →
  GameInv g'.
Proof.
  intros Hinv Hnf Hopen Hget Hrev Hmine Hb Hr Hc Hm Ht Hf Hgen Hrc Hover Htimers.
  destruct (layout_updCell (rows g) (cols g) (board g) (setRevealed true) r c
              (keepsLayout_setRevealed true) (gi_wf g Hinv) (gi_adjacent g Hinv))
    as (Hwf' & Hadj' & Hkeep).
  rewrite <- Hb in Hwf', Hadj', Hkeep.
  assert (Hnot : mineShown (board g) = false).
  { destruct (mineShown (board g)) eqn:Hs; [|done].
    pose proof (gi_lost g Hinv Hs). congruence. }
  assert (Hsafe : countCells isRevealedSafe (board g')
                  = countCells isRevealedSafe (board g)).
  { rewrite Hb. apply (countCells_updCell_same _ _ _ _ _ cell); try done.
    unfold isRevealedSafe. simpl. by rewrite Hmine, !andb_false_r. }
  assert (Hshown : mineShown (board g') = true).
  { apply mineShown_true. apply mineShown_false in Hnot. rewrite Hb.
    rewrite (countCells_updCell_gain _ _ _ _ _ cell Hget); [lia| |].
    - unfold isRevealedMine. by rewrite Hrev.
    - unfold isRevealedMine. simpl. by rewrite Hmine. }
  assert (Hmines : countCells isMine (board g') = countCells isMine (board g)).
  { rewrite Hb. by apply (countCells_updCell_same _ _ _ _ _ cell). }
  pose proof (gi_config g Hinv) as Hcfg. pose proof (gi_count g Hinv) as Hcnt.
  constructor; unfold validConfig in *; rewrite ?Hr, ?Hc, ?Hm, ?Ht, ?Hf, ?Hgen, ?Hrc;
    try assumption.
  - rewrite Hmines. apply (gi_mines g Hinv).
  - rewrite Hnf. discriminate.
  - intros e r' c' He Hcb. destruct (Htimers e He) as [He0|(mine & _ & _ & Hcb')];
      [|congruence].
    destruct (gi_reveal g Hinv e r' c' He0 Hcb) as (cell0 & Hget0 & Hm0).
    destruct (Hkeep _ _ _ Hget0) as (cell1 & Hget1 & Hm1).
    exists cell1. split; [done|congruence].
  - intros e gen r' c' He Hcb. split; [|split; [done|]].
    + destruct (Htimers e He) as [He0|(mine & _ & _ & Hcb')]; [|congruence].
      by destruct (gi_show g Hinv e gen r' c' He0 Hcb) as (Hg & _).
    + destruct (Htimers e He) as [He0|(mine & Hin & Hmm & Hcb')].
      * destruct (gi_show g Hinv e gen r' c' He0 Hcb) as (_ & _ & cell0 & Hget0 & Hm0).
        destruct (Hkeep _ _ _ Hget0) as (cell1 & Hget1 & Hm1).
        exists cell1. split; [done|congruence].
      * rewrite Hcb in Hcb'. injection Hcb' as -> -> ->.
        apply elem_of_allCells in Hin as (r' & c' & Hgetm).
        destruct (wfBoard_pos _ _ _ _ _ _ Hwf' Hgetm) as [Hra Hca].
        rewrite Hra, Hca. eauto.
  - rewrite Hsafe, Hshown, Hcnt, Hnot. lia.
  - intros _. exact Hover.
  - intros H. rewrite Hover in H. discriminate.
  - intros _ H. rewrite Hshown in H. discriminate.
Qed.

Lemma scheduleReveals_fields index adjacent g :
  let g' := scheduleReveals index adjacent g in
  board g' = board g ∧ rows g' = rows g ∧ cols g' = cols g ∧ mines g' = mines g ∧
  minesLeft g' = minesLeft g ∧ isGameOver g' = isGameOver g ∧
  isFirstClick g' = isFirstClick g ∧ timer g' = timer g ∧
  timerInterval g' = timerInterval g ∧ revealedCount g' = revealedCount g ∧
  totalNonMines g' = totalNonMines g ∧ face g' = face g ∧
  boardGen g' = boardGen g ∧ now g' = now g ∧
  timers g' = timers g ++ revealEntries (nextTimerId g) (now g) index adjacent.
Proof. rewrite scheduleReveals_eq. simpl. tauto. Qed.

Lemma win_fields g :
  let g' := win g in
  board g' = board g ∧ rows g' = rows g ∧ cols g' = cols g ∧ mines g' = mines g ∧
  minesLeft g' = minesLeft g ∧ isGameOver g' = true ∧
  isFirstClick g' = isFirstClick g ∧ timer g' = timer g ∧
  revealedCount g' = revealedCount g ∧
  totalNonMines g' = totalNonMines g ∧ face g' = FaceCool ∧
  boardGen g' = boardGen g ∧ now g' = now g ∧
  timers g' = timers (stopTimer g).
Proof.
  unfold win. rewrite stopTimer_set_isGameOver. simpl.
  pose proof (stopTimer_fields g). tauto.
Qed.

Lemma gameOver_fields hitRow hitCol g :
  let g' := gameOver hitRow hitCol g in
  board g' = board g ∧ rows g' = rows g ∧ cols g' = cols g ∧ mines g' = mines g ∧
  minesLeft g' = minesLeft g ∧ isGameOver g' = true ∧
  isFirstClick g' = isFirstClick g ∧ timer g' = timer g ∧
  revealedCount g' = revealedCount g ∧
  totalNonMines g' = totalNonMines g ∧ face g' = FaceDead ∧
  boardGen g' = boardGen g ∧ now g' = now g ∧
  timers g' = timers (stopTimer g)
              ++ mineEntries (boardGen g) (nextTimerId g) (now g) 0 (allCells (board g)).
Proof.
  rewrite gameOver_eq. simpl.
  pose proof (stopTimer_fields g) as (-> & -> & -> & -> & -> & _ & -> & -> & -> & ->
                                      & _ & -> & -> & ->).
  tauto.
Qed.

Lemma revealCell_unfold r c isChain g :
  revealCell r c isChain g =
  match getCell (board g) r c with
  | None => Throw TypeError
  | Some cell =>
      if isRevealed cell || isFlagged cell then Done g
      else if isMine cell then Done (gameOver r c (markRevealed r c g))
      else
        let g2 :=
          if adjacentMines cell =? 0
          then scheduleReveals 0
                 (getAdjacentCells (rows g) (cols g)
                    (updCell (setRevealed true) r c (board g)) r c)
                 (markRevealed r c g)
          else markRevealed r c g in
        if revealedCount g + 1 =? totalNonMines g then Done (win g2) else Done g2
  end.
Proof.
  unfold revealCell. destruct (getCell (board g) r c) as [cell|]; [|done].
  destruct (isRevealed cell || isFlagged cell); [done|].
  destruct (isMine cell); [done|].
  destruct (adjacentMines cell =? 0); [|done].
  rewrite !scheduleReveals_eq. reflexivity.
Qed.

(** [revealCell] keeps the invariant; a mine may only be hit while the game
    is not over. *)
Lemma GameInv_revealCell r c isChain g g' :
  GameInv g → isFirstClick g = false →
  (∀ cell, getCell (board g) r c = Some cell → isMine cell = true →
           isGameOver g = false) →
  revealCell r c isChain g = Done g' → GameInv g'.
Proof.
  intros Hinv Hnf Hhit. rewrite revealCell_unfold.
  destruct (getCell (board g) r c) as [cell|] eqn:Hget; [|discriminate].
  destruct (isRevealed cell || isFlagged cell) eqn:Hrf; [by intros [= <-]|].
  apply orb_false_iff in Hrf as [Hrev Hflag].
  destruct (isMine cell) eqn:Hmine.
  - intros [= <-]. specialize (Hhit cell eq_refl Hmine).
    pose proof (gameOver_fields r c (markRevealed r c g))
      as (Hb&Hr&Hc&Hm&_&Ho&Hf&_&Hrc&Ht&_&Hgen&_&Htm).
    apply (GameInv_reveal_mine g _ r c cell); try done.
    intros e He. rewrite Htm in He. apply elem_of_app in He as [He|He].
    + left. by apply stopTimer_subset in He.
    + right. apply mineEntries_elem in He as (mine & Hin & Hmm & Hcb). rewrite Hb. eauto.
  - cbv zeta. set (g2 := if adjacentMines cell =? 0 then _ else _).
    assert (H2 : board g2 = updCell (setRevealed true) r c (board g) ∧
                 rows g2 = rows g ∧ cols g2 = cols g ∧ mines g2 = mines g ∧
                 totalNonMines g2 = totalNonMines g ∧
                 isFirstClick g2 = isFirstClick g ∧ boardGen g2 = boardGen g ∧
                 revealedCount g2 = revealedCount g + 1 ∧
                 isGameOver g2 = isGameOver g ∧ face g2 = face g ∧
                 ∀ e, e ∈ timers g2 →
                   e ∈ timers g ∨
                   (adjacentMines cell = 0 ∧
                    ∃ adj, adj ∈ getAdjacentCells (rows g) (cols g) (board g2) r c ∧
                           callback e = TRevealCell (row adj) (col adj))).
    { subst g2. destruct (adjacentMines cell =? 0) eqn:Hz.
      - apply Z.eqb_eq in Hz.
        pose proof (scheduleReveals_fields 0
          (getAdjacentCells (rows g) (cols g)
             (updCell (setRevealed true) r c (board g)) r c) (markRevealed r c g))
          as (Hb&Hr&Hc&Hm&_&Ho&Hf&_&_&Hrc&Ht&Hface&Hgen&_&Htm).
        repeat (split; [done|]).
        intros e He. rewrite Htm in He. apply elem_of_app in He as [He|He]; [by left|].
        right. split; [done|]. apply revealEntries_elem in He. by rewrite Hb.
      - repeat (split; [done|]). intros e He. by left. }
    destruct H2 as (Hb&Hr&Hc&Hm&Ht&Hf&Hgen&Hrc&Ho&Hface&Htm).
    destruct (revealedCount g + 1 =? totalNonMines g) eqn:Hwin; intros [= <-].
    + apply Z.eqb_eq in Hwin.
      pose proof (win_fields g2) as (Hb'&Hr'&Hc'&Hm'&_&Ho'&Hf'&_&Hrc'&Ht'&Hface'&Hgen'&_&Htm').
      apply (GameInv_reveal_safe g _ r c cell); try congruence.
      * intros e He. rewrite Htm' in He. apply stopTimer_subset in He.
        rewrite Hb'. by apply Htm.
      * by left.
    + apply Z.eqb_neq in Hwin.
      apply (GameInv_reveal_safe g _ r c cell); try done. by right.
Qed.

(** A write that keeps the layout and the reveal counts. *)
Lemma GameInv_board g g' f r c :
  GameInv g → keepsLayout f →
  board g' = updCell f r c (board g) →
  rows g' = rows g → cols g' = cols g → mines g' = mines g →
  totalNonMines g' = totalNonMines g → isFirstClick g' = isFirstClick g →
  boardGen g' = boardGen g → revealedCount g' = revealedCount g →
  isGameOver g' = isGameOver g → face g' = face g → timers g' = timers g →
  countCells isMine (board g') = countCells isMine (board g) →
  countCells isRevealedSafe (board g') = countCells isRevealedSafe (board g) →
  mineShown (board g') = mineShown (board g) →
  (isFirstClick g = true → countCells isRevealed (board g') = 0) →
  GameInv g'.
Proof.
  intros Hinv Hkl Hb Hr Hc Hm Ht Hf Hgen Hrc Ho Hface Htm Hmines Hsafe Hshown Hfresh.
  destruct (layout_updCell (rows g) (cols g) (board g) f r c
              Hkl (gi_wf g Hinv) (gi_adjacent g Hinv)) as (Hwf' & Hadj' & Hkeep).
  rewrite <- Hb in Hwf', Hadj', Hkeep.
  destruct Hinv. unfold validConfig in *.
  constructor; unfold validConfig;
    rewrite ?Hr, ?Hc, ?Hm, ?Ht, ?Hf, ?Hgen, ?Hrc, ?Ho, ?Hface, ?Htm, ?Hmines,
      ?Hsafe, ?Hshown; try assumption.
  - intros Hfirst. destruct (gi_fresh0 Hfirst) as (_ & ? & ?). auto.
  - intros e r' c' He Hcb.
    destruct (gi_reveal0 e r' c' He Hcb) as (cell0 & Hget0 & Hm0).
    destruct (Hkeep _ _ _ Hget0) as (cell1 & Hget1 & Hm1).
    exists cell1. split; [done|congruence].
  - intros e gen r' c' He Hcb.
    destruct (gi_show0 e gen r' c' He Hcb) as (Hg & Hs & cell0 & Hget0 & Hm0).
    split; [done|]. split; [done|].
    destruct (Hkeep _ _ _ Hget0) as (cell1 & Hget1 & Hm1).
    exists cell1. split; [done|congruence].
Qed.

Lemma GameInv_handleRightClick r c g g' :
  GameInv g → handleRightClick r c g = Done g' → GameInv g'.
Proof.
  intros Hinv. unfold handleRightClick.
  destruct (isGameOver g); [by intros [= <-]|].
  destruct (getCell (board g) r c) as [cell|] eqn:Hget; [|discriminate].
  destruct (isRevealed cell) eqn:Hrev; intros [= <-]; [done|].
  apply (GameInv_board g _ (setFlagged (negb (isFlagged cell))) r c);
    try done; try apply keepsLayout_setFlagged; simpl.
  - by apply (countCells_updCell_same _ _ _ _ _ cell).
  - by apply (countCells_updCell_same _ _ _ _ _ cell).
  - unfold mineShown. by rewrite (countCells_updCell_same _ _ _ _ _ cell).
  - intros Hfirst. rewrite (countCells_updCell_same _ _ _ _ _ cell); try done.
    by apply (gi_fresh g Hinv).
Qed.

(** The callback of [gameOver] on a mine of the current board. *)
Lemma GameInv_showMine g r c cell :
  GameInv g → mineShown (board g) = true →
  getCell (board g) r c = Some cell → isMine cell = true →
  GameInv (set_board (updCell (setRevealed true) r c (board g)) g).
Proof.
  intros Hinv Hs Hget Hmine.
  assert (Hnf : isFirstClick g = false).
  { destruct (isFirstClick g) eqn:Hf; [|done].
    destruct (gi_fresh g Hinv Hf) as (Hz & _).
    apply mineShown_true in Hs.
    assert (countCells isRevealedMine (board g) ≤ countCells isRevealed (board g)); [|lia].
    apply countCells_le. intros _ _ cell' _. unfold isRevealedMine.
    by intros [? _]%andb_true_iff. }
  apply (GameInv_board g _ (setRevealed true) r c);
    try done; try apply keepsLayout_setRevealed; simpl.
  - by apply (countCells_updCell_same _ _ _ _ _ cell).
  - apply (countCells_updCell_same _ _ _ _ _ cell); [done|].
    unfold isRevealedSafe. simpl. by rewrite Hmine, !andb_false_r.
  - rewrite Hs. apply mineShown_true. apply mineShown_true in Hs.
    rewrite (countCells_updCell _ _ _ _ _ _ Hget).
    pose proof (indicator_range isRevealedMine cell).
    assert (indicator isRevealedMine (setRevealed true cell) = 1); [|lia].
    unfold indicator, isRevealedMine. simpl. by rewrite Hmine.
  - congruence.
Qed.

Lemma mooreMineCount_no_mines rows cols b r c :
  (∀ r c cell, getCell b r c = Some cell → isMine cell = false) →
  mooreMineCount rows cols b r c = 0.
Proof.
  intros H.
  assert (Hm : ∀ r c, mineAt rows cols b r c = 0).
  { intros r0 c0. unfold mineAt. destruct (inBoard rows cols r0 c0); [|done].
    destruct (getCell b r0 c0) as [cell|] eqn:Hget; [|done].
    by rewrite (H _ _ _ Hget). }
  unfold mooreMineCount. by rewrite !Hm.
Qed.

(** A new game, started while no timeout is pending. *)
Lemma GameInv_newGame g :
  0 < rows g → 0 < cols g → 0 ≤ mines g < rows g * cols g - 9 →
  timers (stopTimer g) = [] →
  GameInv (newGame g).
Proof.
  intros Hrows Hcols Hmines Hquiet.
  destruct (stopTimer_fields g) as (_ & Hr & Hc & Hm & _).
  assert (Hcell : ∀ r c cell, getCell (initBoard (rows g) (cols g)) r c = Some cell →
                              cell = mkCell r c false false false 0)
    by apply getCell_initBoard.
  assert (Hzero : ∀ P, (∀ r c, P (mkCell r c false false false 0) = false) →
                       countCells P (initBoard (rows g) (cols g)) = 0).
  { intros P HP. apply countCells_zero. intros r c cell Hget.
    by rewrite (Hcell _ _ _ Hget). }
  assert (Hshown : mineShown (initBoard (rows g) (cols g)) = false).
  { apply mineShown_false. by apply Hzero. }
  constructor; unfold newGame, validConfig; simpl; rewrite ?Hr, ?Hc, ?Hm, ?Hshown.
  - lia.
  - apply wfBoard_initBoard; lia.
  - by apply Hzero.
  - intros r c cell Hget _. rewrite (Hcell _ _ _ Hget). simpl. symmetry.
    apply mooreMineCount_no_mines. intros r' c' cell' Hget'.
    by rewrite (Hcell _ _ _ Hget').
  - intros _. split; [by apply Hzero|]. by split.
  - rewrite Hquiet. intros e r c He. by apply elem_of_nil in He.
  - rewrite Hquiet. intros e gen r c He. by apply elem_of_nil in He.
  - rewrite Hzero by done. lia.
  - discriminate.
  - lia.
  - discriminate.
Qed.

Lemma quiet_stopTimer g : TimerInv g → quiet g → timers (stopTimer g) = [].
Proof.
  intros Hinv Hq. apply subset_nil. intros e He.
  apply (stopTimer_timers g e Hinv) in He as [He Hcb]. by specialize (Hq e He).
Qed.

(** The first click: mines are placed and the clock is started. *)
Lemma GameInv_firstClick g draws r c b' :
  GameInv g → isFirstClick g = true →
  placeMinesBoard (rows g) (cols g) (mines g) draws r c (board g) = Done b' →
  let g' := startTimer (set_board b' (set_isFirstClick false g)) in
  GameInv g' ∧
  ∀ cell, getCell (board g') r c = Some cell →
          isMine cell = false ∧ isRevealed cell = false.
Proof.
  intros Hinv Hfirst Hplace g'.
  pose proof (gi_config g Hinv) as (Hrows & Hcols & Hmines & Htot).
  pose proof (gi_mines g Hinv) as Hnone. rewrite Hfirst in Hnone.
  destruct (gi_fresh g Hinv Hfirst) as (Hunrev & Htimers & Hopen).
  destruct (placeMinesBoard_spec _ _ _ _ _ _ _ _ (proj1 Hmines) (gi_wf g Hinv) Hnone Hplace)
    as (Hwf' & Hcnt' & Hold & Hadj').
  assert (Hrev' : ∀ r c cell, getCell b' r c = Some cell → isRevealed cell = false).
  { intros r0 c0 cell Hget. destruct (Hold _ _ _ Hget) as (cell0 & Hget0 & -> & _).
    by apply (countCells_zero_inv isRevealed (board g) r0 c0). }
  assert (Hs : mineShown b' = false).
  { apply mineShown_false, countCells_zero. intros r0 c0 cell Hget.
    unfold isRevealedMine. by rewrite (Hrev' _ _ _ Hget). }
  split.
  - constructor; subst g'; unfold validConfig; simpl; rewrite ?Hs; try done.
    + rewrite Htimers. intros e r0 c0 He.
      apply list_elem_of_singleton in He as ->. discriminate.
    + rewrite Htimers. intros e gen r0 c0 He.
      apply list_elem_of_singleton in He as ->. discriminate.
    + rewrite (countCells_zero isRevealedSafe).
      * pose proof (gi_count g Hinv) as Hc.
        assert (Hs0 : mineShown (board g) = false).
        { destruct (mineShown (board g)) eqn:H; [|done].
          pose proof (gi_lost g Hinv H). congruence. }
        rewrite Hs0 in Hc. rewrite Hc, Z.add_0_r. apply countCells_zero.
        intros r0 c0 cell Hget. unfold isRevealedSafe.
        by rewrite (countCells_zero_inv isRevealed (board g) r0 c0 cell).
      * intros r0 c0 cell Hget. unfold isRevealedSafe. by rewrite (Hrev' _ _ _ Hget).
    + intros _. pose proof (gi_open g Hinv Hopen). done.
    + intros Ho. congruence.
  - subst g'. simpl. intros cell Hget. split; [|by apply (Hrev' r c)].
    destruct (Hold _ _ _ Hget) as (cell0 & _ & _ & _ & Hm).
    destruct (isMine cell); [|done]. exfalso. apply Hm; [done|lia].
Qed.

Lemma GameInv_handleClick draws r c g g' :
  GameInv g → handleClick draws r c g = Done g' → GameInv g'.
Proof.
  intros Hinv. unfold handleClick.
  destruct (isGameOver g) eqn:Hover; [by intros [= <-]|].
  destruct (getCell (board g) r c) as [cell|] eqn:Hget; [|discriminate].
  destruct (isFlagged cell || isRevealed cell); [by intros [= <-]|].
  destruct (isFirstClick g) eqn:Hfirst; simpl.
  - unfold placeMines. simpl.
    destruct (placeMinesBoard _ _ _ _ _ _ _) as [b'| |] eqn:Hplace; simpl;
      try discriminate.
    destruct (GameInv_firstClick g draws r c b' Hinv Hfirst Hplace) as [Hinv' Hsafe].
    apply (GameInv_revealCell r c false _ g' Hinv'); [done|].
    intros cell' Hget' Hm. destruct (Hsafe cell' Hget'). congruence.
  - by apply GameInv_revealCell.
Qed.

Lemma dequeue_callbacks l e rest t x :
  nextTimer l = Some (e, rest) →
  x ∈ match period e with
      | Some p => rest ++ [mkTimer (tid e) (t + p) (Some p) (callback e)]
      | None => rest
      end →
  ∃ x0, x0 ∈ l ∧ callback x = callback x0.
Proof.
  intros Hnext Hx. apply nextTimer_Some in Hnext as [Hperm _].
  assert (Hrest : ∀ y, y ∈ rest → ∃ x0, x0 ∈ l ∧ callback y = callback x0).
  { intros y Hy. exists y. split; [|done]. rewrite Hperm. by apply elem_of_cons; right. }
  destruct (period e); [|by apply Hrest].
  apply elem_of_app in Hx as [Hx|Hx]; [by apply Hrest|].
  apply list_elem_of_singleton in Hx as ->. exists e.
  split; [|done]. rewrite Hperm. by apply elem_of_cons; left.
Qed.

Lemma GameInv_fireNext g : GameInv g → GameInv (fireNext g).
Proof.
  intros Hinv. unfold fireNext.
  destruct (nextTimer (timers g)) as [[e rest]|] eqn:Hnext; [|done].
  set (g1 := set_timers _ _).
  assert (Hinv1 : GameInv g1).
  { apply (GameInv_frame g); try done. subst g1. simpl.
    intros x Hx. by apply (dequeue_callbacks _ _ _ _ _ Hnext Hx). }
  apply nextTimer_Some in Hnext as [Hperm _].
  assert (He : e ∈ timers g) by (rewrite Hperm; by apply elem_of_cons; left).
  assert (Hnf : isFirstClick g = false).
  { destruct (isFirstClick g) eqn:Hf; [|done].
    destruct (gi_fresh g Hinv Hf) as (_ & Hnil & _). rewrite Hnil in He.
    by apply elem_of_nil in He. }
  destruct (callback e) as [r c|gen r c|] eqn:Hcb; simpl.
  - destruct (revealCell r c true g1) as [g'| |] eqn:Hr; try done.
    apply (GameInv_revealCell r c true g1 g' Hinv1 Hnf); [|exact Hr].
    intros cell Hget Hm.
    destruct (gi_reveal g Hinv e r c He Hcb) as (cell0 & Hget0 & Hm0).
    subst g1. simpl in Hget. congruence.
  - destruct (gi_show g Hinv e gen r c He Hcb) as (-> & Hs & cell & Hget & Hm).
    replace (boardGen g1) with (boardGen g) by done. rewrite Nat.eqb_refl.
    by apply (GameInv_showMine g1 r c cell).
  - apply (GameInv_frame g1); try done.
    + apply tick_fields.
    + unfold tick. simpl. by destruct (999 <? timer g + 1).
    + unfold tick. simpl. by destruct (999 <? timer g + 1).
    + unfold tick. simpl. by destruct (999 <? timer g + 1).
    + apply tick_fields.
    + apply tick_fields.
    + unfold tick. simpl. by destruct (999 <? timer g + 1).
    + unfold tick. simpl. by destruct (999 <? timer g + 1).
    + intros _. apply tick_fields.
    + unfold tick. simpl. by destruct (999 <? timer g + 1).
    + intros x Hx. exists x. split; [|done].
      by destruct (tick_fields g1) as (_ & _ & _ & _ & <- & _).
Qed.

Lemma validConfig_preset d :
  let '(r, c, m) := difficulties d in 0 < r ∧ 0 < c ∧ 0 ≤ m < r * c - 9.
Proof. destruct d; simpl; lia. Qed.

Lemma GameInv_step g e g' :
  GameInv g → TimerInv g → allowed g e → step g e = Some g' → GameInv g'.
Proof.
  intros Hinv Htinv Hall. destruct e as [r c draws|r c| | | |d| |dt]; simpl.
  - destruct (handleClick draws r c g) as [g1| |] eqn:Hc; intros [= <-]; [|done].
    by apply (GameInv_handleClick _ _ _ _ _ Hinv Hc).
  - destruct (handleRightClick r c g) as [g1| |] eqn:Hc; intros [= <-]; [|done].
    by apply (GameInv_handleRightClick _ _ _ _ Hinv Hc).
  - intros [= <-]. unfold handleMouseDown.
    destruct (isGameOver g) eqn:Ho; [done|].
    apply (GameInv_frame g); try done; [congruence|]. intros x Hx. eauto.
  - intros [= <-]. unfold handleMouseUp.
    destruct (isGameOver g) eqn:Ho; [done|].
    apply (GameInv_frame g); try done; [congruence|]. intros x Hx. eauto.
  - intros [= <-]. destruct (gi_config g Hinv) as (? & ? & ? & _).
    apply GameInv_newGame; try done. by apply quiet_stopTimer.
  - intros [= <-]. unfold setDifficulty.
    pose proof (validConfig_preset d) as Hp.
    destruct (difficulties d) as [[r c] m]. destruct Hp as (? & ? & ?).
    apply GameInv_newGame; try done.
    apply quiet_stopTimer; [by apply (TimerInv_same g)|done].
  - intros [= <-]. by apply GameInv_fireNext.
  - intros [= <-]. apply (GameInv_frame g); try done. intros x Hx. eauto.
Qed.

(** Orderly play keeps both invariants. *)
Lemma orderly_inv g : orderly g → GameInv g ∧ TimerInv g.
Proof.
  induction 1 as [|g e g' _ [IHg IHt] Hall Hstep].
  - split; [|apply TimerInv_construct].
    apply (GameInv_newGame (mkGame [] 9 9 10 10 false true 0 None 0 0 FaceSmile 0 0 1 []));
      simpl; (done || lia).
  - split; [by apply (GameInv_step g e)|by apply (TimerInv_step g e)].
Qed.

Lemma orderly_reachable g : orderly g → reachable g.
Proof.
  induction 1 as [|g e g' _ [evs IH] _ Hstep]; [by exists []|].
  exists (evs ++ [e]). clear -IH Hstep. revert IH. generalize construct.
  induction evs as [|e0 evs IHevs]; intros g0; simpl.
  - intros [= ->]. by rewrite Hstep.
  - destruct (step g0 e0); [apply IHevs|discriminate].
Qed.

(** * What the handlers leave alone *)

Lemma placeMinesLoop_wf rows cols mines zone draws :
  ∀ placed b b', wfBoard rows cols b →
    placeMinesLoop rows cols mines zone draws placed b = Done b' →
    wfBoard rows cols b'.
Proof.
  induction draws as [|[x y] draws IH]; intros placed b b' Hwf; simpl.
  - destruct (placed <? mines); [discriminate|]. by intros [= <-].
  - destruct (placed <? mines); [|by intros [= <-]].
    destruct (getCell b (floorMul x rows) (floorMul y cols)) as [cell|];
      [|discriminate].
    destruct (negb (isMine cell) && negb _); apply IH; [|done].
    by apply wfBoard_updCell.
Qed.

(** On a well-formed board of positive size the loop of [placeMines] reads
    cells of the board only. *)
Lemma placeMinesLoop_no_throw rows cols mines zone draws :
  0 < rows → 0 < cols →
  ∀ placed b e, wfBoard rows cols b →
    placeMinesLoop rows cols mines zone draws placed b ≠ Throw e.
Proof.
  intros Hrows Hcols.
  induction draws as [|[x y] draws IH]; intros placed b e Hwf; simpl.
  - by destruct (placed <? mines).
  - destruct (placed <? mines); [|done].
    pose proof (floorMul_range x rows Hrows) as Hr.
    pose proof (floorMul_range y cols Hcols) as Hc.
    destruct (proj1 (wfBoard_getCell rows cols b (floorMul x rows) (floorMul y cols) Hwf))
      as [cell Hget]; [apply inBoard_spec; lia|].
    rewrite Hget.
    destruct (negb (isMine cell) && negb _); apply IH; [|done].
    by apply wfBoard_updCell.
Qed.

Lemma markRevealed_fields r c g :
  let g' := markRevealed r c g in
  rows g' = rows g ∧ cols g' = cols g ∧ mines g' = mines g ∧
  minesLeft g' = minesLeft g ∧ isGameOver g' = isGameOver g ∧
  isFirstClick g' = isFirstClick g ∧ timer g' = timer g ∧
  totalNonMines g' = totalNonMines g ∧ face g' = face g ∧
  boardGen g' = boardGen g ∧ now g' = now g ∧ timers g' = timers g.
Proof. by repeat split. Qed.

(** The fields [revealCell] never writes, and how it can end the game. *)
Lemma revealCell_fields r c isChain g g' :
  revealCell r c isChain g = Done g' →
  rows g' = rows g ∧ cols g' = cols g ∧ mines g' = mines g ∧
  minesLeft g' = minesLeft g ∧ isFirstClick g' = isFirstClick g ∧
  timer g' = timer g ∧ totalNonMines g' = totalNonMines g ∧
  boardGen g' = boardGen g ∧ now g' = now g ∧
  (isGameOver g = true → isGameOver g' = true).
Proof.
  rewrite revealCell_unfold.
  destruct (getCell (board g) r c) as [cell|]; [|discriminate].
  destruct (isRevealed cell || isFlagged cell); [by intros [= <-]|].
  destruct (isMine cell).
  - intros [= <-].
    pose proof (gameOver_fields r c (markRevealed r c g))
      as (_&Hr&Hc&Hm&Hl&Ho&Hf&Ht&_&Htot&_&Hgen&Hnow&_).
    by rewrite Hr, Hc, Hm, Hl, Ho, Hf, Ht, Htot, Hgen, Hnow.
  - cbv zeta. set (g2 := if adjacentMines cell =? 0 then _ else _).
    assert (H2 : rows g2 = rows g ∧ cols g2 = cols g ∧ mines g2 = mines g ∧
                 minesLeft g2 = minesLeft g ∧ isFirstClick g2 = isFirstClick g ∧
                 timer g2 = timer g ∧ totalNonMines g2 = totalNonMines g ∧
                 boardGen g2 = boardGen g ∧ now g2 = now g ∧
                 isGameOver g2 = isGameOver g).
    { subst g2. destruct (adjacentMines cell =? 0); [|by simpl].
      rewrite scheduleReveals_eq. by simpl. }
    destruct H2 as (Hr&Hc&Hm&Hl&Hf&Ht&Htot&Hgen&Hnow&Ho).
    destruct (revealedCount g + 1 =? totalNonMines g); intros [= <-].
    + pose proof (win_fields g2)
        as (_&Hr'&Hc'&Hm'&Hl'&Ho'&Hf'&Ht'&_&Htot'&_&Hgen'&Hnow'&_).
      rewrite Hr', Hc', Hm', Hl', Ho', Hf', Ht', Htot', Hgen', Hnow'.
      by rewrite Hr, Hc, Hm, Hl, Hf, Ht, Htot, Hgen, Hnow.
    + by rewrite Hr, Hc, Hm, Hl, Hf, Ht, Htot, Hgen, Hnow, Ho.
Qed.


Lemma revealCell_Throw r c isChain g e :
  revealCell r c isChain g = Throw e → getCell (board g) r c = None ∧ e = TypeError.
Proof.
  rewrite revealCell_unfold.
  destruct (getCell (board g) r c) as [cell|]; [|by intros [= <-]].
  destruct (isRevealed cell || isFlagged cell); [discriminate|].
  destruct (isMine cell); [discriminate|]. cbv zeta.
  by destruct (revealedCount g + 1 =? totalNonMines g).
Qed.

Lemma revealCell_not_Hang r c isChain g : revealCell r c isChain g ≠ Hang.
Proof.
  rewrite revealCell_unfold.
  destruct (getCell (board g) r c) as [cell|]; [|done].
  destruct (isRevealed cell || isFlagged cell); [done|].
  destruct (isMine cell); [done|]. cbv zeta.
  by destruct (revealedCount g + 1 =? totalNonMines g).
Qed.




Lemma orderly_run evs : ∀ g g',
  orderly g → forallb (λ e, negb (isRestart e)) evs = true →
  run g evs = Some g' → orderly g'.
Proof.
  induction evs as [|e evs IH]; intros g g' Hg; simpl; [by intros _ [= <-]|].
  intros [He Hevs]%andb_true_iff.
  destruct (step g e) as [g1|] eqn:Hs; [|discriminate].
  apply IH; [|done]. apply (orderly_step g e g1); [done| |done].
  by destruct e.
Qed.


(** * The pending timeouts run out *)

Lemma sumZ_Permutation {A} (w : A → Z) (l l' : list A) :
  l ≡ₚ l' → sumZ w l = sumZ w l'.
Proof. induction 1; simpl; lia. Qed.

Lemma sumZ_sublist {A} (w : A → Z) (l l' : list A) :
  (∀ x, 0 ≤ w x) → sublist l l' → sumZ w l ≤ sumZ w l'.
Proof.
  intros Hw. induction 1 as [|x l1 l2 _ IH|x l1 l2 _ IH]; simpl; [lia|lia|].
  specialize (Hw x). lia.
Qed.

Lemma sublist_elem {A} (l l' : list A) x : sublist l l' → x ∈ l → x ∈ l'.
Proof.
  induction 1 as [|y l1 l2 _ IH|y l1 l2 _ IH]; [done| |].
  - intros [->|?]%elem_of_cons; apply elem_of_cons; auto.
  - intros ?. apply elem_of_cons. auto.
Qed.

Lemma sublist_length_le {A} (l l' : list A) :
  sublist l l' → (length l ≤ length l')%nat.
Proof. induction 1; simpl; lia. Qed.

Lemma latestFrom_base base l : base ≤ latestFrom base l.
Proof.
  induction l as [|e l IH]; simpl; [lia|]. destruct (isTimeout e); lia.
Qed.

Lemma latestFrom_due base l e :
  e ∈ l → isTimeout e = true → due e ≤ latestFrom base l.
Proof.
  induction l as [|x l IH]; [by intros ?%elem_of_nil|].
  intros [->|He]%elem_of_cons Ht; simpl.
  - rewrite Ht. lia.
  - specialize (IH He Ht). destruct (isTimeout x); lia.
Qed.

Lemma latestFrom_lub base l B :
  base ≤ B → (∀ e, e ∈ l → isTimeout e = true → due e ≤ B) →
  latestFrom base l ≤ B.
Proof.
  intros Hb. induction l as [|x l IH]; intros H; simpl; [done|].
  assert (latestFrom base l ≤ B)
    by (apply IH; intros e He; apply H; by apply elem_of_cons; right).
  destruct (isTimeout x) eqn:Hx; [|done].
  specialize (H x (list_elem_of_here _ _) Hx). lia.
Qed.

Lemma tickWeight_nonneg H e : 0 ≤ tickWeight H e.
Proof. unfold tickWeight. destruct (isTimeout e); lia. Qed.

Lemma tickWeight_mono H H' e : H' ≤ H → tickWeight H' e ≤ tickWeight H e.
Proof.
  intros Hle. unfold tickWeight. destruct (isTimeout e); [lia|].
  assert ((H' - due e) / 1000 ≤ (H - due e) / 1000)
    by (apply Z.div_le_mono; lia).
  lia.
Qed.

Lemma timeoutWeight_range e : 0 ≤ timeoutWeight e ≤ 1.
Proof. unfold timeoutWeight. destruct (isTimeout e); lia. Qed.

Lemma sumZ_timeoutWeight_le l : sumZ timeoutWeight l ≤ Z.of_nat (length l).
Proof.
  induction l as [|e l IH]; simpl sumZ; simpl length; [lia|].
  pose proof (timeoutWeight_range e). lia.
Qed.

Lemma potential_nonneg g : 0 ≤ potential g.
Proof.
  unfold potential, unrevealed.
  pose proof (countCells_nonneg isUnrevealed (board g)).
  pose proof (sumZ_nonneg timeoutWeight (timers g)
                (λ e, proj1 (timeoutWeight_range e))).
  pose proof (sumZ_nonneg (tickWeight (horizon g)) (timers g)
                (tickWeight_nonneg (horizon g))).
  lia.
Qed.

(** A turn that runs a timeout lowers the potential: the timeout is gone,
    and a cell that was revealed pays for the new ones. *)
Lemma potential_timeout g g' e rest F new :
  timers g ≡ₚ e :: rest → isTimeout e = true →
  now g' = Z.max (now g) (due e) →
  timers g' = F ++ new → sublist F rest →
  (∀ x, x ∈ new → isTimeout x = true ∧ due x ≤ now g' + 140) →
  (new = [] ∧ unrevealed g' ≤ unrevealed g) ∨
  ((length new ≤ 8)%nat ∧ unrevealed g' + 1 ≤ unrevealed g) →
  potential g' < potential g.
Proof.
  intros Hperm Het Hnow Htm Hsub Hnew Hcase.
  assert (He : e ∈ timers g) by (rewrite Hperm; by apply elem_of_cons; left).
  assert (Hrest : ∀ x, x ∈ rest → x ∈ timers g)
    by (intros x Hx; rewrite Hperm; by apply elem_of_cons; right).
  set (L := latestFrom (now g) (timers g)).
  assert (HnowL : now g' ≤ L).
  { rewrite Hnow. pose proof (latestFrom_base (now g) (timers g)).
    pose proof (latestFrom_due (now g) (timers g) e He Het). subst L. lia. }
  assert (HF : ∀ x, x ∈ F → isTimeout x = true → due x ≤ L).
  { intros x Hx Hxt. apply latestFrom_due; [|done].
    apply Hrest. by apply (sublist_elem F rest). }
  (* the sums over the new queue *)
  assert (HR : sumZ timeoutWeight (timers g')
               ≤ sumZ timeoutWeight rest + Z.of_nat (length new)).
  { rewrite Htm, sumZ_app.
    pose proof (sumZ_sublist timeoutWeight F rest
                  (λ x, proj1 (timeoutWeight_range x)) Hsub).
    pose proof (sumZ_timeoutWeight_le new). lia. }
  assert (HR0 : sumZ timeoutWeight (timers g) = 1 + sumZ timeoutWeight rest).
  { rewrite (sumZ_Permutation _ _ _ Hperm). simpl. unfold timeoutWeight at 1.
    by rewrite Het. }
  assert (HT : ∀ H', H' ≤ horizon g →
               sumZ (tickWeight H') (timers g') ≤ sumZ (tickWeight (horizon g)) (timers g)).
  { intros H' HH. rewrite Htm, sumZ_app.
    assert (Hz : sumZ (tickWeight H') new = 0).
    { rewrite (sumZ_ext _ (λ _, 0)); [by rewrite sumZ_const|].
      intros x Hx. unfold tickWeight. by rewrite (proj1 (Hnew x Hx)). }
    rewrite Hz, (sumZ_Permutation _ _ _ Hperm). simpl.
    pose proof (tickWeight_nonneg (horizon g) e).
    assert (sumZ (tickWeight H') F ≤ sumZ (tickWeight (horizon g)) F)
      by (apply sumZ_le; intros x _; by apply tickWeight_mono).
    pose proof (sumZ_sublist (tickWeight (horizon g)) F rest
                  (tickWeight_nonneg _) Hsub).
    lia. }
  unfold potential. rewrite HR0.
  destruct Hcase as [[-> HU]|[Hlen HU]].
  - assert (HH : horizon g' ≤ horizon g).
    { unfold horizon. fold L.
      assert (latestFrom (now g') (timers g') ≤ L); [|lia].
      apply latestFrom_lub; [done|]. rewrite Htm, app_nil_r. exact HF. }
    specialize (HT _ HH). simpl in HR. lia.
  - assert (HH : horizon g' ≤ horizon g).
    { unfold horizon. fold L.
      assert (latestFrom (now g') (timers g') ≤ L + 140); [|lia].
      apply latestFrom_lub; [lia|]. rewrite Htm.
      intros x [Hx|Hx]%elem_of_app Hxt; [specialize (HF x Hx Hxt); lia|].
      destruct (Hnew x Hx) as [_ ?]. lia. }
    specialize (HT _ HH). lia.
Qed.

(** A turn that runs the interval while a timeout is pending lowers the
    potential too: the interval moves 1000 ms closer to the horizon. *)
Lemma potential_tick g g' e rest e' :
  timers g ≡ₚ e :: rest → isTimeout e = false →
  (∃ x, x ∈ timers g ∧ isTimeout x = true ∧ due e ≤ due x) →
  now g' = Z.max (now g) (due e) →
  timers g' = rest ++ [e'] → isTimeout e' = false → due e' = now g' + 1000 →
  unrevealed g' = unrevealed g →
  potential g' < potential g.
Proof.
  intros Hperm Het (x & Hx & Hxt & Hle) Hnow Htm Het' Hdue HU.
  assert (Hrest : ∀ y, y ∈ rest → y ∈ timers g)
    by (intros y Hy; rewrite Hperm; by apply elem_of_cons; right).
  set (L := latestFrom (now g) (timers g)).
  pose proof (latestFrom_base (now g) (timers g)) as HbaseL.
  pose proof (latestFrom_due (now g) (timers g) x Hx Hxt) as HxL. fold L in HbaseL, HxL.
  assert (HU0 : 0 ≤ unrevealed g) by apply countCells_nonneg.
  assert (HH : horizon g' ≤ horizon g).
  { unfold horizon. fold L. rewrite HU.
    assert (latestFrom (now g') (timers g') ≤ L); [|lia].
    apply latestFrom_lub; [lia|]. rewrite Htm.
    intros y [Hy|Hy]%elem_of_app Hyt.
    - apply latestFrom_due; [by apply Hrest|done].
    - apply list_elem_of_singleton in Hy as ->. congruence. }
  unfold potential. rewrite HU, Htm, !sumZ_app, !(sumZ_Permutation _ _ _ Hperm).
  simpl. unfold timeoutWeight at 2 3. rewrite Het, Het'.
  assert (sumZ (tickWeight (horizon g')) rest ≤ sumZ (tickWeight (horizon g)) rest)
    by (apply sumZ_le; intros y _; by apply tickWeight_mono).
  assert (Hw : tickWeight (horizon g') e' + 1 ≤ tickWeight (horizon g) e).
  { pose proof (tickWeight_mono _ _ e' HH).
    assert (tickWeight (horizon g) e' + 1 ≤ tickWeight (horizon g) e); [|lia].
    unfold tickWeight. rewrite Het, Het', Hdue, Hnow.
    assert (Hge : due e ≤ horizon g) by (unfold horizon; fold L; lia).
    assert (0 ≤ (horizon g - due e) / 1000) by (apply Z.div_pos; lia).
    assert ((horizon g - (Z.max (now g) (due e) + 1000)) / 1000 + 1
            ≤ (horizon g - due e) / 1000).
    { replace (horizon g - (Z.max (now g) (due e) + 1000))
        with (horizon g - Z.max (now g) (due e) + (-1) * 1000) by lia.
      rewrite Z.div_add by lia.
      assert ((horizon g - Z.max (now g) (due e)) / 1000 ≤ (horizon g - due e) / 1000)
        by (apply Z.div_le_mono; lia).
      lia. }
    lia. }
  lia.
Qed.

Lemma stopTimer_split g l1 l2 :
  timers g = l1 ++ l2 →
  ∃ F new, timers (stopTimer g) = F ++ new ∧ sublist F l1 ∧ sublist new l2.
Proof.
  intros Htm. unfold stopTimer.
  destruct (timerInterval g) as [id|]; [|by exists l1, l2].
  destruct (Nat.eqb id 0); [by exists l1, l2|]. simpl.
  unfold clearInterval. rewrite Htm, list.filter_app.
  eexists _, _. split; [done|]. split; apply sublist_filter.
Qed.

Lemma revealEntries_due adjacent : ∀ id now index x,
  x ∈ revealEntries id now index adjacent →
  isTimeout x = true ∧
  due x ≤ now + (index + Z.of_nat (length adjacent) - 1) * 20.
Proof.
  induction adjacent as [|adj rest IH]; intros id now index x; simpl revealEntries;
    [by intros ?%elem_of_nil|].
  simpl length. intros [->|Hx]%elem_of_cons.
  - split; [done|]. simpl. lia.
  - destruct (IH _ _ _ _ Hx) as [Ht Hd]. split; [done|]. lia.
Qed.

(** What [revealCell] does on a cell that is not a mine. *)
Lemma revealCell_safe_effect r c isChain g g' cell :
  revealCell r c isChain g = Done g' →
  getCell (board g) r c = Some cell → isMine cell = false →
  (isRevealed cell || isFlagged cell = true ∧ g' = g) ∨
  (isRevealed cell = false ∧ isFlagged cell = false ∧
   board g' = updCell (setRevealed true) r c (board g) ∧
   ∃ F new,
     timers g' = F ++ new ∧ sublist F (timers g) ∧
     sublist new
       (if adjacentMines cell =? 0
        then revealEntries (nextTimerId g) (now g) 0
               (getAdjacentCells (rows g) (cols g) (board g') r c)
        else [])).
Proof.
  rewrite revealCell_unfold. intros Hr Hget Hm. rewrite Hget, Hm in Hr.
  destruct (isRevealed cell || isFlagged cell) eqn:Hrf;
    [injection Hr as <-; by left|].
  apply orb_false_iff in Hrf as [Hrev Hflag]. right.
  split; [done|]. split; [done|].
  cbv zeta in Hr. set (g2 := if adjacentMines cell =? 0 then _ else _) in Hr.
  set (new := if adjacentMines cell =? 0
              then revealEntries (nextTimerId g) (now g) 0
                     (getAdjacentCells (rows g) (cols g)
                        (updCell (setRevealed true) r c (board g)) r c)
              else []).
  assert (H2 : board g2 = updCell (setRevealed true) r c (board g) ∧
               timers g2 = timers g ++ new).
  { subst g2 new. destruct (adjacentMines cell =? 0).
    - rewrite scheduleReveals_eq. by simpl.
    - simpl. by rewrite app_nil_r. }
  destruct H2 as [Hb2 Ht2].
  destruct (revealedCount g + 1 =? totalNonMines g); injection Hr as <-.
  - destruct (win_fields g2) as (Hb&_&_&_&_&_&_&_&_&_&_&_&_&Htm).
    rewrite Hb, Hb2. split; [done|]. rewrite Htm.
    destruct (stopTimer_split g2 _ _ Ht2) as (F & new' & ? & ? & ?). by exists F, new'.
  - rewrite Hb2. split; [done|]. by exists (timers g), new.
Qed.

(** With the timer invariant, [revealCell] on a cell that is not a mine
    drops no timeout, neither an old one nor one it has just set. *)
Lemma revealCell_keeps_timeouts r c isChain g g' cell x :
  TimerInv g → revealCell r c isChain g = Done g' →
  getCell (board g) r c = Some cell → isMine cell = false →
  isTimeout x = true →
  x ∈ timers g ∨
  (isRevealed cell = false ∧ isFlagged cell = false ∧ adjacentMines cell = 0 ∧
   x ∈ revealEntries (nextTimerId g) (now g) 0
         (getAdjacentCells (rows g) (cols g)
            (updCell (setRevealed true) r c (board g)) r c)) →
  x ∈ timers g'.
Proof.
  intros Hinv Hr Hget Hm Hxt Hx. rewrite revealCell_unfold, Hget, Hm in Hr.
  destruct (isRevealed cell || isFlagged cell) eqn:Hrf.
  - injection Hr as <-. destruct Hx as [?|(Hrev & Hflag & _)]; [done|].
    rewrite Hrev, Hflag in Hrf. discriminate.
  - cbv zeta in Hr. set (g2 := if adjacentMines cell =? 0 then _ else _) in Hr.
    assert (Hinv1 : TimerInv (markRevealed r c g)) by (by apply (TimerInv_same g)).
    assert (H2 : TimerInv g2 ∧ x ∈ timers g2).
    { subst g2. destruct (adjacentMines cell =? 0) eqn:Hz.
      - split.
        + rewrite scheduleReveals_eq.
          eapply (TimerInv_append _ _ (revealEntries _ _ _ _) Hinv1); try reflexivity.
          * simpl. by rewrite revealEntries_length.
          * apply revealEntries_fresh.
        + rewrite scheduleReveals_eq. simpl. apply elem_of_app.
          destruct Hx as [?|(_ & _ & _ & ?)]; [by left|by right].
      - split; [done|]. simpl. destruct Hx as [?|(_ & _ & Hz' & _)]; [done|].
        apply Z.eqb_neq in Hz. done. }
    destruct H2 as [Hinv2 Hx2].
    destruct (revealedCount g + 1 =? totalNonMines g); injection Hr as <-; [|done].
    destruct (win_fields g2) as (_&_&_&_&_&_&_&_&_&_&_&_&_&->).
    apply (stopTimer_timers g2 x Hinv2). split; [done|].
    intros Hcb. unfold isTimeout in Hxt. by rewrite Hcb in Hxt.
Qed.

Lemma timeoutPending_elem g :
  timeoutPending g = true ↔ ∃ x, x ∈ timers g ∧ isTimeout x = true.
Proof.
  unfold timeoutPending. rewrite existsb_exists.
  split; intros (x & Hx & Ht); exists x; (split; [by apply list_elem_of_In|done]).
Qed.

Lemma unrevealed_reveal b r c cell :
  getCell b r c = Some cell →
  countCells isUnrevealed (updCell (setRevealed true) r c b)
  = countCells isUnrevealed b - (if isRevealed cell then 0 else 1).
Proof.
  intros Hget. rewrite (countCells_updCell _ _ _ _ _ _ Hget).
  unfold indicator, isUnrevealed. simpl. destruct (isRevealed cell); simpl; lia.
Qed.

(** Every turn of the event loop that runs while a timeout is pending
    lowers the potential, as long as the pending cascade steps are for cells
    of the board that are not mines. *)
Lemma potential_fireNext_safe g :
  TimerInv g →
  (∀ e r c, e ∈ timers g → callback e = TRevealCell r c →
     ∃ cell, getCell (board g) r c = Some cell ∧ isMine cell = false) →
  (∀ e gen r c, e ∈ timers g → callback e = TShowMine gen r c →
     ∃ cell, getCell (board g) r c = Some cell) →
  timeoutPending g = true →
  potential (fireNext g) < potential g.
Proof.
  intros Htinv Hreveal Hshow Hpend. unfold fireNext.
  destruct (nextTimer (timers g)) as [[e rest]|] eqn:Hnext.
  2:{ apply nextTimer_None in Hnext. apply timeoutPending_elem in Hpend
        as (x & Hx & _). rewrite Hnext in Hx. by apply elem_of_nil in Hx. }
  apply nextTimer_Some in Hnext as [Hperm Hmin].
  assert (He : e ∈ timers g) by (rewrite Hperm; by apply elem_of_cons; left).
  destruct (callback e) as [r c|gen r c|] eqn:Hcb.
  - (* a cascade step *)
    destruct (ti_period g Htinv e He) as [[_ ?]|[Hp _]]; [congruence|]. rewrite Hp.
    set (g1 := set_timers rest (set_now (Z.max (now g) (due e)) g)).
    assert (Het : isTimeout e = true) by (unfold isTimeout; by rewrite Hcb).
    destruct (Hreveal e r c He Hcb) as (cell & Hget & Hm).
    simpl. destruct (revealCell r c true g1) as [g'| |] eqn:Hr.
    + apply (revealCell_safe_effect r c true g1 g' cell) in Hr as Heff; [|done|done].
      apply revealCell_fields in Hr as (_&_&_&_&_&_&_&_&Hnow&_).
      destruct Heff as [[_ ->]|(Hrev & Hflag & Hb & F & new & Htm & HF & Hnew)].
      * apply (potential_timeout g g1 e rest rest []); try done.
        -- simpl. by rewrite app_nil_r.
        -- intros x Hx. by apply elem_of_nil in Hx.
        -- left. split; [done|]. unfold unrevealed. simpl. lia.
      * apply (potential_timeout g g' e rest F new); try done.
        -- intros x Hx. apply (sublist_elem _ _ x Hnew) in Hx.
           destruct (adjacentMines cell =? 0); [|by apply elem_of_nil in Hx].
           apply revealEntries_due in Hx as [Hxt Hxd]. split; [done|].
           pose proof (getAdjacentCells_length (rows g1) (cols g1) (board g') r c).
           rewrite Hnow. simpl in *. lia.
        -- right. split.
           ++ apply sublist_length_le in Hnew.
              destruct (adjacentMines cell =? 0); [|simpl in Hnew; lia].
              rewrite revealEntries_length in Hnew.
              pose proof (getAdjacentCells_length (rows g1) (cols g1) (board g') r c).
              lia.
           ++ unfold unrevealed. rewrite Hb. simpl.
              rewrite (unrevealed_reveal _ _ _ _ Hget), Hrev. lia.
    + apply (potential_timeout g g1 e rest rest []); try done.
      * simpl. by rewrite app_nil_r.
      * intros x Hx. by apply elem_of_nil in Hx.
      * left. split; [done|]. unfold unrevealed. simpl. lia.
    + by apply revealCell_not_Hang in Hr.
  - (* a mine is shown *)
    destruct (ti_period g Htinv e He) as [[_ ?]|[Hp _]]; [congruence|]. rewrite Hp.
    set (g1 := set_timers rest (set_now (Z.max (now g) (due e)) g)).
    assert (Het : isTimeout e = true) by (unfold isTimeout; by rewrite Hcb).
    destruct (Hshow e gen r c He Hcb) as (cell & Hget).
    simpl. apply (potential_timeout g _ e rest rest []); try done.
    + by destruct (Nat.eqb gen (boardGen g)).
    + destruct (Nat.eqb gen (boardGen g)); simpl; by rewrite app_nil_r.
    + intros x Hx. by apply elem_of_nil in Hx.
    + left. split; [done|]. unfold unrevealed.
      destruct (Nat.eqb gen (boardGen g)); simpl; [|lia].
      rewrite (unrevealed_reveal _ _ _ _ Hget). destruct (isRevealed cell); lia.
  - (* the clock *)
    destruct (ti_period g Htinv e He) as [[Hp _]|[_ ?]]; [|congruence]. rewrite Hp.
    assert (Het : isTimeout e = false) by (unfold isTimeout; by rewrite Hcb).
    apply timeoutPending_elem in Hpend as (x & Hx & Hxt).
    simpl.
    apply (potential_tick g _ e rest
             (mkTimer (tid e) (Z.max (now g) (due e) + 1000) (Some 1000) TTick)).
    + done.
    + done.
    + exists x. split; [done|]. split; [done|]. rewrite Hperm in Hx.
      apply elem_of_cons in Hx as [->|Hx]; [congruence|by apply Hmin].
    + unfold tick. simpl. by destruct (999 <? timer g + 1).
    + unfold tick. simpl. by destruct (999 <? timer g + 1).
    + done.
    + unfold tick. simpl. by destruct (999 <? timer g + 1).
    + unfold unrevealed, tick. simpl. by destruct (999 <? timer g + 1).
Qed.

Lemma potential_fireNext g :
  GameInv g → TimerInv g → timeoutPending g = true →
  potential (fireNext g) < potential g.
Proof.
  intros Hinv Htinv. apply potential_fireNext_safe; [done|apply (gi_reveal g Hinv)|].
  intros e gen r c He Hcb.
  destruct (gi_show g Hinv e gen r c He Hcb) as (_ & _ & cell & Hget & _). eauto.
Qed.

Lemma settle_invariant (P : Minesweeper → Prop) :
  (∀ g, P g → timeoutPending g = true → P (fireNext g)) →
  ∀ fuel g, P g → P (settle fuel g).
Proof.
  intros Hstep. induction fuel as [|fuel IH]; intros g Hg; simpl; [done|].
  destruct (timeoutPending g) eqn:Hp; [|done]. apply IH. by apply Hstep.
Qed.

(** With enough fuel [settle] ends in a state without pending timeouts. *)
Lemma settle_quiesces fuel : ∀ g,
  GameInv g → TimerInv g → potential g ≤ Z.of_nat fuel →
  timeoutPending (settle fuel g) = false.
Proof.
  induction fuel as [|fuel IH]; intros g Hinv Htinv Hpot; simpl.
  - destruct (timeoutPending g) eqn:Hp; [|done].
    pose proof (potential_fireNext g Hinv Htinv Hp).
    pose proof (potential_nonneg (fireNext g)). lia.
  - destruct (timeoutPending g) eqn:Hp; [|done].
    apply IH; [by apply GameInv_fireNext|by apply TimerInv_fireNext|].
    pose proof (potential_fireNext g Hinv Htinv Hp). lia.
Qed.

Lemma settle_settleFuel g :
  GameInv g → TimerInv g → timeoutPending (settle (settleFuel g) g) = false.
Proof.
  intros Hinv Htinv. apply settle_quiesces; try done.
  unfold settleFuel. pose proof (potential_nonneg g). lia.
Qed.

Lemma orderly_settle fuel g : orderly g → orderly (settle fuel g).
Proof.
  apply (settle_invariant orderly). intros g0 Hg0 _.
  by apply (orderly_step g0 EFire).
Qed.

(** One turn of the event loop, by the kind of callback. *)
Lemma fireNext_cases g e rest :
  GameInv g → TimerInv g → nextTimer (timers g) = Some (e, rest) →
  let t := Z.max (now g) (due e) in
  match callback e with
  | TRevealCell r c =>
      fireNext g = runTask (TRevealCell r c) (set_timers rest (set_now t g))
  | TShowMine gen r c =>
      gen = boardGen g ∧
      fireNext g = set_board (updCell (setRevealed true) r c (board g))
                     (set_timers rest (set_now t g))
  | TTick =>
      fireNext g = tick (set_timers
                     (rest ++ [mkTimer (tid e) (t + 1000) (Some 1000) TTick])
                     (set_now t g))
  end.
Proof.
  intros Hinv Htinv Hnext t. unfold fireNext. rewrite Hnext.
  apply nextTimer_Some in Hnext as [Hperm _].
  assert (He : e ∈ timers g) by (rewrite Hperm; by apply elem_of_cons; left).
  destruct (callback e) as [r c|gen r c|] eqn:Hcb.
  - destruct (ti_period g Htinv e He) as [[_ ?]|[Hp _]]; [congruence|].
    by rewrite Hp.
  - destruct (ti_period g Htinv e He) as [[_ ?]|[Hp _]]; [congruence|].
    destruct (gi_show g Hinv e gen r c He Hcb) as [-> _].
    rewrite Hp. simpl. by rewrite Nat.eqb_refl.
  - destruct (ti_period g Htinv e He) as [[Hp _]|[_ ?]]; [|congruence].
    by rewrite Hp.
Qed.

(** A turn of the event loop changes the board by at most one reveal, and
    it drops no pending timeout but the one it runs. *)
Lemma fireNext_summary g :
  GameInv g → TimerInv g →
  boardGen (fireNext g) = boardGen g ∧
  (board (fireNext g) = board g ∨
   ∃ r c cell, getCell (board g) r c = Some cell ∧
     board (fireNext g) = updCell (setRevealed true) r c (board g)) ∧
  (∀ x, x ∈ timers g → isTimeout x = true →
     x ∈ timers (fireNext g) ∨ ∃ rest, nextTimer (timers g) = Some (x, rest)) ∧
  (∀ x rest gen r c, nextTimer (timers g) = Some (x, rest) →
     callback x = TShowMine gen r c →
     ∃ cell, getCell (board g) r c = Some cell ∧
       board (fireNext g) = updCell (setRevealed true) r c (board g)).
Proof.
  intros Hinv Htinv.
  destruct (nextTimer (timers g)) as [[e rest]|] eqn:Hnext.
  2:{ unfold fireNext. rewrite Hnext. split; [done|]. split; [by left|].
      split; [by left|]. intros; discriminate. }
  pose proof (fireNext_cases g e rest Hinv Htinv Hnext) as Hcase.
  pose proof Hnext as Hnext'.
  apply nextTimer_Some in Hnext' as [Hperm _].
  assert (He : e ∈ timers g) by (rewrite Hperm; by apply elem_of_cons; left).
  assert (Hrest : ∀ x, x ∈ timers g → x ∈ rest ∨ x = e).
  { intros x Hx. rewrite Hperm in Hx. apply elem_of_cons in Hx. tauto. }
  cbv zeta in Hcase.
  destruct (callback e) as [r c|gen r c|] eqn:Hcb.
  - (* a cascade step *)
    set (g1 := set_timers rest (set_now (Z.max (now g) (due e)) g)) in *.
    assert (Htinv1 : TimerInv g1).
    { destruct (ti_period g Htinv e He) as [[_ ?]|[Hp _]]; [congruence|].
      apply (TimerInv_dequeue g e rest rest _ Htinv Hnext). by rewrite Hp. }
    destruct (gi_reveal g Hinv e r c He Hcb) as (cell & Hget & Hm).
    rewrite Hcase. simpl.
    destruct (revealCell r c true g1) as [g'| |] eqn:Hr.
    + pose proof (revealCell_fields _ _ _ _ _ Hr) as (_&_&_&_&_&_&_&Hgen&_).
      split; [done|]. split; [|split].
      * apply (revealCell_safe_effect r c true g1 g' cell) in Hr
          as [[_ ->]|(_ & _ & Hb & _)]; try done; [by left|].
        right. exists r, c, cell. by split.
      * intros x Hx Hxt. destruct (Hrest x Hx) as [Hxr| ->]; [left|right; eauto].
        apply (revealCell_keeps_timeouts r c true g1 g' cell x Htinv1 Hr); try done.
        by left.
      * intros x rest0 gen r0 c0 [= <- <-]. congruence.
    + split; [done|]. split; [by left|]. split.
      * intros x Hx Hxt. destruct (Hrest x Hx) as [Hxr| ->]; [by left|right; eauto].
      * intros x rest0 gen r0 c0 [= <- <-]. congruence.
    + by apply revealCell_not_Hang in Hr.
  - (* a mine is shown *)
    destruct Hcase as [-> Hcase]. rewrite Hcase. simpl.
    destruct (gi_show g Hinv e _ r c He Hcb) as (_ & _ & cell & Hget & Hm).
    split; [done|]. split; [right; exists r, c, cell; by split|]. split.
    + intros x Hx Hxt. destruct (Hrest x Hx) as [Hxr| ->]; [by left|right; eauto].
    + intros x rest0 gen r0 c0 [= <- <-] Hcb'. rewrite Hcb in Hcb'.
      injection Hcb' as _ <- <-. eauto.
  - (* the clock *)
    rewrite Hcase.
    destruct (tick_fields (set_timers
               (rest ++ [mkTimer (tid e) (Z.max (now g) (due e) + 1000) (Some 1000) TTick])
               (set_now (Z.max (now g) (due e)) g))) as (_&_&_&_&Htm&Hb&_).
    rewrite Htm, Hb. simpl.
    split; [unfold tick; simpl; by destruct (999 <? timer g + 1)|].
    split; [by left|]. split.
    + intros x Hx Hxt. left. apply elem_of_app. left.
      destruct (Hrest x Hx) as [Hxr| ->]; [done|].
      unfold isTimeout in Hxt. by rewrite Hcb in Hxt.
    + intros x rest0 gen r0 c0 [= <- <-]. congruence.
Qed.

(** * Showing the mines after a loss *)

Lemma mineEntries_complete gen cells : ∀ id now delay cell,
  cell ∈ cells → isMine cell = true →
  ∃ e, e ∈ mineEntries gen id now delay cells ∧
       callback e = TShowMine gen (row cell) (col cell).
Proof.
  induction cells as [|x rest IH]; intros id now delay cell;
    [by intros ?%elem_of_nil|].
  intros [->|Hc]%elem_of_cons Hm; simpl.
  - rewrite Hm. eexists. split; [by constructor|done].
  - destruct (isMine x).
    + destruct (IH (S id) now (delay + 50) cell Hc Hm) as (e & He & Hcb).
      exists e. split; [by constructor|done].
    + by apply IH.
Qed.

Lemma minesAnnounced_fireNext g :
  GameInv g → TimerInv g → minesAnnounced g → minesAnnounced (fireNext g).
Proof.
  intros Hinv Htinv Hann.
  destruct (fireNext_summary g Hinv Htinv) as (Hgen & Hb & Htm & Hshow).
  assert (Hold : ∀ r c cell0 cell',
            getCell (board g) r c = Some cell0 → isMine cell0 = true →
            getCell (board (fireNext g)) r c = Some cell' →
            (isRevealed cell0 = true → isRevealed cell' = true) →
            isRevealed cell' = true ∨
            ∃ e, e ∈ timers (fireNext g) ∧ callback e = TShowMine (boardGen (fireNext g)) r c).
  { intros r c cell0 cell' Hget0 Hm0 Hget' Hmono.
    destruct (Hann r c cell0 Hget0 Hm0) as [Hrev|(e & He & Hcb)]; [left; auto|].
    assert (Het : isTimeout e = true) by (unfold isTimeout; by rewrite Hcb).
    destruct (Htm e He Het) as [He'|[rest Hnext]].
    - right. exists e. split; [done|]. by rewrite Hgen.
    - left. destruct (Hshow e rest _ r c Hnext Hcb) as (cell1 & Hget1 & Hb1).
      rewrite Hb1, (getCell_updCell_eq _ _ _ _ _ Hget1) in Hget'.
      by injection Hget' as <-. }
  intros r c cell' Hget' Hm'.
  destruct Hb as [Hb|(r0 & c0 & cell0 & Hget0 & Hb)].
  - rewrite Hb in Hget'. apply (Hold r c cell' cell'); try done. by rewrite Hb.
  - pose proof Hget' as Hget''. rewrite Hb in Hget''.
    apply getCell_updCell_Some in Hget''
      as (cell1 & Hget1 & [(-> & -> & ->)|[_ <-]]); [by left|].
    by apply (Hold r c cell' cell').
Qed.

Lemma lostQuiet_fireNext g :
  GameInv g → TimerInv g → onlyMinesPending g → gameState g = Lost →
  onlyMinesPending (fireNext g) ∧ gameState (fireNext g) = Lost.
Proof.
  intros Hinv Htinv Honly Hlost.
  destruct (nextTimer (timers g)) as [[e rest]|] eqn:Hnext.
  2:{ unfold fireNext. by rewrite Hnext. }
  pose proof (fireNext_cases g e rest Hinv Htinv Hnext) as Hcase.
  apply nextTimer_Some in Hnext as [Hperm _].
  assert (He : e ∈ timers g) by (rewrite Hperm; by apply elem_of_cons; left).
  assert (Hrest : ∀ x, x ∈ rest → x ∈ timers g)
    by (intros x Hx; rewrite Hperm; by apply elem_of_cons; right).
  cbv zeta in Hcase. destruct (callback e) as [r c|gen r c|] eqn:Hcb.
  - destruct (Honly e He) as (gen & r' & c' & Hcb'); [|congruence].
    unfold isTimeout. by rewrite Hcb.
  - destruct Hcase as [_ ->]. split; [|done].
    intros x Hx. apply Honly. by apply Hrest.
  - rewrite Hcase. split.
    + intros x Hx Hxt.
      destruct (tick_fields (set_timers
               (rest ++ [mkTimer (tid e) (Z.max (now g) (due e) + 1000) (Some 1000) TTick])
               (set_now (Z.max (now g) (due e)) g))) as (_&_&_&_&Htm&_).
      rewrite Htm in Hx. simpl in Hx. apply elem_of_app in Hx as [Hx|Hx].
      * apply Honly; [by apply Hrest|done].
      * apply list_elem_of_singleton in Hx as ->. discriminate.
    + unfold gameState, tick in *. simpl. by destruct (999 <? timer g + 1).
Qed.
(** ** The cascade *)

Lemma newly_updCell b0 b r c p q :
  newly b0 b p q → newly b0 (updCell (setRevealed true) r c b) p q.
Proof.
  intros (cell0 & cell & H0 & Hr0 & H1 & Hr1).
  destruct (getCell_updCell_Some_rev (setRevealed true) b r c p q cell H1)
    as (cell' & Hget & [(_ & _ & ->)|(_ & ->)]).
  - by exists cell0, (setRevealed true cell).
  - by exists cell0, cell.
Qed.

Lemma newly_updCell_inv b0 b r c p q :
  newly b0 (updCell (setRevealed true) r c b) p q →
  (p = r ∧ q = c) ∨ newly b0 b p q.
Proof.
  intros (cell0 & cell & H0 & Hr0 & H1 & Hr1).
  destruct (decide (p = r ∧ q = c)) as [|Hne]; [by left|right].
  rewrite getCell_updCell_ne in H1 by done. by exists cell0, cell.
Qed.

Lemma zeroAt_updCell b r c p q :
  zeroAt b p q → zeroAt (updCell (setRevealed true) r c b) p q.
Proof.
  intros (cell & Hget & Hz).
  destruct (getCell_updCell_Some_rev (setRevealed true) b r c p q cell Hget)
    as (cell' & Hget' & [(_ & _ & ->)|(_ & ->)]); by eexists.
Qed.

Lemma linked_updCell b0 b sr sc r c p q :
  linked b0 b sr sc p q → linked b0 (updCell (setRevealed true) r c b) sr sc p q.
Proof.
  induction 1 as [Hs|p q p' q' _ IH Hz Hadj Hn].
  - apply linked_start. by apply newly_updCell.
  - apply (linked_step _ _ _ _ p q);
      [done|by apply zeroAt_updCell|done|by apply newly_updCell].
Qed.


Lemma revealEntries_complete adjacent : ∀ id now index adjCell,
  adjCell ∈ adjacent →
  ∃ e, e ∈ revealEntries id now index adjacent ∧
       callback e = TRevealCell (row adjCell) (col adjCell).
Proof.
  induction adjacent as [|a l IH]; intros id now index adjCell Hin.
  - by apply elem_of_nil in Hin.
  - apply elem_of_cons in Hin as [->|Hin]; simpl.
    + eexists. split; [by apply elem_of_cons; left|done].
    + destruct (IH (S id) now (index + 1) adjCell Hin) as (e & He & Hcb).
      exists e. split; [by apply elem_of_cons; right|done].
Qed.

(** The invariant only looks at the board and at the pending cascade
    steps. *)
Lemma CascInv_timers b0 sr sc (hole hole' : Z → Z → Prop) g g' :
  CascInv b0 sr sc hole g → board g' = board g →
  (∀ r c, hole r c → hole' r c) →
  (∀ e r c, e ∈ timers g' → callback e = TRevealCell r c →
     ∃ e0, e0 ∈ timers g ∧ callback e0 = TRevealCell r c) →
  (∀ e r c, e ∈ timers g → callback e = TRevealCell r c →
     hole' r c ∨ ∃ e', e' ∈ timers g' ∧ callback e' = TRevealCell r c) →
  CascInv b0 sr sc hole' g'.
Proof.
  intros Hc Hb Hh Hold Hnew. constructor; rewrite ?Hb.
  - apply (ci_shape _ _ _ _ _ Hc).
  - apply (ci_mono _ _ _ _ _ Hc).
  - apply (ci_linked _ _ _ _ _ Hc).
  - apply (ci_safe _ _ _ _ _ Hc).
  - intros e r c He Hcb. destruct (Hold e r c He Hcb) as (e0 & He0 & Hcb0).
    by apply (ci_tasks _ _ _ _ _ Hc e0).
  - intros r c cell r' c' cell' Hn Hget Hz Hadj Hget'.
    destruct (ci_closed _ _ _ _ _ Hc r c cell r' c' cell' Hn Hget Hz Hadj Hget')
      as [?|[?|[(e & He & Hcb)|?]]]; auto.
    destruct (Hnew e r' c' He Hcb) as [?|?]; auto.
Qed.
Lemma isTimeout_reveal e r c : callback e = TRevealCell r c → isTimeout e = true.
Proof. intros H. unfold isTimeout. by rewrite H. Qed.

(** Running [revealCell] on a safe cell that the cascade has reached. *)
Lemma CascInv_revealCell b0 sr sc g g' r c isChain cell :
  GameInv g → TimerInv g →
  CascInv b0 sr sc (λ r' c', r' = r ∧ c' = c) g →
  getCell (board g) r c = Some cell → isMine cell = false →
  ((r = sr ∧ c = sc) ∨
   ∃ zr zc, linked b0 (board g) sr sc zr zc ∧ zeroAt (board g) zr zc ∧
            adjacent zr zc r c) →
  revealCell r c isChain g = Done g' →
  CascInv b0 sr sc noHole g'.
Proof.
  intros Hinv Htinv Hc Hget Hm Hfrom Hr.
  pose proof (revealCell_keeps_timeouts r c isChain g g' cell) as Hkeep.
  destruct (revealCell_safe_effect r c isChain g g' cell Hr Hget Hm)
    as [[Hrf ->]|(Hrev & Hflag & Hb & F & new & Htm & HF & Hnew)].
  - (* the cell was revealed or flagged: nothing happens *)
    constructor; try apply Hc.
    intros p q cellp p' q' cell' Hn Hgp Hz Hadj Hgq.
    destruct (ci_closed _ _ _ _ _ Hc p q cellp p' q' cell' Hn Hgp Hz Hadj Hgq)
      as [?|[?|[?|[-> ->]]]]; auto.
    assert (cell' = cell) as -> by congruence.
    apply orb_true_iff in Hrf as [?|?]; auto.
  - set (b' := updCell (setRevealed true) r c (board g)) in *.
    assert (Hwf' : wfBoard (rows g) (cols g) b').
    { apply wfBoard_updCell; [done|apply (gi_wf g Hinv)]. }
    assert (Hnrc : newly b0 b' r c).
    { destruct (getCell b0 r c) as [cell0|] eqn:Hg0.
      - exists cell0, (setRevealed true cell). split; [done|]. split.
        + destruct (isRevealed cell0) eqn:Hr0; [|done].
          pose proof (ci_mono _ _ _ _ _ Hc r c cell0 cell Hg0 Hget Hr0). congruence.
        + split; [by apply getCell_updCell_eq|done].
      - apply (ci_shape _ _ _ _ _ Hc) in Hg0. congruence. }
    assert (Hlrc : linked b0 b' sr sc r c).
    { destruct Hfrom as [[-> ->]|(zr & zc & Hl & Hz & Hadj)].
      - by apply linked_start.
      - apply (linked_step _ _ _ _ zr zc);
          [by apply linked_updCell|by apply zeroAt_updCell|done|done]. }
    assert (Hentry : ∀ x, x ∈ timers g' →
      x ∈ timers g ∨
      (adjacentMines cell = 0 ∧ ∃ p q, adjacent r c p q ∧ callback x = TRevealCell p q)).
    { intros x Hx. rewrite Htm in Hx. apply elem_of_app in Hx as [Hx|Hx].
      - left. by apply (sublist_elem _ _ x HF).
      - right. apply (sublist_elem _ _ x Hnew) in Hx.
        destruct (adjacentMines cell =? 0) eqn:Hz; [|by apply elem_of_nil in Hx].
        split; [lia|].
        apply revealEntries_elem in Hx as (adj & Hadj & Hcb).
        rewrite Hb in Hadj.
        apply elem_of_getAdjacentCells in Hadj as (p & q & Hpq & _ & Hgadj).
        destruct Hwf' as (_ & _ & _ & _ & Hpos).
        destruct (Hpos p q adj Hgadj) as [<- <-]. by exists (row adj), (col adj). }
    constructor; rewrite ?Hb; fold b'.
    + intros p q. unfold b'. rewrite getCell_updCell.
      destruct (decide (p = r ∧ q = c)) as [[-> ->]|]; [|apply Hc].
      rewrite Hget. simpl. split; [|done]. intros H0.
      apply (ci_shape _ _ _ _ _ Hc) in H0. congruence.
    + intros p q cell0 cellp Hg0 Hgp Hr0.
      apply getCell_updCell_Some in Hgp
        as (cellq & Hgq & [(_ & _ & ->)|(_ & ->)]); [done|].
      by apply (ci_mono _ _ _ _ _ Hc p q cell0).
    + intros p q Hn. apply newly_updCell_inv in Hn as [[-> ->]|Hn]; [done|].
      apply linked_updCell. by apply Hc.
    + apply mineShown_false. unfold b'.
      rewrite (countCells_updCell_same _ _ _ _ _ cell Hget).
      * apply mineShown_false, Hc.
      * unfold isRevealedMine. simpl. by rewrite Hm, !andb_false_r.
    + intros x p q Hx Hcb. destruct (Hentry x Hx) as [Hold|(Hz0 & p' & q' & Hadj & Hcb')].
      * destruct (ci_tasks _ _ _ _ _ Hc x p q Hold Hcb) as (zr & zc & Hl & Hz & Hadj).
        exists zr, zc. split; [by apply linked_updCell|].
        split; [by apply zeroAt_updCell|done].
      * assert (p' = p ∧ q' = q) as [-> ->] by (split; congruence).
        exists r, c. split; [done|]. split; [|done].
        exists (setRevealed true cell). split; [by apply getCell_updCell_eq|done].
    + intros p q cellp p' q' cell' Hn Hgp Hz Hadj Hgq.
      destruct (decide (p' = r ∧ q' = c)) as [[-> ->]|Hne'].
      { left. unfold b' in Hgq. rewrite (getCell_updCell_eq _ _ _ _ cell Hget) in Hgq.
        by injection Hgq as <-. }
      unfold b' in Hgq. rewrite getCell_updCell_ne in Hgq by done.
      destruct (decide (p = r ∧ q = c)) as [[-> ->]|Hne].
      * (* the neighbours of the cell just revealed are scheduled *)
        unfold b' in Hgp. rewrite (getCell_updCell_eq _ _ _ _ cell Hget) in Hgp.
        injection Hgp as <-. simpl in Hz.
        assert (Hadjc : cell' ∈ getAdjacentCells (rows g) (cols g) b' r c).
        { apply elem_of_getAdjacentCells. exists p', q'. split; [done|].
          split; [by apply (wfBoard_inBoard _ _ (board g) _ _ cell' (gi_wf g Hinv))|].
          unfold b'. by rewrite getCell_updCell_ne. }
        destruct (revealEntries_complete _ (nextTimerId g) (now g) 0 cell' Hadjc)
          as (x & Hx & Hcb).
        destruct (gi_wf g Hinv) as (_ & _ & _ & _ & Hpos).
        destruct (Hpos p' q' cell' Hgq) as [Hrow Hcol]. rewrite Hrow, Hcol in Hcb.
        right. right. left. exists x. split; [|done].
        apply Hkeep; try done; [by apply (isTimeout_reveal x p' q')|].
        right. by repeat split.
      * unfold b' in Hgp. rewrite getCell_updCell_ne in Hgp by done.
        apply newly_updCell_inv in Hn as [?|Hn]; [done|].
        destruct (ci_closed _ _ _ _ _ Hc p q cellp p' q' cell' Hn Hgp Hz Hadj Hgq)
          as [?|[?|[(x & Hx & Hcb)|?]]]; auto.
        right. right. left. exists x. split; [|done].
        apply Hkeep; try done; [by apply (isTimeout_reveal x p' q')|by left].
Qed.
Lemma CascInv_fireNext b0 sr sc g :
  GameInv g → TimerInv g → CascInv b0 sr sc noHole g →
  CascInv b0 sr sc noHole (fireNext g).
Proof.
  intros Hinv Htinv Hc.
  destruct (nextTimer (timers g)) as [[e rest]|] eqn:Hnext.
  2:{ unfold fireNext. by rewrite Hnext. }
  pose proof (fireNext_cases g e rest Hinv Htinv Hnext) as Hcase.
  pose proof Hnext as Hn. apply nextTimer_Some in Hn as [Hperm _].
  assert (He : e ∈ timers g) by (rewrite Hperm; by apply elem_of_cons; left).
  assert (Hrest : ∀ x, x ∈ rest → x ∈ timers g).
  { intros x Hx. rewrite Hperm. by apply elem_of_cons; right. }
  simpl in Hcase. destruct (callback e) as [r c|gen r c|] eqn:Hcb.
  - (* a cascade step *)
    rewrite Hcase. set (g1 := set_timers rest (set_now _ g)).
    assert (Hinv1 : GameInv g1).
    { apply (GameInv_frame g); try done. intros x Hx. exists x. split; [|done].
      by apply Hrest. }
    assert (Htinv1 : TimerInv g1).
    { apply (TimerInv_dequeue g e rest rest _ Htinv Hnext).
      destruct (ti_period g Htinv e He) as [[_ ?]|[-> _]]; [congruence|done]. }
    destruct (gi_reveal g Hinv e r c He Hcb) as (cell & Hget & Hm).
    assert (Hc1 : CascInv b0 sr sc (λ r' c', r' = r ∧ c' = c) g1).
    { apply (CascInv_timers b0 sr sc noHole _ g); try done.
      - intros x p q Hx Hcbx. exists x. split; [by apply Hrest|done].
      - intros x p q Hx Hcbx. rewrite Hperm in Hx.
        apply elem_of_cons in Hx as [->|Hx].
        + left. rewrite Hcb in Hcbx. by injection Hcbx as <- <-.
        + right. by exists x. }
    simpl. destruct (revealCell r c true g1) as [g'| |] eqn:Hr.
    + apply (CascInv_revealCell b0 sr sc g1 g' r c true cell); try done.
      right. apply (ci_tasks _ _ _ _ _ Hc e r c He Hcb).
    + apply revealCell_Throw in Hr as [Hnone _]. simpl in Hnone. congruence.
    + by apply revealCell_not_Hang in Hr.
  - (* no mine is shown while the cascade runs *)
    destruct (gi_show g Hinv e gen r c He Hcb) as (_ & Hs & _).
    rewrite (ci_safe _ _ _ _ _ Hc) in Hs. done.
  - (* the clock *)
    rewrite Hcase.
    set (g1 := set_timers _ (set_now _ g)).
    destruct (tick_fields g1) as (_ & _ & _ & _ & Htm & Hb & _).
    apply (CascInv_timers b0 sr sc noHole noHole g); try done.
    + intros x p q Hx Hcbx. rewrite Htm in Hx. exists x. split; [|done].
      simpl in Hx. apply elem_of_app in Hx as [Hx|Hx]; [by apply Hrest|].
      apply list_elem_of_singleton in Hx as ->. done.
    + intros x p q Hx Hcbx. right. exists x. split; [|done].
      rewrite Htm. simpl. apply elem_of_app. left.
      rewrite Hperm in Hx. apply elem_of_cons in Hx as [->|Hx]; [congruence|done].
Qed.

(** Before a cascade has revealed anything the invariant holds for want of
    newly revealed cells. *)
Lemma CascInv_quiet b0 sr sc hole g :
  (∀ r c, getCell b0 r c = None ↔ getCell (board g) r c = None) →
  (∀ r c cell0 cell, getCell b0 r c = Some cell0 → getCell (board g) r c = Some cell →
     isRevealed cell = isRevealed cell0) →
  mineShown (board g) = false → timeoutPending g = false →
  CascInv b0 sr sc hole g.
Proof.
  intros Hshape Hsame Hsafe Hquiet.
  assert (Hno : ∀ r c, ¬ newly b0 (board g) r c).
  { intros r c (cell0 & cell & H0 & Hr0 & H1 & Hr1).
    rewrite (Hsame r c cell0 cell H0 H1) in Hr1. congruence. }
  constructor; try done.
  - intros r c cell0 cell H0 H1 Hr0. by rewrite (Hsame r c cell0 cell H0 H1).
  - intros r c Hn. by apply Hno in Hn.
  - intros e r c He Hcb.
    assert (timeoutPending g = true); [|congruence].
    apply timeoutPending_elem. exists e. split; [done|].
    by apply (isTimeout_reveal e r c).
  - intros r c cell r' c' cell' Hn. by apply Hno in Hn.
Qed.

(** A click on an unrevealed, unflagged cell of a running game places the
    mines if it is the first one and then calls [revealCell] on the cell. *)
Lemma handleClick_reveal draws r c g g' cell0 :
  GameInv g → TimerInv g → isGameOver g = false →
  getCell (board g) r c = Some cell0 →
  isRevealed cell0 = false → isFlagged cell0 = false →
  handleClick draws r c g = Done g' →
  ∃ gp, GameInv gp ∧ TimerInv gp ∧ revealCell r c false gp = Done g' ∧
    isGameOver gp = false ∧ revealedCount gp = revealedCount g ∧
    (timeoutPending g = false → timeoutPending gp = false) ∧
    (∀ p q, getCell (board g) p q = None ↔ getCell (board gp) p q = None) ∧
    (∀ p q cell cell', getCell (board g) p q = Some cell →
       getCell (board gp) p q = Some cell' →
       isRevealed cell' = isRevealed cell ∧ isFlagged cell' = isFlagged cell) ∧
    (isFirstClick g = true →
       ∀ cell, getCell (board gp) r c = Some cell → isMine cell = false) ∧
    (isFirstClick g = false → gp = g).
Proof.
  intros Hinv Htinv Hover Hget Hrev Hflag. unfold handleClick.
  rewrite Hover, Hget, Hrev, Hflag. simpl.
  destruct (isFirstClick g) eqn:Hfirst; simpl.
  - unfold placeMines. simpl.
    destruct (placeMinesBoard _ _ _ _ _ _ _) as [b'| |] eqn:Hplace; simpl;
      try discriminate.
    intros Hr.
    destruct (GameInv_firstClick g draws r c b' Hinv Hfirst Hplace) as [Hinv' Hsafe].
    destruct (gi_config g Hinv) as (_ & _ & [Hm0 _] & _).
    pose proof (gi_mines g Hinv) as Hnone. rewrite Hfirst in Hnone.
    destruct (placeMinesBoard_spec _ _ _ _ _ _ _ _ Hm0 (gi_wf g Hinv) Hnone Hplace)
      as (Hwf' & _ & Hold & _).
    destruct (gi_fresh g Hinv Hfirst) as (_ & Hnil & _).
    eexists. split; [exact Hinv'|]. split; [by apply TimerInv_startTimer|].
    split; [exact Hr|]. split; [done|]. split; [done|]. split.
    { intros _. unfold timeoutPending. simpl. by rewrite Hnil. }
    split.
    { intros p q. simpl.
      pose proof (wfBoard_getCell _ _ _ p q (gi_wf g Hinv)) as H1.
      pose proof (wfBoard_getCell _ _ _ p q Hwf') as H2.
      destruct (getCell (board g) p q) eqn:E1, (getCell b' p q) eqn:E2; try done.
      - split; [done|]. intros _.
        destruct (proj1 H2 (proj2 H1 (ex_intro _ _ eq_refl))) as [? ?]. done.
      - split; [|done]. intros _.
        destruct (proj1 H1 (proj2 H2 (ex_intro _ _ eq_refl))) as [? ?]. done. }
    split.
    { intros p q cell cell' H1 H2. simpl in H2.
      destruct (Hold p q cell' H2) as (cell'' & H1' & ? & ? & _).
      assert (cell'' = cell) as -> by congruence. done. }
    split; [|done]. intros _ cell Hc. by destruct (Hsafe cell Hc).
  - intros Hr. exists g. do 7 (split; [done|]). split; [|done].
    intros p q cell cell' H1 H2. split; congruence.
Qed.
Lemma handleClick_returns draws r c g cell0 :
  GameInv g → getCell (board g) r c = Some cell0 →
  (isFirstClick g = true →
   ∀ p q, inBoard (rows g) (cols g) p q = true →
          (p, q) ∈ drawnCell (rows g) (cols g) <$> draws) →
  ∃ g', handleClick draws r c g = Done g'.
Proof.
  intros Hinv Hget Hcover. unfold handleClick.
  destruct (isGameOver g); [eauto|]. rewrite Hget.
  destruct (isFlagged cell0 || isRevealed cell0); [eauto|].
  pose proof (wfBoard_inBoard _ _ _ _ _ _ (gi_wf g Hinv) Hget) as Hin.
  destruct (isFirstClick g) eqn:Hfirst; simpl.
  - destruct (gi_config g Hinv) as (Hrows & Hcols & [Hm0 Hm1] & _).
    pose proof (gi_mines g Hinv) as Hnone. rewrite Hfirst in Hnone.
    destruct (placeMinesBoard_terminates (rows g) (cols g) (mines g) draws r c
                (board g) Hrows Hcols Hm1 (gi_wf g Hinv) Hnone (Hcover eq_refl))
      as [b' Hplace].
    unfold placeMines. simpl. rewrite Hplace. simpl.
    destruct (placeMinesBoard_spec _ _ _ _ _ _ _ _ Hm0 (gi_wf g Hinv) Hnone Hplace)
      as (Hwf' & _).
    destruct (revealCell r c false _) as [g'| |] eqn:Hr; [eauto| |].
    + apply revealCell_Throw in Hr as [Hno _]. simpl in Hno.
      apply (wfBoard_getCell _ _ _ _ _ Hwf') in Hin as [? ?]. congruence.
    + by apply revealCell_not_Hang in Hr.
  - destruct (revealCell r c false g) as [g'| |] eqn:Hr; [eauto| |].
    + apply revealCell_Throw in Hr as [Hno _]. congruence.
    + by apply revealCell_not_Hang in Hr.
Qed.

Lemma CascInv_settle b0 sr sc fuel g :
  GameInv g → TimerInv g → CascInv b0 sr sc noHole g →
  GameInv (settle fuel g) ∧ TimerInv (settle fuel g) ∧
  CascInv b0 sr sc noHole (settle fuel g).
Proof.
  intros Hinv Htinv Hc.
  apply (settle_invariant (λ g, GameInv g ∧ TimerInv g ∧ CascInv b0 sr sc noHole g));
    [|done].
  intros g1 (H1 & H2 & H3) _. split; [by apply GameInv_fireNext|].
  split; [by apply TimerInv_fireNext|by apply CascInv_fireNext].
Qed.

(** The invariant holds right after a click on a safe cell. *)
Lemma CascInv_handleClick draws r c g g' cell0 :
  GameInv g → TimerInv g → isGameOver g = false → timeoutPending g = false →
  getCell (board g) r c = Some cell0 →
  isRevealed cell0 = false → isFlagged cell0 = false →
  (isFirstClick g = true ∨ isMine cell0 = false) →
  handleClick draws r c g = Done g' →
  CascInv (board g) r c noHole g'.
Proof.
  intros Hinv Htinv Hover Hquiet Hget Hrev Hflag Hsafe Hclick.
  destruct (handleClick_reveal draws r c g g' cell0 Hinv Htinv Hover Hget Hrev Hflag
              Hclick)
    as (gp & Hinvp & Htinvp & Hr & Hoverp & _ & Hq & Hshape & Hflags & Hfirst & Hsame).
  assert (Hgetp : ∃ cellp, getCell (board gp) r c = Some cellp).
  { destruct (getCell (board gp) r c) eqn:E; [eauto|].
    apply Hshape in E. congruence. }
  destruct Hgetp as [cellp Hgetp].
  assert (Hmp : isMine cellp = false).
  { destruct (isFirstClick g) eqn:Hf.
    - by apply Hfirst.
    - destruct Hsafe as [?|Hm]; [done|]. rewrite (Hsame eq_refl) in Hgetp. congruence. }
  apply (CascInv_revealCell (board g) r c gp g' r c false cellp); try done; [|by left].
  apply CascInv_quiet; try done.
  - intros p q cell cell' H1 H2. by destruct (Hflags p q cell cell' H1 H2).
  - destruct (mineShown (board gp)) eqn:Hs; [|done].
    apply (gi_lost gp Hinvp) in Hs. congruence.
  - by apply Hq.
Qed.

(** The event loop never hides a revealed cell. *)
Lemma settle_keeps_revealed fuel g r c cell :
  GameInv g → TimerInv g →
  getCell (board g) r c = Some cell → isRevealed cell = true →
  ∃ cell', getCell (board (settle fuel g)) r c = Some cell' ∧ isRevealed cell' = true.
Proof.
  intros Hinv Htinv Hget Hrev.
  apply (settle_invariant (λ g, GameInv g ∧ TimerInv g ∧
           ∃ cell', getCell (board g) r c = Some cell' ∧ isRevealed cell' = true));
    [|by eauto].
  intros g1 (H1 & H2 & cell1 & Hg1 & Hr1) _.
  split; [by apply GameInv_fireNext|]. split; [by apply TimerInv_fireNext|].
  destruct (fireNext_summary g1 H1 H2) as (_ & [->|(p & q & cellp & _ & ->)] & _);
    [by eauto|].
  destruct (getCell_updCell_Some_rev (setRevealed true) (board g1) p q r c cell1 Hg1)
    as (cell2 & Hg2 & [(_ & _ & ->)|(_ & ->)]); by eauto.
Qed.

(** A click on a safe, unrevealed, unflagged cell reveals it. *)
Lemma handleClick_newly draws r c g g' cell0 :
  GameInv g → TimerInv g → isGameOver g = false →
  getCell (board g) r c = Some cell0 →
  isRevealed cell0 = false → isFlagged cell0 = false →
  (isFirstClick g = true ∨ isMine cell0 = false) →
  handleClick draws r c g = Done g' →
  ∃ cell1, getCell (board g') r c = Some cell1 ∧ isRevealed cell1 = true.
Proof.
  intros Hinv Htinv Hover Hget Hrev Hflag Hsafe Hclick.
  destruct (handleClick_reveal draws r c g g' cell0 Hinv Htinv Hover Hget Hrev Hflag
              Hclick)
    as (gp & Hinvp & Htinvp & Hr & Hoverp & _ & Hq & Hshape & Hflags & Hfirst & Hsame).
  assert (Hgetp : ∃ cellp, getCell (board gp) r c = Some cellp).
  { destruct (getCell (board gp) r c) eqn:E; [eauto|].
    apply Hshape in E. congruence. }
  destruct Hgetp as [cellp Hgetp].
  assert (Hmp : isMine cellp = false).
  { destruct (isFirstClick g) eqn:Hf.
    - by apply Hfirst.
    - destruct Hsafe as [?|Hm]; [done|]. rewrite (Hsame eq_refl) in Hgetp. congruence. }
  destruct (Hflags r c cell0 cellp Hget Hgetp) as [Hrp Hfp].
  destruct (revealCell_safe_effect r c false gp g' cellp Hr Hgetp Hmp)
    as [[Hrf _]|(_ & _ & Hb & _)].
  - rewrite Hrp, Hfp, Hrev, Hflag in Hrf. done.
  - exists (setRevealed true cellp). rewrite Hb.
    split; [by apply getCell_updCell_eq|done].
Qed.

(** ** More about [getAdjacentCells] *)

Lemma adjacentSlot_length_eq rows cols b r c r' c' :
  wfBoard rows cols b →
  length (adjacentSlot rows cols b r c r' c') =
  if inBoard rows cols r' c' && negb ((r' =? r) && (c' =? c)) then 1%nat else 0%nat.
Proof.
  intros Hwf. unfold adjacentSlot.
  destruct (inBoard rows cols r' c') eqn:Hin; simpl; [|done].
  destruct (negb _); [|done].
  apply (wfBoard_getCell _ _ _ _ _ Hwf) in Hin as [cell ->]. done.
Qed.

Lemma span_cases n x :
  0 ≤ x < n →
  span n x = (if 0 <=? x - 1 then 1 else 0) + 1 + (if x + 1 <? n then 1 else 0).
Proof.
  intros Hx. unfold span.
  destruct (Z.leb_spec 0 (x - 1)), (Z.ltb_spec (x + 1) n); lia.
Qed.

Lemma getAdjacentCells_count_aux rows cols b r c :
  wfBoard rows cols b → inBoard rows cols r c = true →
  Z.of_nat (length (getAdjacentCells rows cols b r c)) = span rows r * span cols c - 1.
Proof.
  intros Hwf Hin. rewrite getAdjacentCells_unfold, !length_app.
  rewrite !(adjacentSlot_length_eq _ _ _ _ _ _ _ Hwf).
  apply inBoard_spec in Hin.
  rewrite (span_cases rows r), (span_cases cols c) by lia. unfold inBoard.
  repeat match goal with
  | |- context [?x <=? ?y] => destruct (Z.leb_spec x y); try lia
  | |- context [?x <? ?y] => destruct (Z.ltb_spec x y); try lia
  | |- context [?x =? ?y] => destruct (Z.eqb_spec x y); try lia
  end; reflexivity.
Qed.

Lemma span_inner n x : 0 < x < n - 1 → span n x = 3.
Proof. unfold span. lia. Qed.

Lemma span_edge n x : 2 ≤ n → x = 0 ∨ x = n - 1 → span n x = 2.
Proof. unfold span. lia. Qed.

Lemma NoDup_adjacentSlot rows cols b r c r' c' :
  NoDup (adjacentSlot rows cols b r c r' c').
Proof.
  unfold adjacentSlot. destruct (_ && _); [|constructor].
  destruct (getCell b r' c'); [apply NoDup_singleton|constructor].
Qed.

Lemma elem_of_adjacentSlot_pos rows cols b r c r' c' cell :
  wfBoard rows cols b → cell ∈ adjacentSlot rows cols b r c r' c' →
  row cell = r' ∧ col cell = c'.
Proof.
  intros (_ & _ & _ & _ & Hpos). unfold adjacentSlot.
  destruct (_ && _); [|by intros ?%elem_of_nil].
  destruct (getCell b r' c') as [cell'|] eqn:Hget; [|by intros ?%elem_of_nil].
  intros ->%list_elem_of_singleton. by apply Hpos.
Qed.

Lemma NoDup_getAdjacentCells rows cols b r c :
  wfBoard rows cols b → NoDup (getAdjacentCells rows cols b r c).
Proof.
  intros Hwf. rewrite getAdjacentCells_unfold.
  repeat (apply list.NoDup_app; split; [apply NoDup_adjacentSlot|split]);
    try apply NoDup_adjacentSlot.
  all: intros cell Hc Hc';
    apply (elem_of_adjacentSlot_pos _ _ _ _ _ _ _ _ Hwf) in Hc as [Hr1 Hc1];
    repeat (apply elem_of_app in Hc' as [Hc'|Hc']);
    apply (elem_of_adjacentSlot_pos _ _ _ _ _ _ _ _ Hwf) in Hc' as [Hr2 Hc2]; lia.
Qed.

(** ** The invariant of the page *)

Lemma placeMinesLoop_count P rows cols mines zone draws :
  (∀ v cell, P (setMine v cell) = P cell) →
  ∀ placed b b', placeMinesLoop rows cols mines zone draws placed b = Done b' →
    countCells P b' = countCells P b.
Proof.
  intros HP. induction draws as [|[x y] draws IH]; intros placed b b'; simpl.
  - destruct (placed <? mines); [discriminate|]. by intros [= <-].
  - destruct (placed <? mines); [|by intros [= <-]].
    destruct (getCell b _ _) as [cell|] eqn:Hget; [|discriminate].
    destruct (negb (isMine cell) && negb _).
    + intros H. rewrite (IH _ _ _ H). by apply (countCells_updCell_same _ _ _ _ _ cell).
    + apply IH.
Qed.

Lemma placeMinesBoard_count P rows cols mines draws er ec b b' :
  (∀ v cell, P (setMine v cell) = P cell) →
  (∀ v cell, P (setAdjacentMines v cell) = P cell) →
  placeMinesBoard rows cols mines draws er ec b = Done b' →
  countCells P b' = countCells P b.
Proof.
  intros HP1 HP2. unfold placeMinesBoard.
  destruct (placeMinesLoop _ _ _ _ _ _ _) as [b1| |] eqn:Hloop; simpl; try discriminate.
  intros [= <-]. rewrite calculateAdjacentMines_count by done.
  by apply (placeMinesLoop_count P _ _ _ _ _ HP1 _ _ _ Hloop).
Qed.

Lemma PageInv_core g g' :
  PageInv g →
  rows g' = rows g → cols g' = cols g → mines g' = mines g →
  totalNonMines g' = totalNonMines g →
  isFirstClick g' = isFirstClick g → boardGen g' = boardGen g →
  (isGameOver g = true → isGameOver g' = true) →
  wfBoard (rows g) (cols g) (board g') →
  countCells isMine (board g') = countCells isMine (board g) →
  minesLeft g' - minesLeft g
  = countCells isFlagged (board g) - countCells isFlagged (board g') →
  (∀ r c cell', getCell (board g') r c = Some cell' →
     isRevealed cell' = true → isFlagged cell' = true →
     (∃ cell, getCell (board g) r c = Some cell ∧ isMine cell' = isMine cell ∧
              isRevealed cell = true ∧ isFlagged cell = true) ∨
     (isMine cell' = true ∧ isGameOver g' = true)) →
  (∀ r c cell, getCell (board g) r c = Some cell → isMine cell = true →
     ∃ cell', getCell (board g') r c = Some cell' ∧ isMine cell' = true) →
  (∀ e gen r c, e ∈ timers g' → callback e = TShowMine gen r c →
     (∃ e0, e0 ∈ timers g ∧ callback e0 = TShowMine gen r c) ∨
     (gen = boardGen g ∧ isFirstClick g = false ∧ isGameOver g' = true ∧
      ∃ cell, getCell (board g') r c = Some cell ∧ isMine cell = true)) →
  PageInv g'.
Proof.
  intros [] Hr Hc Hm Ht Hf Hgen Hover Hwf Hmines Hflags Hshown Hkeep Htm.
  unfold validConfig in *.
  constructor; unfold validConfig; rewrite ?Hr, ?Hc, ?Hm, ?Ht, ?Hf, ?Hgen, ?Hmines;
    try assumption.
  - lia.
  - intros r c cell' Hget Hrev Hflag.
    destruct (Hshown r c cell' Hget Hrev Hflag)
      as [(cell & Hget0 & Hmine & Hrev0 & Hflag0)|?]; [|done].
    destruct (pi_shown0 r c cell Hget0 Hrev0 Hflag0) as [Hm0 Ho0].
    split; [congruence|by apply Hover].
  - intros e gen r c He Hcb.
    destruct (Htm e gen r c He Hcb) as [(e0 & He0 & Hcb0)|(-> & Hf0 & Ho & Hcell)].
    + destruct (pi_gen0 e0 gen r c He0 Hcb0) as [Hle Hcur]. split; [done|].
      intros Heq. destruct (Hcur Heq) as (Hf0 & Ho0 & cell & Hget & Hmine).
      split; [done|]. split; [by apply Hover|]. by apply (Hkeep r c cell).
    + split; [done|]. intros _. by repeat split.
Qed.

Lemma PageInv_frame g g' :
  PageInv g →
  board g' = board g → rows g' = rows g → cols g' = cols g → mines g' = mines g →
  minesLeft g' = minesLeft g → totalNonMines g' = totalNonMines g →
  isFirstClick g' = isFirstClick g → boardGen g' = boardGen g →
  (isGameOver g = true → isGameOver g' = true) →
  (∀ e gen r c, e ∈ timers g' → callback e = TShowMine gen r c →
     ∃ e0, e0 ∈ timers g ∧ callback e0 = TShowMine gen r c) →
  PageInv g'.
Proof.
  intros Hinv Hb Hr Hc Hm Hml Ht Hf Hgen Hover Htm.
  apply (PageInv_core g); try done; rewrite ?Hb; try done.
  - apply (pi_wf g Hinv).
  - lia.
  - intros r c cell Hget Hrev Hflag. left. by exists cell.
  - intros r c cell Hget Hmine. by exists cell.
  - intros e gen r c He Hcb. left. by apply (Htm e).
Qed.

(** A write to one cell that leaves its coordinates and its mine alone. *)
Lemma PageInv_update g g' f r c cell :
  PageInv g → getCell (board g) r c = Some cell →
  (∀ x, row (f x) = row x ∧ col (f x) = col x) → isMine (f cell) = isMine cell →
  board g' = updCell f r c (board g) →
  rows g' = rows g → cols g' = cols g → mines g' = mines g →
  totalNonMines g' = totalNonMines g →
  isFirstClick g' = isFirstClick g → boardGen g' = boardGen g →
  (isGameOver g = true → isGameOver g' = true) →
  minesLeft g' = minesLeft g + indicator isFlagged cell - indicator isFlagged (f cell) →
  (isRevealed (f cell) = true → isFlagged (f cell) = true →
     (isRevealed cell = true ∧ isFlagged cell = true) ∨
     (isMine cell = true ∧ isGameOver g' = true)) →
  (∀ e gen r c, e ∈ timers g' → callback e = TShowMine gen r c →
     (∃ e0, e0 ∈ timers g ∧ callback e0 = TShowMine gen r c) ∨
     (gen = boardGen g ∧ isFirstClick g = false ∧ isGameOver g' = true ∧
      ∃ cell, getCell (board g') r c = Some cell ∧ isMine cell = true)) →
  PageInv g'.
Proof.
  intros Hinv Hget Hpos Hmine Hb Hr Hc Hm Ht Hf Hgen Hover Hml Hshown Htm.
  apply (PageInv_core g); try done; rewrite ?Hb.
  - by apply wfBoard_updCell, (pi_wf g Hinv).
  - apply (countCells_updCell_same _ _ _ _ _ cell Hget). done.
  - rewrite (countCells_updCell _ _ _ _ _ _ Hget). lia.
  - intros r' c' cell' Hget' Hrev Hflag.
    apply getCell_updCell_Some in Hget'
      as (cell0 & Hget0 & [(-> & -> & ->)|(_ & ->)]).
    + assert (cell0 = cell) as -> by congruence.
      destruct (Hshown Hrev Hflag) as [[? ?]|[? ?]].
      * left. by exists cell.
      * right. split; [congruence|done].
    + left. by exists cell0.
  - intros r' c' cell0 Hget0 Hmine0.
    destruct (getCell_updCell_Some_rev f (board g) r c r' c' cell0 Hget0)
      as (cell' & Hget' & [(-> & -> & ->)|(_ & ->)]).
    + assert (cell0 = cell) as -> by congruence.
      exists (f cell). split; [done|congruence].
    + by exists cell0.
Qed.

Lemma PageInv_newGame g :
  0 < rows g → 0 < cols g → 0 ≤ mines g < rows g * cols g - 9 →
  (∀ e gen r c, e ∈ timers g → callback e = TShowMine gen r c →
     (gen ≤ boardGen g)%nat) →
  PageInv (newGame g).
Proof.
  intros Hrows Hcols Hmines Hgen.
  destruct (stopTimer_fields g) as (_ & Hr & Hc & Hm & _ & _ & _ & _ & _ & _ & _ & Hg & _).
  assert (Hzero : ∀ P, (∀ r c, P (mkCell r c false false false 0) = false) →
                       countCells P (initBoard (rows g) (cols g)) = 0).
  { intros P HP. apply countCells_zero. intros r c cell Hget.
    by rewrite (getCell_initBoard _ _ _ _ _ Hget). }
  constructor; unfold newGame, validConfig; simpl; rewrite ?Hr, ?Hc, ?Hm, ?Hg.
  - lia.
  - apply wfBoard_initBoard; lia.
  - intros _. by apply Hzero.
  - rewrite Hzero by done. lia.
  - intros r c cell Hget. by rewrite (getCell_initBoard _ _ _ _ _ Hget).
  - intros e gen r c He Hcb. apply stopTimer_subset in He.
    specialize (Hgen e gen r c He Hcb). split; lia.
Qed.

Lemma PageInv_firstClick g draws r c b' :
  PageInv g → isFirstClick g = true →
  placeMinesBoard (rows g) (cols g) (mines g) draws r c (board g) = Done b' →
  PageInv (startTimer (set_board b' (set_isFirstClick false g))).
Proof.
  intros Hinv Hfirst Hplace.
  destruct (pi_config g Hinv) as (Hrows & Hcols & [Hm0 Hm1] & Htot).
  destruct (placeMinesBoard_spec _ _ _ _ _ _ _ _ Hm0 (pi_wf g Hinv)
              (pi_first g Hinv Hfirst) Hplace) as (Hwf' & _ & Hold & _).
  constructor; simpl.
  - done.
  - done.
  - discriminate.
  - rewrite (placeMinesBoard_count isFlagged _ _ _ _ _ _ _ _ ltac:(done) ltac:(done) Hplace).
    apply (pi_flags g Hinv).
  - intros p q cell' Hget Hrev Hflag.
    destruct (Hold p q cell' Hget) as (cell & Hget0 & Hr0 & Hf0 & _).
    destruct (pi_shown g Hinv p q cell Hget0) as [Hmine _]; [congruence|congruence|].
    pose proof (countCells_zero_inv isMine (board g) p q cell
                  (pi_first g Hinv Hfirst) Hget0). congruence.
  - intros e gen p q He Hcb. apply elem_of_app in He as [He|He].
    + destruct (pi_gen g Hinv e gen p q He Hcb) as [Hle Hcur]. split; [done|].
      intros Heq. destruct (Hcur Heq) as (? & _). congruence.
    + apply list_elem_of_singleton in He as ->. done.
Qed.

Lemma PageInv_handleRightClick r c g g' :
  PageInv g → handleRightClick r c g = Done g' → PageInv g'.
Proof.
  intros Hinv. unfold handleRightClick.
  destruct (isGameOver g); [by intros [= <-]|].
  destruct (getCell (board g) r c) as [cell|] eqn:Hget; [|discriminate].
  destruct (isRevealed cell) eqn:Hrev; intros [= <-]; [done|].
  apply (PageInv_update g _ (setFlagged (negb (isFlagged cell))) r c cell);
    try done; simpl.
  - unfold indicator. simpl. destruct (isFlagged cell); simpl; lia.
  - congruence.
  - intros e gen p q He Hcb. left. by exists e.
Qed.

(** The timers [revealCell] leaves: old ones, cascade steps, and after a
    mine the timeouts of [gameOver]. *)
Lemma revealCell_effect r c isChain g g' :
  revealCell r c isChain g = Done g' →
  g' = g ∨
  ∃ cell, getCell (board g) r c = Some cell ∧
    isRevealed cell = false ∧ isFlagged cell = false ∧
    board g' = updCell (setRevealed true) r c (board g) ∧
    revealedCount g' = revealedCount g + 1 ∧
    (∀ e gen p q, e ∈ timers g' → callback e = TShowMine gen p q →
       e ∈ timers g ∨
       (isMine cell = true ∧ isGameOver g' = true ∧ gen = boardGen g ∧
        ∃ cell', cell' ∈ allCells (board g') ∧ isMine cell' = true ∧
                 row cell' = p ∧ col cell' = q)).
Proof.
  rewrite revealCell_unfold.
  destruct (getCell (board g) r c) as [cell|] eqn:Hget; [|discriminate].
  destruct (isRevealed cell || isFlagged cell) eqn:Hrf; [intros [= <-]; by left|].
  apply orb_false_iff in Hrf as [Hrev Hflag].
  intros Hr. right. exists cell. do 3 (split; [done|]).
  destruct (isMine cell) eqn:Hmine.
  - injection Hr as <-.
    destruct (gameOver_fields r c (markRevealed r c g))
      as (Hb & _ & _ & _ & _ & Ho & _ & _ & Hrc & _ & _ & _ & _ & Htm).
    split; [by rewrite Hb|]. split; [by rewrite Hrc|].
    intros e gen p q He Hcb. rewrite Htm in He. apply elem_of_app in He as [He|He].
    + left. by apply stopTimer_subset in He.
    + right. apply mineEntries_elem in He as (cell' & Hin & Hm' & Hcb').
      rewrite Hcb in Hcb'. injection Hcb' as -> -> ->.
      split; [done|]. split; [done|]. split; [done|].
      exists cell'. by rewrite Hb.
  - set (g2 := if adjacentMines cell =? 0 then _ else _) in Hr.
    assert (H2 : board g2 = updCell (setRevealed true) r c (board g) ∧
                 revealedCount g2 = revealedCount g + 1 ∧
                 ∀ e gen p q, e ∈ timers g2 → callback e = TShowMine gen p q →
                              e ∈ timers g).
    { subst g2. destruct (adjacentMines cell =? 0); [|done].
      destruct (scheduleReveals_fields 0
                  (getAdjacentCells (rows g) (cols g)
                     (updCell (setRevealed true) r c (board g)) r c)
                  (markRevealed r c g))
        as (Hb & _ & _ & _ & _ & _ & _ & _ & _ & Hrc & _ & _ & _ & _ & Htm).
      split; [done|]. split; [done|].
      intros e gen p q He Hcb. rewrite Htm in He. apply elem_of_app in He as [He|He];
        [done|].
      apply revealEntries_elem in He as (adj & _ & Hcb'). congruence. }
    destruct H2 as (Hb2 & Hrc2 & Htm2).
    destruct (revealedCount g + 1 =? totalNonMines g); injection Hr as <-.
    + destruct (win_fields g2)
        as (Hb & _ & _ & _ & _ & _ & _ & _ & Hrc & _ & _ & _ & _ & Htm).
      split; [by rewrite Hb|]. split; [by rewrite Hrc|].
      intros e gen p q He Hcb. left. rewrite Htm in He.
      apply stopTimer_subset in He. by apply (Htm2 e gen p q).
    + split; [done|]. split; [done|].
      intros e gen p q He Hcb. left. by apply (Htm2 e gen p q).
Qed.

Lemma PageInv_revealCell r c isChain g g' :
  PageInv g → revealCell r c isChain g = Done g' → PageInv g'.
Proof.
  intros Hinv Hr.
  destruct (revealCell_fields r c isChain g g' Hr)
    as (Hrows & Hcols & Hm & Hml & Hf & _ & Ht & Hg & _ & Ho).
  destruct (revealCell_effect r c isChain g g' Hr)
    as [->|(cell & Hget & Hrev & Hflag & Hb & _ & Htm)]; [done|].
  apply (PageInv_update g g' (setRevealed true) r c cell); try done; simpl.
  - unfold indicator. simpl. lia.
  - congruence.
  - intros e gen p q He Hcb.
    destruct (Htm e gen p q He Hcb) as [?|(Hmine & Hover & -> & cell' & Hin & Hm' & <- & <-)].
    + left. by exists e.
    + right. split; [done|]. split.
      { destruct (isFirstClick g) eqn:Hfirst; [|done].
        pose proof (countCells_zero_inv isMine (board g) r c cell
                      (pi_first g Hinv Hfirst) Hget). congruence. }
      split; [done|]. exists cell'. split; [|done].
      apply elem_of_allCells in Hin as (p & q & Hpq).
      assert (Hwf' : wfBoard (rows g) (cols g) (board g')).
      { rewrite Hb. by apply wfBoard_updCell, (pi_wf g Hinv). }
      destruct Hwf' as (_ & _ & _ & _ & Hpos).
      by destruct (Hpos p q cell' Hpq) as [-> ->].
Qed.

Lemma PageInv_handleClick draws r c g g' :
  PageInv g → handleClick draws r c g = Done g' → PageInv g'.
Proof.
  intros Hinv. unfold handleClick.
  destruct (isGameOver g) eqn:Hover; [by intros [= <-]|].
  destruct (getCell (board g) r c) as [cell|] eqn:Hget; [|discriminate].
  destruct (isFlagged cell || isRevealed cell); [by intros [= <-]|].
  destruct (isFirstClick g) eqn:Hfirst; simpl.
  - unfold placeMines. simpl.
    destruct (placeMinesBoard _ _ _ _ _ _ _) as [b'| |] eqn:Hplace; simpl;
      try discriminate.
    apply PageInv_revealCell. by apply (PageInv_firstClick g draws r c b').
  - by apply PageInv_revealCell.
Qed.

Lemma PageInv_fireNext g : PageInv g → PageInv (fireNext g).
Proof.
  intros Hinv. unfold fireNext.
  destruct (nextTimer (timers g)) as [[e rest]|] eqn:Hnext; [|done].
  set (g1 := set_timers _ _).
  assert (Hsub : ∀ x, x ∈ timers g1 → ∃ x0, x0 ∈ timers g ∧ callback x = callback x0).
  { intros x Hx. by apply (dequeue_callbacks _ _ _ _ _ Hnext Hx). }
  assert (Hinv1 : PageInv g1).
  { apply (PageInv_frame g); try done.
    intros x gen r c Hx Hcb. destruct (Hsub x Hx) as (x0 & Hx0 & Heq).
    exists x0. split; [done|congruence]. }
  apply nextTimer_Some in Hnext as [Hperm _].
  assert (He : e ∈ timers g) by (rewrite Hperm; by apply elem_of_cons; left).
  destruct (callback e) as [r c|gen r c|] eqn:Hcb; simpl.
  - destruct (revealCell r c true g1) as [g'| |] eqn:Hr; try done.
    by apply (PageInv_revealCell r c true g1).
  - replace (boardGen g1) with (boardGen g) by done.
    destruct (Nat.eqb_spec gen (boardGen g)) as [Hgen|_]; [|done].
    destruct (pi_gen g Hinv e gen r c He Hcb) as [_ Hcur].
    destruct (Hcur Hgen) as (Hfirst & Hover & cell & Hget & Hmine).
    apply (PageInv_update g1 _ (setRevealed true) r c cell); try done; simpl.
    + unfold indicator. simpl. lia.
    + intros _ _. right. done.
    + intros x gen' p q Hx Hcbx. left. by exists x.
  - destruct (tick_fields g1) as (_ & Hf & Ho & _ & Htm & Hb & _).
    apply (PageInv_frame g1); try done.
    + unfold tick. simpl. by destruct (999 <? timer g + 1).
    + unfold tick. simpl. by destruct (999 <? timer g + 1).
    + unfold tick. simpl. by destruct (999 <? timer g + 1).
    + unfold tick. simpl. by destruct (999 <? timer g + 1).
    + unfold tick. simpl. by destruct (999 <? timer g + 1).
    + unfold tick. simpl. by destruct (999 <? timer g + 1).
    + congruence.
    + intros x gen r c Hx Hcbx. rewrite Htm in Hx. by exists x.
Qed.

Lemma PageInv_gens g e gen r c :
  PageInv g → e ∈ timers g → callback e = TShowMine gen r c → (gen ≤ boardGen g)%nat.
Proof. intros Hinv He Hcb. by destruct (pi_gen g Hinv e gen r c He Hcb). Qed.

Lemma PageInv_step g e g' : PageInv g → step g e = Some g' → PageInv g'.
Proof.
  intros Hinv. destruct e as [r c draws|r c| | | |d| |dt]; simpl.
  - destruct (handleClick draws r c g) as [g1| |] eqn:Hc; intros [= <-]; [|done].
    by apply (PageInv_handleClick _ _ _ _ _ Hinv Hc).
  - destruct (handleRightClick r c g) as [g1| |] eqn:Hc; intros [= <-]; [|done].
    by apply (PageInv_handleRightClick _ _ _ _ Hinv Hc).
  - intros [= <-]. unfold handleMouseDown.
    destruct (isGameOver g) eqn:Ho; [done|].
    apply (PageInv_frame g); try done. intros x gen r c Hx Hcb. by exists x.
  - intros [= <-]. unfold handleMouseUp.
    destruct (isGameOver g) eqn:Ho; [done|].
    apply (PageInv_frame g); try done. intros x gen r c Hx Hcb. by exists x.
  - intros [= <-]. destruct (pi_config g Hinv) as (? & ? & ? & _).
    apply PageInv_newGame; try done. intros x gen r c. by apply PageInv_gens.
  - intros [= <-]. unfold setDifficulty.
    pose proof (validConfig_preset d) as Hp.
    destruct (difficulties d) as [[r c] m]. destruct Hp as (? & ? & ?).
    apply PageInv_newGame; try done. simpl. intros x gen p q. by apply PageInv_gens.
  - intros [= <-]. by apply PageInv_fireNext.
  - intros [= <-]. apply (PageInv_frame g); try done.
    intros x gen r c Hx Hcb. by exists x.
Qed.

Lemma PageInv_construct : PageInv construct.
Proof.
  apply PageInv_newGame; simpl; try lia.
  intros e gen r c He. by apply elem_of_nil in He.
Qed.

Lemma PageInv_run evs : ∀ g g', PageInv g → run g evs = Some g' → PageInv g'.
Proof.
  induction evs as [|e evs IH]; intros g g' Hinv; simpl; [by intros [= <-]|].
  destruct (step g e) as [g1|] eqn:Hs; [|discriminate].
  apply IH. by apply (PageInv_step g e).
Qed.

Lemma PageInv_reachable g : reachable g → PageInv g.
Proof. intros [evs Hrun]. apply (PageInv_run evs construct g PageInv_construct Hrun). Qed.

(** ** The layout of a game *)

Lemma sameGame_refl g : sameGame g g.
Proof. split; [done|]. split; [|done]. intros r c cell ? ?. by exists cell. Qed.

Lemma sameGame_trans g1 g2 g3 : sameGame g1 g2 → sameGame g2 g3 → sameGame g1 g3.
Proof.
  intros (Hl1 & Hs1 & ? & ? & ? & ? & ?) (Hl2 & Hs2 & ? & ? & ? & ? & ?).
  split; [intros r c; by rewrite Hl1|]. split; [|repeat split; congruence].
  intros r c cell Hget Hrev. destruct (Hs1 r c cell Hget Hrev) as (cell' & Hget' & Hrev').
  by apply (Hs2 r c cell').
Qed.

Lemma sameGame_fields g g' :
  board g' = board g → rows g' = rows g → cols g' = cols g → mines g' = mines g →
  isFirstClick g' = isFirstClick g → boardGen g' = boardGen g → sameGame g g'.
Proof.
  intros Hb ? ? ? ? ?. unfold sameGame. rewrite Hb. split; [done|].
  split; [|done]. intros r c cell ? ?. by exists cell.
Qed.

Lemma sameGame_update g g' f r c :
  keepsLayout f → (∀ cell, isRevealed cell = true → isRevealed (f cell) = true) →
  board g' = updCell f r c (board g) →
  rows g' = rows g → cols g' = cols g → mines g' = mines g →
  isFirstClick g' = isFirstClick g → boardGen g' = boardGen g → sameGame g g'.
Proof.
  intros Hf Hrev Hb ? ? ? ? ?. unfold sameGame. rewrite Hb.
  split; [|split; [|done]].
  - intros p q. rewrite getCell_updCell.
    destruct (decide (p = r ∧ q = c)) as [[-> ->]|]; [|done].
    destruct (getCell (board g) r c) as [cell|]; [|done]. simpl.
    destruct (Hf cell) as (Hr & Hc & Hm & Ha). unfold layoutOf. by rewrite Hr, Hc, Hm, Ha.
  - intros p q cell Hget Hr.
    destruct (getCell_updCell_Some_rev f (board g) r c p q cell Hget)
      as (cell' & Hget' & [(_ & _ & ->)|(_ & ->)]); eexists; eauto.
Qed.

Lemma sameGame_revealCell r c isChain g g' :
  revealCell r c isChain g = Done g' → sameGame g g'.
Proof.
  intros Hr.
  destruct (revealCell_fields r c isChain g g' Hr)
    as (Hrows & Hcols & Hm & _ & Hf & _ & _ & Hg & _).
  destruct (revealCell_effect r c isChain g g' Hr)
    as [->|(cell & _ & _ & _ & Hb & _)]; [apply sameGame_refl|].
  apply (sameGame_update g g' (setRevealed true) r c); try done;
    try apply keepsLayout_setRevealed.
Qed.

Lemma sameGame_fireNext g : sameGame g (fireNext g).
Proof.
  unfold fireNext. destruct (nextTimer (timers g)) as [[e rest]|]; [|apply sameGame_refl].
  set (g1 := set_timers _ _).
  apply (sameGame_trans g g1); [by apply sameGame_fields|].
  destruct (callback e) as [r c|gen r c|]; simpl.
  - destruct (revealCell r c true g1) as [g'| |] eqn:Hr; try apply sameGame_refl.
    by apply (sameGame_revealCell r c true).
  - destruct (Nat.eqb gen (boardGen g)); [|apply sameGame_refl].
    apply (sameGame_update g1 _ (setRevealed true) r c); try done;
      try apply keepsLayout_setRevealed.
  - apply sameGame_fields; unfold tick; simpl; by destruct (999 <? timer g + 1).
Qed.

Lemma sameGame_settle fuel : ∀ g, sameGame g (settle fuel g).
Proof.
  induction fuel as [|fuel IH]; intros g; simpl; [apply sameGame_refl|].
  destruct (timeoutPending g); [|apply sameGame_refl].
  apply (sameGame_trans g (fireNext g)); [apply sameGame_fireNext|apply IH].
Qed.

Lemma sameGame_step g e g' :
  isFirstClick g = false → isRestart e = false → step g e = Some g' → sameGame g g'.
Proof.
  intros Hfirst Hre. destruct e as [r c draws|r c| | | |d| |dt]; simpl; try done.
  - unfold handleClick. destruct (isGameOver g); [intros [= <-]; apply sameGame_refl|].
    destruct (getCell (board g) r c) as [cell|]; [|intros [= <-]; apply sameGame_refl].
    destruct (isFlagged cell || isRevealed cell); [intros [= <-]; apply sameGame_refl|].
    rewrite Hfirst. simpl.
    destruct (revealCell r c false g) as [g1| |] eqn:Hr; intros [= <-];
      [|apply sameGame_refl]. by apply (sameGame_revealCell r c false).
  - unfold handleRightClick. destruct (isGameOver g); [intros [= <-]; apply sameGame_refl|].
    destruct (getCell (board g) r c) as [cell|]; [|intros [= <-]; apply sameGame_refl].
    destruct (isRevealed cell); intros [= <-]; [apply sameGame_refl|].
    apply (sameGame_update g _ (setFlagged (negb (isFlagged cell))) r c); try done;
      try apply keepsLayout_setFlagged.
  - intros [= <-]. unfold handleMouseDown.
    destruct (isGameOver g); [apply sameGame_refl|by apply sameGame_fields].
  - intros [= <-]. unfold handleMouseUp.
    destruct (isGameOver g); [apply sameGame_refl|by apply sameGame_fields].
  - intros [= <-]. apply sameGame_fireNext.
  - intros [= <-]. by apply sameGame_fields.
Qed.

Lemma sameGame_run evs : ∀ g g',
  isFirstClick g = false → forallb (λ e, negb (isRestart e)) evs = true →
  run g evs = Some g' → sameGame g g'.
Proof.
  induction evs as [|e evs IH]; intros g g' Hfirst; simpl.
  - intros _ [= <-]. apply sameGame_refl.
  - intros [He Hevs]%andb_true_iff.
    destruct (step g e) as [g1|] eqn:Hs; [|discriminate]. intros Hrun.
    apply negb_true_iff in He.
    pose proof (sameGame_step g e g1 Hfirst He Hs) as H1.
    apply (sameGame_trans g g1); [done|]. apply IH; try done.
    destruct H1 as (_ & _ & _ & _ & _ & Hf & _). congruence.
Qed.

Lemma mooreMineCount_clear rows cols b r c :
  (∀ r' c' cell, adjacent r c r' c' → getCell b r' c' = Some cell → isMine cell = false) →
  mooreMineCount rows cols b r c = 0.
Proof.
  intros Hclear.
  assert (H : ∀ r' c', adjacent r c r' c' → mineAt rows cols b r' c' = 0).
  { intros r' c' Hadj. unfold mineAt. destruct (inBoard rows cols r' c'); [|done].
    destruct (getCell b r' c') as [cell|] eqn:Hget; [|done].
    by rewrite (Hclear r' c' cell Hadj Hget). }
  unfold mooreMineCount. rewrite !H; [done|..]; unfold adjacent; lia.
Qed.

(** While no mine is shown the game is not lost. *)
Lemma not_lost g : GameInv g → mineShown (board g) = false → gameState g ≠ Lost.
Proof.
  intros Hinv Hs. unfold gameState. destruct (isGameOver g) eqn:Ho.
  - by destruct (gi_won g Hinv Ho Hs) as [-> _].
  - by destruct (isFirstClick g).
Qed.

Lemma sameLayout_cell b b' r c cell' :
  sameLayout b b' → getCell b' r c = Some cell' →
  ∃ cell, getCell b r c = Some cell ∧ isMine cell = isMine cell' ∧
          adjacentMines cell = adjacentMines cell'.
Proof.
  intros Hl Hget. specialize (Hl r c). rewrite Hget in Hl.
  destruct (getCell b r c) as [cell|]; [|done]. exists cell.
  simpl in Hl. injection Hl as _ _ Hm Ha. done.
Qed.

(** ** Writing a cell twice *)

Lemma list_alter_same {A} (f : A → A) (l : list A) i x :
  l !! i = Some x → f x = x → alter f i l = l.
Proof.
  intros Hl Hf. apply list_eq. intros j. rewrite list_lookup_alter.
  destruct (decide (i = j)) as [<-|Hne]; [|done]. rewrite Hl. simpl. by rewrite Hf.
Qed.

Lemma updCell_updCell_id f1 f2 b r c cell :
  getCell b r c = Some cell → f2 (f1 cell) = cell →
  updCell f2 r c (updCell f1 r c b) = b.
Proof.
  unfold getCell, updCell. destruct ((0 <=? r) && (0 <=? c)); [|done].
  destruct (b !! Z.to_nat r) as [cells|] eqn:Hrow; [|done]. intros Hcell Hf.
  rewrite list_alter_alter_eq. apply (list_alter_same _ _ _ cells Hrow). simpl.
  rewrite list_alter_alter_eq. by apply (list_alter_same _ _ _ cell Hcell).
Qed.

(** ** New Game while timeouts are pending *)

Lemma getCell_initBoard_in rows cols r c :
  inBoard rows cols r c = true →
  getCell (initBoard rows cols) r c = Some (mkCell r c false false false 0).
Proof.
  intros Hin. pose proof Hin as Hin'. apply inBoard_spec in Hin'.
  assert (Hwf : wfBoard rows cols (initBoard rows cols))
    by (apply wfBoard_initBoard; lia).
  apply (wfBoard_getCell _ _ _ _ _ Hwf) in Hin as [cell Hget].
  by rewrite Hget, (getCell_initBoard _ _ _ _ _ Hget).
Qed.

Lemma newGame_fields g :
  let g' := newGame g in
  board g' = initBoard (rows g) (cols g) ∧ rows g' = rows g ∧ cols g' = cols g ∧
  mines g' = mines g ∧ minesLeft g' = mines g ∧ isGameOver g' = false ∧
  isFirstClick g' = true ∧ timer g' = 0 ∧ revealedCount g' = 0 ∧
  totalNonMines g' = rows g * cols g - mines g ∧ face g' = FaceSmile ∧
  boardGen g' = S (boardGen g) ∧ now g' = now g ∧
  nextTimerId g' = nextTimerId g ∧ timers g' = timers (stopTimer g).
Proof.
  destruct (stopTimer_fields g)
    as (_ & Hr & Hc & Hm & _ & _ & _ & _ & _ & _ & _ & Hg & Hn & Hid).
  unfold newGame. simpl. rewrite Hr, Hc, Hm, Hg, Hn, Hid. by repeat split.
Qed.

Lemma stale_reveal g r c :
  reachable g → nextCallback (newGame g) = Some (TRevealCell r c) →
  inBoard (rows g) (cols g) r c = true →
  let g' := fireNext (newGame g) in
  getCell (board g') r c = Some (mkCell r c false true false 0) ∧
  isFirstClick g' = true ∧ isGameOver g' = false ∧ revealedCount g' = 1 ∧
  ∀ p q, adjacent r c p q → inBoard (rows g) (cols g) p q = true →
         ∃ x, x ∈ timers g' ∧ callback x = TRevealCell p q.
Proof.
  intros Hreach Hnext Hin.
  pose proof (TimerInv_newGame g (TimerInv_reachable g Hreach)) as Htinv.
  pose proof (PageInv_step g ENewGame (newGame g) (PageInv_reachable g Hreach) eq_refl)
    as Hinv.
  destruct (newGame_fields g)
    as (Hb & Hrows & Hcols & Hm & _ & Ho & Hf & _ & Hrc & Htot & _).
  remember (newGame g) as gn eqn:Hgn. clear Hgn. simpl.
  unfold nextCallback in Hnext. unfold fireNext.
  destruct (nextTimer (timers gn)) as [[e rest]|] eqn:Hnt; [|discriminate].
  injection Hnext as Hcb.
  apply nextTimer_Some in Hnt as [Hperm _].
  assert (He : e ∈ timers gn) by (rewrite Hperm; by apply elem_of_cons; left).
  destruct (ti_period gn Htinv e He) as [[_ ?]|[-> _]]; [congruence|].
  rewrite Hcb. set (g1 := set_timers rest _).
  assert (Hget : getCell (board g1) r c = Some (mkCell r c false false false 0)).
  { simpl. rewrite Hb. by apply getCell_initBoard_in. }
  destruct (pi_config gn Hinv) as (_ & _ & Hmines & _).
  simpl. rewrite revealCell_unfold, Hget. simpl.
  replace (revealedCount gn + 1 =? totalNonMines gn) with false
    by (symmetry; apply Z.eqb_neq; rewrite Hrc, Htot; rewrite Hrows, Hcols, Hm in Hmines; lia).
  set (adj := getAdjacentCells _ _ _ r c).
  destruct (scheduleReveals_fields 0 adj (markRevealed r c g1))
    as (Hb' & _ & _ & _ & _ & Ho' & Hf' & _ & _ & Hrc' & _ & _ & _ & _ & Htm').
  rewrite Hb', Hf', Ho', Hrc'. simpl.
  split; [by rewrite (getCell_updCell_eq _ _ _ _ _ Hget)|].
  split; [done|]. split; [done|]. split; [lia|].
  intros p q Hadj Hpq. rewrite Htm'.
  assert (Hwf' : wfBoard (rows g) (cols g) (updCell (setRevealed true) r c (board gn))).
  { apply wfBoard_updCell; [done|]. rewrite <- Hrows, <- Hcols. apply (pi_wf gn Hinv). }
  destruct (proj1 (wfBoard_getCell _ _ _ p q Hwf') Hpq) as [cell' Hget'].
  assert (Hin' : cell' ∈ adj).
  { subst adj. simpl. rewrite Hrows, Hcols. apply elem_of_getAdjacentCells.
    by exists p, q. }
  destruct (revealEntries_complete adj (nextTimerId (markRevealed r c g1))
              (now (markRevealed r c g1)) 0 cell' Hin') as (x & Hx & Hcbx).
  destruct Hwf' as (_ & _ & _ & _ & Hpos).
  destruct (Hpos p q cell' Hget') as [Hrow Hcol]. rewrite Hrow, Hcol in Hcbx.
  exists x. split; [|done]. apply elem_of_app. by right.
Qed.

(** ** The face and the configuration *)

Lemma faceAgrees_same g g' :
  faceAgrees g → isGameOver g' = isGameOver g → face g' = face g → faceAgrees g'.
Proof. unfold faceAgrees. by intros H -> ->. Qed.

Lemma faceAgrees_revealCell r c isChain g g' :
  faceAgrees g → revealCell r c isChain g = Done g' → faceAgrees g'.
Proof.
  intros Hf. rewrite revealCell_unfold.
  destruct (getCell (board g) r c) as [cell|]; [|discriminate].
  destruct (isRevealed cell || isFlagged cell); [by intros [= <-]|].
  destruct (isMine cell).
  - intros [= <-].
    destruct (gameOver_fields r c (markRevealed r c g))
      as (_&_&_&_&_& Ho &_&_&_&_& Hface &_).
    unfold faceAgrees. rewrite Ho, Hface. by left.
  - set (g2 := if adjacentMines cell =? 0 then _ else _).
    assert (H2 : isGameOver g2 = isGameOver g ∧ face g2 = face g).
    { subst g2. destruct (adjacentMines cell =? 0); [|done].
      by destruct (scheduleReveals_fields 0
                     (getAdjacentCells (rows g) (cols g)
                        (updCell (setRevealed true) r c (board g)) r c)
                     (markRevealed r c g))
        as (_&_&_&_&_& -> &_&_&_&_&_& -> &_). }
    destruct H2 as [Ho2 Hf2].
    destruct (revealedCount g + 1 =? totalNonMines g); intros [= <-].
    + destruct (win_fields g2) as (_&_&_&_&_& Ho &_&_&_&_& Hface &_).
      unfold faceAgrees. rewrite Ho, Hface. by right.
    + by apply (faceAgrees_same g).
Qed.

Lemma faceAgrees_step g e g' : faceAgrees g → step g e = Some g' → faceAgrees g'.
Proof.
  intros Hf. destruct e as [r c draws|r c| | | |d| |dt]; simpl.
  - unfold handleClick. destruct (isGameOver g) eqn:Ho; [by intros [= <-]|].
    destruct (getCell (board g) r c) as [cell|]; [|by intros [= <-]].
    destruct (isFlagged cell || isRevealed cell); [by intros [= <-]|].
    destruct (isFirstClick g); simpl.
    + unfold placeMines. simpl.
      destruct (placeMinesBoard _ _ _ _ _ _ _) as [b'| |]; simpl;
        [|by intros [= <-]|done].
      destruct (revealCell r c false _) as [g1| |] eqn:Hr; intros [= <-]; [|done].
      apply (faceAgrees_revealCell r c false _ _) in Hr; [done|].
      by apply (faceAgrees_same g).
    + destruct (revealCell r c false g) as [g1| |] eqn:Hr; intros [= <-]; [|done].
      by apply (faceAgrees_revealCell r c false g).
  - unfold handleRightClick. destruct (isGameOver g) eqn:Ho; [by intros [= <-]|].
    destruct (getCell (board g) r c) as [cell|]; [|by intros [= <-]].
    destruct (isRevealed cell); intros [= <-]; [done|].
    by apply (faceAgrees_same g).
  - intros [= <-]. unfold handleMouseDown, faceAgrees in *.
    destruct (isGameOver g) eqn:Ho; [by rewrite Ho|]. simpl. rewrite Ho. by right.
  - intros [= <-]. unfold handleMouseUp, faceAgrees in *.
    destruct (isGameOver g) eqn:Ho; [by rewrite Ho|]. simpl. rewrite Ho. by left.
  - intros [= <-]. unfold faceAgrees, newGame. simpl. by left.
  - intros [= <-]. unfold faceAgrees, setDifficulty.
    destruct (difficulties d) as [[? ?] ?]. unfold newGame. simpl. by left.
  - intros [= <-]. unfold fireNext.
    destruct (nextTimer (timers g)) as [[e rest]|]; [|done].
    set (g1 := set_timers _ _).
    assert (H1 : faceAgrees g1) by (by apply (faceAgrees_same g)).
    destruct (callback e) as [r c|gen r c|]; simpl.
    + destruct (revealCell r c true g1) as [g'| |] eqn:Hr; try done.
      by apply (faceAgrees_revealCell r c true g1).
    + destruct (Nat.eqb gen (boardGen g)); [|done]. by apply (faceAgrees_same g1).
    + destruct (tick_fields g1) as (_ & _ & Ho & _ & _ & _ & Hface).
      by apply (faceAgrees_same g1).
  - intros [= <-]. by apply (faceAgrees_same g).
Qed.

Lemma isPreset_same g g' :
  isPreset g → rows g' = rows g → cols g' = cols g → mines g' = mines g → isPreset g'.
Proof. unfold isPreset. by intros H -> -> ->. Qed.

Lemma isPreset_step g e g' : isPreset g → step g e = Some g' → isPreset g'.
Proof.
  intros Hp. destruct e as [r c draws|r c| | | |d| |dt]; simpl.
  - unfold handleClick. destruct (isGameOver g) eqn:Ho; [by intros [= <-]|].
    destruct (getCell (board g) r c) as [cell|]; [|by intros [= <-]].
    destruct (isFlagged cell || isRevealed cell); [by intros [= <-]|].
    destruct (isFirstClick g); simpl.
    + unfold placeMines. simpl.
      destruct (placeMinesBoard _ _ _ _ _ _ _) as [b'| |]; simpl;
        [|by intros [= <-]|done].
      destruct (revealCell r c false _) as [g1| |] eqn:Hr; intros [= <-]; [|done].
      destruct (revealCell_fields _ _ _ _ _ Hr) as (? & ? & ? & _).
      by apply (isPreset_same g).
    + destruct (revealCell r c false g) as [g1| |] eqn:Hr; intros [= <-]; [|done].
      destruct (revealCell_fields _ _ _ _ _ Hr) as (? & ? & ? & _).
      by apply (isPreset_same g).
  - unfold handleRightClick. destruct (isGameOver g) eqn:Ho; [by intros [= <-]|].
    destruct (getCell (board g) r c) as [cell|]; [|by intros [= <-]].
    destruct (isRevealed cell); intros [= <-]; [done|]. by apply (isPreset_same g).
  - intros [= <-]. unfold handleMouseDown.
    destruct (isGameOver g); [done|by apply (isPreset_same g)].
  - intros [= <-]. unfold handleMouseUp.
    destruct (isGameOver g); [done|by apply (isPreset_same g)].
  - intros [= <-]. destruct (newGame_fields g) as (_ & ? & ? & ? & _).
    by apply (isPreset_same g).
  - intros [= <-]. exists d. unfold setDifficulty.
    destruct (difficulties d) as [[r c] m].
    by destruct (newGame_fields (mkGame (board g) r c m (minesLeft g) (isGameOver g)
      (isFirstClick g) (timer g) (timerInterval g) (revealedCount g) (totalNonMines g)
      (face g) (boardGen g) (now g) (nextTimerId g) (timers g)))
      as (_ & -> & -> & -> & _).
  - intros [= <-]. destruct (sameGame_fireNext g) as (_ & _ & ? & ? & ? & _).
    by apply (isPreset_same g).
  - intros [= <-]. by apply (isPreset_same g).
Qed.

Lemma face_preset_reachable g : reachable g → faceAgrees g ∧ isPreset g.
Proof.
  intros [evs Hrun].
  assert (H0 : faceAgrees construct ∧ isPreset construct).
  { split; [by left|by exists easy]. }
  revert Hrun H0. generalize construct. induction evs as [|e evs IH]; intros g0; simpl.
  - by intros [= <-].
  - destruct (step g0 e) as [g1|] eqn:Hs; [|discriminate]. intros Hrun [Hf Hp].
    apply (IH g1 Hrun). split.
    + by apply (faceAgrees_step g0 e).
    + by apply (isPreset_step g0 e).
Qed.
(** * Play in any order *)

(** ** The stored counts are right in every state the page can reach *)








(** ** The cascade in any state the page can reach *)











(** * The claims *)

(** ** C1: mine placement *)

(** C1. After [placeMines(excludeRow, excludeCol)] on a board of a valid
    configuration ([mines < rows * cols - 9]) that had no mines, exactly
    [mines] cells are mines and no cell of the 3 x 3 block around the
    excluded cell is one.  [placeMines] returns as soon as the random
    numbers have reached every cell of the board. *)
Theorem placeMines_correct (g : Minesweeper) (draws : list (Rand * Rand))
    (excludeRow excludeCol : Z) :
  0 < rows g → 0 < cols g → 0 ≤ mines g < rows g * cols g - 9 →
  wfBoard (rows g) (cols g) (board g) → countCells isMine (board g) = 0 →
  (∀ g', placeMines draws excludeRow excludeCol g = Done g' →
     countCells isMine (board g') = mines g ∧
     ∀ r c cell, excludeRow - 1 ≤ r ≤ excludeRow + 1 →
                 excludeCol - 1 ≤ c ≤ excludeCol + 1 →
                 getCell (board g') r c = Some cell → isMine cell = false) ∧
  ((∀ r c, inBoard (rows g) (cols g) r c = true →
           (r, c) ∈ drawnCell (rows g) (cols g) <$> draws) →
   ∃ g', placeMines draws excludeRow excludeCol g = Done g').
Proof.
  intros Hrows Hcols Hmines Hwf Hnone. split.
  - intros g'. unfold placeMines.
    destruct (placeMinesBoard _ _ _ _ _ _ _) as [b'| |] eqn:Hplace; simpl;
      try discriminate.
    intros [= <-]. simpl.
    destruct (placeMinesBoard_spec _ _ _ _ _ _ _ _ (proj1 Hmines) Hwf Hnone Hplace)
      as (_ & Hcnt & Hold & _).
    split; [done|]. intros r c cell Hr Hc Hget.
    destruct (Hold _ _ _ Hget) as (_ & _ & _ & _ & Hm).
    destruct (isMine cell); [|done]. exfalso. by apply Hm.
  - intros Hcover.
    destruct (placeMinesBoard_terminates (rows g) (cols g) (mines g) draws
                excludeRow excludeCol (board g)) as [b' Hb']; try done; [lia|].
    unfold placeMines. rewrite Hb'. simpl. eauto.
Qed.

Lemma placeMines_correct_witness :
  ∃ g', placeMines (coveringDraws 9 9) 4 4 construct = Done g' ∧
        countCells isMine (board g') = 10 ∧
        ∀ r c cell, 3 ≤ r ≤ 5 → 3 ≤ c ≤ 5 →
                    getCell (board g') r c = Some cell → isMine cell = false.
Proof.
  destruct (placeMines_correct construct (coveringDraws 9 9) 4 4)
    as [Hpart Hterm].
  - simpl; lia.
  - simpl; lia.
  - simpl; lia.
  - apply (wfBoard_initBoard 9 9); lia.
  - reflexivity.
  - destruct Hterm as [g' Hg'].
    + intros r c Hin. by apply coveringDraws_cover.
    + exists g'. split; [exact Hg'|]. destruct (Hpart g' Hg') as [Hcnt Hzone].
      split; [exact Hcnt|]. intros r c cell Hr Hc. apply Hzone; lia.
Defined.

(** ** C5: adjacent-mine counts *)

(** C5. After mine placement every cell of the board that is not a mine
    stores the number of mines in its Moore neighbourhood, clipped at the
    board edges; the number lies between 0 and 8. *)
Theorem adjacentMines_correct (g g' : Minesweeper) (draws : list (Rand * Rand))
    (excludeRow excludeCol r c : Z) (cell : Cell) :
  placeMines draws excludeRow excludeCol g = Done g' →
  0 ≤ r < rows g → 0 ≤ c < cols g →
  getCell (board g') r c = Some cell → isMine cell = false →
  adjacentMines cell = mooreMineCount (rows g) (cols g) (board g') r c ∧
  0 ≤ adjacentMines cell ≤ 8.
Proof.
  unfold placeMines, placeMinesBoard.
  destruct (placeMinesLoop _ _ _ _ _ _ _) as [b1| |]; simpl; try discriminate.
  intros [= <-] Hr Hc Hget Hm. simpl in Hget.
  destruct (calculateAdjacentMines_spec (rows g) (cols g) b1) as [_ Hadj].
  rewrite (Hadj r c cell Hr Hc Hget Hm). split; [done|].
  apply mooreMineCount_range.
Qed.

Lemma adjacentMines_correct_witness :
  placeMines exampleDraws 4 4 construct = Done examplePlaced ∧
  getCell (board examplePlaced) 1 1 = Some (mkCell 1 1 false false false 3) ∧
  3 = mooreMineCount 9 9 (board examplePlaced) 1 1 ∧ 0 ≤ 3 ≤ 8.
Proof.
  assert (Hp : placeMines exampleDraws 4 4 construct = Done examplePlaced)
    by (vm_compute; reflexivity).
  assert (Hget : getCell (board examplePlaced) 1 1
                 = Some (mkCell 1 1 false false false 3))
    by (vm_compute; reflexivity).
  split; [exact Hp|]. split; [exact Hget|].
  apply (adjacentMines_correct construct examplePlaced exampleDraws 4 4 1 1
           (mkCell 1 1 false false false 3) Hp);
    [simpl; lia | simpl; lia | exact Hget | reflexivity].
Defined.

(** ** C6: revealing a revealed or flagged cell *)

(** C6. Revealing a cell that is already revealed or is flagged changes
    nothing: [revealCell] returns the object as it was, whether called by a
    click or by the cascade, and so does the click handler. *)
Theorem reveal_noop (g : Minesweeper) (r c : Z) (cell : Cell)
    (isChain : bool) (draws : list (Rand * Rand)) :
  getCell (board g) r c = Some cell →
  isRevealed cell = true ∨ isFlagged cell = true →
  revealCell r c isChain g = Done g ∧
  handleClick draws r c g = Done g ∧
  step g (EClick r c draws) = Some g ∧
  runTask (TRevealCell r c) g = g.
Proof.
  intros Hget Hrf.
  assert (H1 : isRevealed cell || isFlagged cell = true)
    by (apply orb_true_iff; tauto).
  assert (H2 : isFlagged cell || isRevealed cell = true)
    by (apply orb_true_iff; tauto).
  assert (Hr : ∀ b, revealCell r c b g = Done g).
  { intros b. unfold revealCell. by rewrite Hget, H1. }
  assert (Hc : handleClick draws r c g = Done g).
  { unfold handleClick. destruct (isGameOver g); [done|]. by rewrite Hget, H2. }
  split; [apply Hr|]. split; [exact Hc|]. split.
  - simpl. by rewrite Hc.
  - simpl. by rewrite Hr.
Qed.

Lemma reveal_noop_witness :
  revealCell 4 4 true exampleOpened = Done exampleOpened ∧
  handleClick [] 4 4 exampleOpened = Done exampleOpened ∧
  step exampleOpened (EClick 4 4 []) = Some exampleOpened ∧
  runTask (TRevealCell 4 4) exampleOpened = exampleOpened.
Proof.
  apply (reveal_noop exampleOpened 4 4 (mkCell 4 4 false true false 0) true []).
  - vm_compute. reflexivity.
  - left. reflexivity.
Defined.

(** ** C7: toggling a flag *)

(** C7, as stated, fails once the game is over: the handler returns at its
    first line and the flag of an unrevealed cell stays as it is. *)
Lemma toggleFlag_counterexample : ¬ toggleFlagClaim exampleLost 8 8.
Proof.
  intros H.
  assert (Hget : getCell (board exampleLost) 8 8
                 = Some (mkCell 8 8 false false false 3))
    by (vm_compute; reflexivity).
  specialize (H _ Hget). cbn [isRevealed isFlagged] in H.
  destruct H as (g' & Hh & _ & Hleft).
  assert (Hsame : handleRightClick 8 8 exampleLost = Done exampleLost)
    by (vm_compute; reflexivity).
  rewrite Hsame in Hh. assert (Heq : g' = exampleLost) by congruence.
  rewrite Heq in Hleft. clear -Hleft. revert Hleft.
  generalize (minesLeft exampleLost). intros m Hm. lia.
Qed.

(** C7, amended. While the game is not over, toggling the flag of a revealed
    cell is a no-op, and on an unrevealed cell it flips that cell's flag and
    moves the counter by -1 when flagging and +1 when unflagging, whatever
    the counter's value; no other cell changes.  Once the game is over
    toggling is a no-op on every cell. *)
Theorem toggleFlag_correct (g : Minesweeper) (r c : Z) (cell : Cell) :
  getCell (board g) r c = Some cell →
  (isGameOver g = true → handleRightClick r c g = Done g) ∧
  (isGameOver g = false → isRevealed cell = true → handleRightClick r c g = Done g) ∧
  (isGameOver g = false → isRevealed cell = false →
   ∃ g', handleRightClick r c g = Done g' ∧
         getCell (board g') r c = Some (setFlagged (negb (isFlagged cell)) cell) ∧
         minesLeft g' = minesLeft g + (if isFlagged cell then 1 else -1) ∧
         (∀ r' c', ¬ (r' = r ∧ c' = c) →
                   getCell (board g') r' c' = getCell (board g) r' c') ∧
         revealedCount g' = revealedCount g ∧ gameState g' = gameState g).
Proof.
  intros Hget. unfold handleRightClick. split; [|split].
  - by intros ->.
  - intros -> Hrev. by rewrite Hget, Hrev.
  - intros Hover Hrev. rewrite Hover, Hget, Hrev. eexists. split; [reflexivity|].
    simpl. split; [by apply getCell_updCell_eq|]. split.
    + by destruct (isFlagged cell).
    + split; [|split; [done|]].
      * intros r' c' Hne. by apply getCell_updCell_ne.
      * unfold gameState. simpl. by rewrite Hover.
Qed.

Lemma toggleFlag_correct_witness :
  ∃ g', handleRightClick 0 0 construct = Done g' ∧
        getCell (board g') 0 0 = Some (mkCell 0 0 false false true 0) ∧
        minesLeft g' = 9.
Proof.
  destruct (toggleFlag_correct construct 0 0 (mkCell 0 0 false false false 0))
    as (_ & _ & H); [reflexivity|].
  destruct H as (g' & Hh & Hcell & Hleft & _); [reflexivity | reflexivity |].
  exists g'. split; [exact Hh|]. split; [exact Hcell|]. exact Hleft.
Defined.

(** ** C8: requests outside the board *)

(** C8, as stated, fails: the handlers do not check the range.  A click at
    row -1 reads [this.board[-1]], which is [undefined], and the next read
    through it throws a [TypeError]; nothing signals "out of bounds". *)
Lemma outOfBounds_counterexample : ¬ outOfBoundsClaim construct (-1) 0.
Proof.
  intros H. destruct (H eq_refl) as [Hclick _].
  destruct (Hclick []) as (e & He & Hne).
  assert (Ht : handleClick [] (-1) 0 construct = Throw TypeError)
    by (vm_compute; reflexivity).
  rewrite Ht in He. congruence.
Qed.

(** C8, amended.  The handlers are only ever attached to the elements of
    board cells and do no range check of their own.  On a well-formed board:
    a request for a cell of the board never throws; a request outside the
    board, while the game is not over, throws the [TypeError] of a read
    through [undefined] before anything is written, so the object stays as
    it was; once the game is over such a request is ignored like any
    other. *)
Theorem outOfBounds_behaviour (g : Minesweeper) (r c : Z)
    (draws : list (Rand * Rand)) :
  wfBoard (rows g) (cols g) (board g) → 0 < rows g → 0 < cols g →
  (inBoard (rows g) (cols g) r c = true →
     (∀ e, handleClick draws r c g ≠ Throw e) ∧
     (∀ e, handleRightClick r c g ≠ Throw e)) ∧
  (inBoard (rows g) (cols g) r c = false →
     (isGameOver g = false →
        handleClick draws r c g = Throw TypeError ∧
        handleRightClick r c g = Throw TypeError ∧
        step g (EClick r c draws) = Some g ∧
        step g (ERightClick r c) = Some g) ∧
     (isGameOver g = true →
        handleClick draws r c g = Done g ∧ handleRightClick r c g = Done g)).
Proof.
  intros Hwf Hrows Hcols. split.
  - intros Hin.
    destruct (proj1 (wfBoard_getCell _ _ _ r c Hwf) Hin) as [cell Hget]. split.
    + intros e. unfold handleClick. destruct (isGameOver g); [done|].
      rewrite Hget. destruct (isFlagged cell || isRevealed cell); [done|].
      destruct (isFirstClick g); simpl.
      * unfold placeMines, placeMinesBoard. simpl.
        destruct (placeMinesLoop _ _ _ _ _ _ _) as [b1|e1|] eqn:Hloop; simpl.
        -- intros Hthrow. apply revealCell_Throw in Hthrow as [Hnone _].
           simpl in Hnone.
           pose proof (calculateAdjacentMines_wf _ _ _
                         (placeMinesLoop_wf _ _ _ _ _ _ _ _ Hwf Hloop)) as Hwf'.
           destruct (proj1 (wfBoard_getCell _ _ _ r c Hwf') Hin) as [cell' Hget'].
           congruence.
        -- by apply placeMinesLoop_no_throw in Hloop.
        -- done.
      * intros Hthrow. apply revealCell_Throw in Hthrow as [Hnone _]. congruence.
    + intros e. unfold handleRightClick. destruct (isGameOver g); [done|].
      rewrite Hget. by destruct (isRevealed cell).
  - intros Hout.
    assert (Hnone : getCell (board g) r c = None).
    { destruct (getCell (board g) r c) as [cell|] eqn:Hget; [|done].
      pose proof (wfBoard_inBoard _ _ _ _ _ _ Hwf Hget). congruence. }
    split.
    + intros Hover.
      assert (Hc : handleClick draws r c g = Throw TypeError)
        by (unfold handleClick; by rewrite Hover, Hnone).
      assert (Hr : handleRightClick r c g = Throw TypeError)
        by (unfold handleRightClick; by rewrite Hover, Hnone).
      repeat split; try done; simpl; by rewrite ?Hc, ?Hr.
    + intros Hover. unfold handleClick, handleRightClick. by rewrite Hover.
Qed.

Lemma outOfBounds_behaviour_witness :
  handleClick [] 9 0 construct = Throw TypeError ∧
  handleRightClick 9 0 construct = Throw TypeError ∧
  step construct (EClick 9 0 []) = Some construct ∧
  step construct (ERightClick 9 0) = Some construct.
Proof.
  destruct (outOfBounds_behaviour construct 9 0 []) as [_ Hout].
  - apply (wfBoard_initBoard 9 9); lia.
  - simpl; lia.
  - simpl; lia.
  - destruct Hout as [Hopen _]; [reflexivity|]. apply Hopen. reflexivity.
Defined.

(** ** C9: the clock *)




(** ** C10: the cascade never hits a mine *)




Lemma orderly_exampleOpened : orderly exampleOpened.
Proof.
  apply (orderly_run (EClick 4 4 exampleDraws :: repeat EFire 400) construct);
    [apply orderly_init | by vm_compute | by vm_compute].
Qed.


(** ** C3: winning *)




(** ** C4: revealing a mine *)

(** C4 fails on the code.  In [exampleClicked] the first click has just set
    the cascade going; the click on the unflagged, unrevealed mine (0, 0)
    takes the game to Lost, but [revealCell] has counted the mine and does
    not look at [isGameOver], so the cascade goes on and its step that
    brings the counter to [totalNonMines] calls [win]: when the timeouts
    have run the game is Won, with the safe cell (8, 8) still unrevealed.
    The same happens when the mine is clicked 240 ms after the first click,
    in [exampleCascading]. *)
Lemma mine_click_turns_won :
  (gameState exampleClicked = InProgress ∧
   getCell (board exampleClicked) 0 0 = Some (mkCell 0 0 true false false 0) ∧
   step exampleClicked (EClick 0 0 []) = Some exampleMineClicked ∧
   gameState exampleMineClicked = Lost ∧
   let g2 := settle (settleFuel exampleMineClicked) exampleMineClicked in
   timeoutPending g2 = false ∧ gameState g2 = Won ∧
   revealedCount g2 = totalNonMines g2 ∧
   getCell (board g2) 8 8 = Some (mkCell 8 8 false false false 3)) ∧
  (gameState exampleCascading = InProgress ∧ now exampleCascading = 240 ∧
   getCell (board exampleCascading) 0 0 = Some (mkCell 0 0 true false false 0) ∧
   step exampleCascading (EClick 0 0 []) = Some exampleMineClickedLate ∧
   gameState exampleMineClickedLate = Lost ∧
   let g2 := settle (settleFuel exampleMineClickedLate) exampleMineClickedLate in
   timeoutPending g2 = false ∧ gameState g2 = Won ∧
   revealedCount g2 = totalNonMines g2).
Proof.
  split.
  - do 4 (split; [vm_compute; reflexivity|]). cbv zeta.
    do 3 (split; [vm_compute; reflexivity|]). vm_compute. reflexivity.
  - do 5 (split; [vm_compute; reflexivity|]). cbv zeta.
    do 2 (split; [vm_compute; reflexivity|]). vm_compute. reflexivity.
Qed.

(** ** C2: the cascade *)



(** The state [staleRing] is outside orderly play: nine cells are revealed
    before the first click. *)
Lemma staleRing_not_orderly : ¬ orderly staleRing.
Proof.
  intros Hord. destruct (orderly_inv staleRing Hord) as [Hinv _].
  destruct (gi_fresh staleRing Hinv) as (Hnone & _); [vm_compute; reflexivity|].
  assert (Hnine : countCells isRevealed (board staleRing) = 9)
    by (vm_compute; reflexivity).
  rewrite Hnine in Hnone. clear -Hnone. lia.
Qed.


(** * Further properties *)

(** ** Neighbours *)

(** X1. On a well-formed board [getAdjacentCells(row, col)] returns exactly
    the cells of the board next to [(row, col)], each once and never the
    cell itself; for a cell of the board their number is the product of the
    rows and the columns the 3 x 3 block meets, less one: 8 inside the
    board, 5 on an edge and 3 in a corner of a board with at least two rows
    and two columns. *)
Theorem getAdjacentCells_correct (rows cols : Z) (b : Board) (r c : Z) :
  wfBoard rows cols b →
  (∀ cell, cell ∈ getAdjacentCells rows cols b r c ↔
     ∃ r' c', adjacent r c r' c' ∧ inBoard rows cols r' c' = true ∧
              getCell b r' c' = Some cell) ∧
  NoDup (getAdjacentCells rows cols b r c) ∧
  (inBoard rows cols r c = true →
     Z.of_nat (length (getAdjacentCells rows cols b r c))
     = span rows r * span cols c - 1 ∧
     (0 < r < rows - 1 → 0 < c < cols - 1 →
        length (getAdjacentCells rows cols b r c) = 8%nat) ∧
     (2 ≤ rows → 2 ≤ cols → (r = 0 ∨ r = rows - 1) → (c = 0 ∨ c = cols - 1) →
        length (getAdjacentCells rows cols b r c) = 3%nat) ∧
     (2 ≤ rows → 2 ≤ cols →
        ((r = 0 ∨ r = rows - 1) ∧ 0 < c < cols - 1) ∨
        (0 < r < rows - 1 ∧ (c = 0 ∨ c = cols - 1)) →
        length (getAdjacentCells rows cols b r c) = 5%nat)).
Proof.
  intros Hwf. split; [intros cell; apply elem_of_getAdjacentCells|].
  split; [by apply NoDup_getAdjacentCells|].
  intros Hin. pose proof (getAdjacentCells_count_aux rows cols b r c Hwf Hin) as Hn.
  split; [exact Hn|]. split; [|split].
  - intros Hr Hc. rewrite (span_inner rows r Hr), (span_inner cols c Hc) in Hn. lia.
  - intros Hrows Hcols Hr Hc.
    rewrite (span_edge rows r Hrows Hr), (span_edge cols c Hcols Hc) in Hn. lia.
  - intros Hrows Hcols [[Hr Hc]|[Hr Hc]].
    + rewrite (span_edge rows r Hrows Hr), (span_inner cols c Hc) in Hn. lia.
    + rewrite (span_inner rows r Hr), (span_edge cols c Hcols Hc) in Hn. lia.
Qed.

Lemma getAdjacentCells_correct_witness :
  length (getAdjacentCells 9 9 (initBoard 9 9) 0 8) = 3%nat.
Proof.
  destruct (getAdjacentCells_correct 9 9 (initBoard 9 9) 0 8) as (_ & _ & H).
  - apply wfBoard_initBoard; lia.
  - destruct H as (_ & _ & H & _); [reflexivity|].
    apply H; lia.
Defined.

(** ** The board and the flags in every state of the page *)

(** X2. In every state the page can reach the mine counter is the number
    of mines less the number of flagged cells, whether or not the flags sit
    on mines; so it lies between [mines - rows * cols] and [mines]. *)
Theorem minesLeft_counts_flags (g : Minesweeper) :
  reachable g →
  minesLeft g = mines g - countCells isFlagged (board g) ∧
  mines g - rows g * cols g ≤ minesLeft g ≤ mines g.
Proof.
  intros Hreach. pose proof (PageInv_reachable g Hreach) as Hinv.
  pose proof (pi_flags g Hinv) as Hflags. split; [exact Hflags|].
  pose proof (countCells_nonneg isFlagged (board g)).
  pose proof (countCells_nonneg (λ cell, negb (isFlagged cell)) (board g)).
  pose proof (countCells_split isFlagged (board g) _ _ (pi_wf g Hinv)). lia.
Qed.

Lemma minesLeft_counts_flags_witness :
  minesLeft wallFlagged = mines wallFlagged - countCells isFlagged (board wallFlagged).
Proof.
  apply (minesLeft_counts_flags wallFlagged).
  exists (EClick 4 0 wallDraws :: repeat EFire 200 ++ [ERightClick 5 7]).
  vm_compute. reflexivity.
Defined.

(** X3. In every state the page can reach the board is a grid of [rows]
    rows of [cols] cells, each cell holding its own coordinates; so a click
    or a right click on a cell of the board (the cells [renderBoard] makes
    elements for) never throws. *)
Theorem board_always_well_formed (g : Minesweeper) (r c : Z)
    (draws : list (Rand * Rand)) :
  reachable g →
  wfBoard (rows g) (cols g) (board g) ∧
  (inBoard (rows g) (cols g) r c = true →
     (∃ cell, getCell (board g) r c = Some cell ∧ row cell = r ∧ col cell = c) ∧
     (∀ e, handleClick draws r c g ≠ Throw e) ∧
     (∀ e, handleRightClick r c g ≠ Throw e)).
Proof.
  intros Hreach. pose proof (PageInv_reachable g Hreach) as Hinv.
  pose proof (pi_wf g Hinv) as Hwf. split; [exact Hwf|]. intros Hin.
  destruct (proj1 (wfBoard_getCell _ _ _ r c Hwf) Hin) as [cell Hget].
  split; [|split].
  - exists cell. split; [done|].
    destruct Hwf as (_ & _ & _ & _ & Hpos). by apply Hpos.
  - intros e. unfold handleClick. destruct (isGameOver g); [done|].
    rewrite Hget. destruct (isFlagged cell || isRevealed cell); [done|].
    destruct (isFirstClick g); simpl.
    + unfold placeMines, placeMinesBoard. simpl.
      destruct (placeMinesLoop _ _ _ _ _ _ _) as [b1|e1|] eqn:Hloop; simpl.
      * intros Hthrow. apply revealCell_Throw in Hthrow as [Hnone _].
        simpl in Hnone.
        pose proof (calculateAdjacentMines_wf _ _ _
                      (placeMinesLoop_wf _ _ _ _ _ _ _ _ Hwf Hloop)) as Hwf'.
        destruct (proj1 (wfBoard_getCell _ _ _ r c Hwf') Hin) as [cell' Hget'].
        congruence.
      * destruct (pi_config g Hinv) as (Hrows & Hcols & _).
        by apply (placeMinesLoop_no_throw _ _ _ _ _ Hrows Hcols _ _ _ Hwf) in Hloop.
      * done.
    + intros Hthrow. apply revealCell_Throw in Hthrow as [Hnone _]. congruence.
  - intros e. unfold handleRightClick. destruct (isGameOver g); [done|].
    rewrite Hget. by destruct (isRevealed cell).
Qed.

Lemma board_always_well_formed_witness :
  (∃ cell, getCell (board wallFlagged) 4 7 = Some cell ∧ row cell = 4 ∧ col cell = 7) ∧
  handleClick [] 4 7 wallFlagged ≠ Throw TypeError.
Proof.
  destruct (board_always_well_formed wallFlagged 4 7 []) as [_ H].
  - exists (EClick 4 0 wallDraws :: repeat EFire 200 ++ [ERightClick 5 7]).
    vm_compute. reflexivity.
  - destruct H as (Hcell & H & _); [vm_compute; reflexivity|].
    split; [exact Hcell|exact (H TypeError)].
Defined.

(** X4. In every state the page can reach a cell that is both flagged and
    revealed is a mine, shown after the game was lost: neither a click nor
    the cascade reveals a flagged cell, and a revealed cell takes no
    flag. *)
Theorem flagged_revealed_is_mine (g : Minesweeper) (r c : Z) (cell : Cell) :
  reachable g → getCell (board g) r c = Some cell →
  isFlagged cell = true → isRevealed cell = true →
  isMine cell = true ∧ isGameOver g = true.
Proof.
  intros Hreach Hget Hflag Hrev.
  by apply (pi_shown g (PageInv_reachable g Hreach) r c cell).
Qed.

Lemma flagged_revealed_is_mine_witness :
  isMine (mkCell 0 4 true true true 0) = true ∧ isGameOver wallLost = true.
Proof.
  apply (flagged_revealed_is_mine wallLost 0 4).
  - exists wallLostEvents. vm_compute. reflexivity.
  - vm_compute. reflexivity.
  - reflexivity.
  - reflexivity.
Defined.

(** ** The layout of a game *)

(** X5. Once the mines are placed, no click, right click, mouse move or
    timer moves a mine or changes a count: until New Game or a change of
    difficulty every cell keeps its coordinates, its mine and its number,
    the board keeps its size, and a revealed cell stays revealed. *)
Theorem layout_is_fixed (g g' : Minesweeper) (evs : list Event) :
  isFirstClick g = false →
  forallb (λ e, negb (isRestart e)) evs = true →
  run g evs = Some g' →
  (∀ r c, layoutOf <$> getCell (board g) r c = layoutOf <$> getCell (board g') r c) ∧
  (∀ r c cell, getCell (board g) r c = Some cell → isRevealed cell = true →
     ∃ cell', getCell (board g') r c = Some cell' ∧ isRevealed cell' = true) ∧
  rows g' = rows g ∧ cols g' = cols g ∧ mines g' = mines g ∧
  isFirstClick g' = false.
Proof.
  intros Hfirst Hevs Hrun.
  destruct (sameGame_run evs g g' Hfirst Hevs Hrun) as (Hl & Hs & ? & ? & ? & Hf & _).
  repeat split; try done. congruence.
Qed.

Lemma layout_is_fixed_witness :
  layoutOf <$> getCell (board wallFlagged) 4 7
  = layoutOf <$> getCell (board wallClicked) 4 7.
Proof.
  destruct (layout_is_fixed wallFlagged wallClicked [EClick 4 7 []]) as [H _].
  - vm_compute. reflexivity.
  - reflexivity.
  - vm_compute. reflexivity.
  - exact (H 4 7).
Defined.

(** ** Winning and the first click *)

(** X6. In orderly play, with the mines placed and no mine revealed, the
    game is Won exactly when every cell that is not a mine is revealed. *)
Theorem won_iff_cleared (g : Minesweeper) :
  orderly g → isFirstClick g = false → mineShown (board g) = false →
  (gameState g = Won ↔
   ∀ r c cell, getCell (board g) r c = Some cell → isMine cell = false →
               isRevealed cell = true).
Proof.
  intros Hord Hfirst Hs. destruct (orderly_inv g Hord) as [Hinv _].
  destruct (gi_config g Hinv) as (_ & _ & _ & Htot).
  pose proof (gi_count g Hinv) as Hcount. rewrite Hs in Hcount.
  pose proof (gi_mines g Hinv) as Hmines. rewrite Hfirst in Hmines.
  pose proof (countCells_isSafe _ _ _ (gi_wf g Hinv)) as Hsafe.
  split.
  - intros Hwon r c cell Hget Hm.
    assert (Hover : isGameOver g = true).
    { unfold gameState in Hwon. destruct (isGameOver g); [done|].
      by destruct (isFirstClick g). }
    destruct (gi_won g Hinv Hover Hs) as [_ Hrc].
    apply (all_safe_revealed (rows g) (cols g) (board g) r c cell (gi_wf g Hinv));
      [lia|done|done].
  - intros Hall.
    assert (Heq : countCells isRevealedSafe (board g) = countCells isSafe (board g)).
    { apply Z.le_antisymm; apply countCells_le; intros r c cell Hget;
        unfold isRevealedSafe, isSafe.
      - by intros [_ ?]%andb_true_iff.
      - intros Hm. apply negb_true_iff in Hm as Hm'.
        by rewrite (Hall r c cell Hget Hm'), Hm. }
    assert (Hover : isGameOver g = true).
    { destruct (isGameOver g) eqn:Ho; [done|].
      pose proof (gi_open g Hinv Ho). lia. }
    unfold gameState. rewrite Hover.
    by destruct (gi_won g Hinv Hover Hs) as [-> _].
Qed.

Lemma won_iff_cleared_witness :
  gameState exampleWon = Won ↔
  ∀ r c cell, getCell (board exampleWon) r c = Some cell → isMine cell = false →
              isRevealed cell = true.
Proof.
  apply (won_iff_cleared exampleWon).
  - apply (orderly_run (EClick 4 4 exampleDraws :: repeat EFire 400 ++ [EClick 8 8 []])
             construct);
      [apply orderly_init | by vm_compute | by vm_compute].
  - vm_compute. reflexivity.
  - vm_compute. reflexivity.
Defined.

(** X7. In orderly play, where a new game is only started when no timeout
    is pending, the first click of a game, on an unflagged cell, never
    loses: it returns as soon as the random numbers have reached every cell,
    the clicked cell is revealed, is not a mine and has no mine next to it,
    and when the cascade has come to an end every cell next to it is free of
    mines and is revealed, unless it carries a flag. *)
Theorem first_click_is_safe (g0 : Minesweeper) (r c : Z) (cell0 : Cell)
    (draws : list (Rand * Rand)) :
  orderly g0 → gameState g0 = NotStarted →
  getCell (board g0) r c = Some cell0 → isFlagged cell0 = false →
  (∀ p q, inBoard (rows g0) (cols g0) p q = true →
          (p, q) ∈ drawnCell (rows g0) (cols g0) <$> draws) →
  ∃ g1, handleClick draws r c g0 = Done g1 ∧
    gameState g1 ≠ Lost ∧ gameState g1 ≠ NotStarted ∧
    let g2 := settle (settleFuel g1) g1 in
    timeoutPending g2 = false ∧ gameState g2 ≠ Lost ∧
    (∃ cell, getCell (board g2) r c = Some cell ∧ isRevealed cell = true ∧
             isMine cell = false ∧ adjacentMines cell = 0) ∧
    (∀ p q cell', adjacent r c p q → getCell (board g2) p q = Some cell' →
       isMine cell' = false ∧ (isRevealed cell' = true ∨ isFlagged cell' = true)).
Proof.
  intros Hord Hstate Hget Hflag Hcover.
  destruct (orderly_inv g0 Hord) as [Hinv Htinv].
  assert (Hover : isGameOver g0 = false ∧ isFirstClick g0 = true).
  { unfold gameState in Hstate. destruct (isGameOver g0); [by destruct (face g0)|].
    by destruct (isFirstClick g0). }
  destruct Hover as [Hover Hfirst].
  destruct (gi_fresh g0 Hinv Hfirst) as (Hnone & Hnil & _).
  assert (Hrev : isRevealed cell0 = false)
    by apply (countCells_zero_inv isRevealed (board g0) r c cell0 Hnone Hget).
  assert (Hquiet : timeoutPending g0 = false).
  { unfold timeoutPending. by rewrite Hnil. }
  destruct (handleClick_returns draws r c g0 cell0 Hinv Hget (λ _, Hcover))
    as [g1 Hclick].
  exists g1. split; [exact Hclick|].
  pose proof (GameInv_handleClick _ _ _ _ _ Hinv Hclick) as Hinv1.
  pose proof (TimerInv_handleClick _ _ _ _ _ Htinv Hclick) as Htinv1.
  pose proof (CascInv_handleClick draws r c g0 g1 cell0 Hinv Htinv Hover Hquiet
                Hget Hrev Hflag (or_introl Hfirst) Hclick) as Hc1.
  split; [apply (not_lost g1 Hinv1), Hc1|].
  (* the board the mines were placed on *)
  pose proof Hclick as Hclick'. unfold handleClick in Hclick'.
  rewrite Hover, Hget, Hflag, Hrev, Hfirst in Hclick'. simpl in Hclick'.
  unfold placeMines in Hclick'. simpl in Hclick'.
  destruct (placeMinesBoard _ _ _ _ _ _ _) as [b'| |] eqn:Hplace; simpl in Hclick';
    try discriminate.
  set (gp := startTimer _) in Hclick'.
  destruct (gi_config g0 Hinv) as (_ & _ & [Hm0 _] & _).
  pose proof (gi_mines g0 Hinv) as Hmines. rewrite Hfirst in Hmines.
  destruct (placeMinesBoard_spec _ _ _ _ _ _ _ _ Hm0 (gi_wf g0 Hinv) Hmines Hplace)
    as (Hwf' & _ & Hold & Hadj').
  pose proof (sameGame_revealCell r c false gp g1 Hclick') as Hsame1.
  split.
  { destruct Hsame1 as (_ & _ & _ & _ & _ & Hf & _). unfold gameState.
    destruct (isGameOver g1); [by destruct (face g1)|]. by rewrite Hf. }
  intros g2.
  destruct (CascInv_settle (board g0) r c (settleFuel g1) g1 Hinv1 Htinv1 Hc1)
    as (Hinv2 & Htinv2 & Hc2).
  fold g2 in Hinv2, Htinv2, Hc2.
  pose proof (settle_settleFuel g1 Hinv1 Htinv1) as Hend. fold g2 in Hend.
  split; [exact Hend|]. split; [apply (not_lost g2 Hinv2), Hc2|].
  assert (Hsame : sameGame gp g2).
  { apply (sameGame_trans gp g1); [done|apply sameGame_settle]. }
  destruct Hsame as (Hlay & _).
  assert (Hzone : ∀ p q cell', r - 1 ≤ p ≤ r + 1 → c - 1 ≤ q ≤ c + 1 →
            getCell (board g2) p q = Some cell' →
            isMine cell' = false ∧
            ∃ cellp, getCell b' p q = Some cellp ∧ isMine cellp = false ∧
                     adjacentMines cell' = adjacentMines cellp).
  { intros p q cell' Hp Hq Hget2.
    destruct (sameLayout_cell _ _ p q cell' Hlay Hget2) as (cellp & Hgetp & Hm & Ha).
    simpl in Hgetp. destruct (Hold p q cellp Hgetp) as (_ & _ & _ & _ & Hout).
    assert (Hmp : isMine cellp = false).
    { destruct (isMine cellp); [|done]. exfalso. by apply Hout. }
    split; [congruence|]. exists cellp. split; [done|]. split; [done|congruence]. }
  destruct (handleClick_newly draws r c g0 g1 cell0 Hinv Htinv Hover Hget Hrev
              Hflag (or_introl Hfirst) Hclick) as (cell1 & Hget1 & Hrev1).
  destruct (settle_keeps_revealed (settleFuel g1) g1 r c cell1 Hinv1 Htinv1
              Hget1 Hrev1) as (cell2 & Hget2 & Hrev2). fold g2 in Hget2.
  destruct (Hzone r c cell2 ltac:(lia) ltac:(lia) Hget2)
    as (Hm2 & cellp & Hgetp & Hmp & Ha2).
  assert (Hz2 : adjacentMines cell2 = 0).
  { rewrite Ha2, (Hadj' r c cellp Hgetp Hmp). apply mooreMineCount_clear.
    intros p q cellq Hadj Hgetq. destruct (Hold p q cellq Hgetq) as (_ & _ & _ & _ & Hout).
    destruct (isMine cellq); [|done]. exfalso. apply Hout; [done|].
    unfold adjacent in Hadj. lia. }
  split; [by exists cell2|].
  intros p q cell' Hadj Hgetq.
  split; [apply (Hzone p q cell'); [unfold adjacent in Hadj; lia..|done]|].
  assert (Hn : newly (board g0) (board g2) r c) by (by exists cell0, cell2).
  destruct (ci_closed _ _ _ _ _ Hc2 r c cell2 p q cell' Hn Hget2 Hz2 Hadj Hgetq)
    as [?|[?|[(e & He & Hcb)|[]]]]; [by left|by right|].
  assert (timeoutPending g2 = true); [|congruence].
  apply timeoutPending_elem. exists e. split; [done|].
  by apply (isTimeout_reveal e p q).
Qed.

Lemma first_click_is_safe_witness :
  ∃ g1, handleClick (coveringDraws 9 9) 4 4 construct = Done g1 ∧
        gameState g1 ≠ Lost ∧
        gameState (settle (settleFuel g1) g1) ≠ Lost.
Proof.
  destruct (first_click_is_safe construct 4 4 (mkCell 4 4 false false false 0)
              (coveringDraws 9 9)) as (g1 & Hclick & Hnl & _ & _ & Hnl2 & _).
  - apply orderly_init.
  - reflexivity.
  - reflexivity.
  - reflexivity.
  - intros p q Hin. by apply coveringDraws_cover.
  - exists g1. split; [exact Hclick|]. split; [exact Hnl|exact Hnl2].
Defined.

(** ** Flags *)

(** X8. While the game is not over, two right clicks on an unrevealed cell
    cancel out: the second one takes the flag (or puts it back) and restores
    the mine counter, and the game object is exactly as it was. *)
Theorem right_click_twice (g : Minesweeper) (r c : Z) (cell : Cell) :
  isGameOver g = false → getCell (board g) r c = Some cell →
  isRevealed cell = false →
  ∃ g1, handleRightClick r c g = Done g1 ∧
        isFlagged <$> getCell (board g1) r c = Some (negb (isFlagged cell)) ∧
        handleRightClick r c g1 = Done g.
Proof.
  intros Hover Hget Hrev. eexists. split.
  { unfold handleRightClick. by rewrite Hover, Hget, Hrev. }
  simpl. rewrite (getCell_updCell_eq _ _ _ _ cell Hget). split; [done|].
  unfold handleRightClick. simpl.
  rewrite Hover, (getCell_updCell_eq _ _ _ _ cell Hget). simpl. rewrite Hrev.
  f_equal. rewrite negb_involutive.
  rewrite (updCell_updCell_id _ _ _ _ _ cell Hget) by (by destruct cell).
  destruct g. unfold set_minesLeft, set_board. simpl. f_equal.
  destruct (isFlagged cell); simpl; lia.
Qed.

Lemma right_click_twice_witness :
  ∃ g1, handleRightClick 2 3 construct = Done g1 ∧
        isFlagged <$> getCell (board g1) 2 3 = Some true ∧
        handleRightClick 2 3 g1 = Done construct.
Proof.
  apply (right_click_twice construct 2 3 (mkCell 2 3 false false false 0));
    reflexivity.
Defined.

(** ** New Game while a cascade is running *)

(** X9. [newGame] clears the clock's interval and nothing else: every
    pending timeout of the old game stays pending.  A cascade step among
    them then runs on the new board: it reveals its cell, which has no mine
    and no count yet, and sets timeouts for all the neighbours, while the
    game still waits for its first click. *)
Theorem newGame_keeps_timeouts (g : Minesweeper) :
  reachable g →
  (∀ x, x ∈ timers (newGame g) ↔ x ∈ timers g ∧ callback x ≠ TTick) ∧
  (∀ r c, nextCallback (newGame g) = Some (TRevealCell r c) →
     inBoard (rows g) (cols g) r c = true →
     let g' := fireNext (newGame g) in
     getCell (board g') r c = Some (mkCell r c false true false 0) ∧
     gameState g' = NotStarted ∧ revealedCount g' = 1 ∧
     ∀ p q, adjacent r c p q → inBoard (rows g) (cols g) p q = true →
            ∃ x, x ∈ timers g' ∧ callback x = TRevealCell p q).
Proof.
  intros Hreach. split.
  - intros x. destruct (newGame_fields g) as (_&_&_&_&_&_&_&_&_&_&_&_&_&_&->).
    apply stopTimer_timers. by apply TimerInv_reachable.
  - intros r c Hnext Hin.
    destruct (stale_reveal g r c Hreach Hnext Hin) as (Hget & Hf & Ho & Hrc & Htm).
    split; [exact Hget|]. split; [|split; [exact Hrc|exact Htm]].
    unfold gameState. by rewrite Ho, Hf.
Qed.

Lemma newGame_keeps_timeouts_witness :
  getCell (board (fireNext (newGame exampleClicked))) 3 3
  = Some (mkCell 3 3 false true false 0).
Proof.
  destruct (newGame_keeps_timeouts exampleClicked) as [_ H].
  - exists [EClick 4 4 exampleDraws]. vm_compute. reflexivity.
  - destruct (H 3 3) as [Hget _]; [vm_compute; reflexivity..|exact Hget].
Defined.

(** ** The texts on the page *)

Module DisplayFacts.
Import Stdlib.Strings.String Stdlib.Strings.Ascii.
Import Display.
Local Open Scope string_scope.

Lemma in_seqZ_forallb (P : Z → bool) (m len n : Z) :
  forallb P (seqZ m len) = true → (m ≤ n < m + len)%Z → P n = true.
Proof.
  intros Hall Hn. rewrite forallb_forall in Hall. apply Hall.
  apply list_elem_of_In, elem_of_seqZ. lia.
Qed.

Lemma showsNumber_spec n s :
  showsNumber n s = true →
  length s = 3%nat ∧ allDigits s = true ∧ numberOf s = Some n.
Proof.
  unfold showsNumber. intros [[Hl Hd]%andb_true_iff Hn]%andb_true_iff.
  apply Nat.eqb_eq in Hl. split; [done|]. split; [done|].
  destruct (numberOf s) as [m|]; [|done]. apply Z.eqb_eq in Hn. by subst.
Qed.

Lemma pad_three n :
  (0 ≤ n ≤ 999)%Z → showsNumber n (padStart 3 "0" (toString n)) = true.
Proof.
  intros Hn.
  apply (in_seqZ_forallb (λ n, showsNumber n (padStart 3 "0" (toString n))) 0 1000);
    [vm_compute; reflexivity|lia].
Qed.

Lemma pad_minus_one_digit n :
  (-9 ≤ n < 0)%Z →
  padStart 3 "0" (toString n) = "0" ++ toString n ∧
  numberOf (padStart 3 "0" (toString n)) = None.
Proof.
  intros Hn.
  assert (H : (padStart 3 "0" (toString n) =? "0" ++ toString n)
              && match numberOf (padStart 3 "0" (toString n)) with
                 | None => true | Some _ => false end = true).
  { apply (in_seqZ_forallb
             (λ n, (padStart 3 "0" (toString n) =? "0" ++ toString n)
                   && match numberOf (padStart 3 "0" (toString n)) with
                      | None => true | Some _ => false end) (-9) 9);
      [vm_compute; reflexivity|lia]. }
  apply andb_true_iff in H as [H1 H2]. apply String.eqb_eq in H1.
  split; [done|]. by destruct (numberOf _).
Qed.

Lemma pad_minus_two_digits n :
  (-99 ≤ n ≤ -10)%Z →
  padStart 3 "0" (toString n) = toString n ∧ length (toString n) = 3%nat.
Proof.
  intros Hn.
  assert (H : (padStart 3 "0" (toString n) =? toString n)
              && (length (toString n) =? 3)%nat = true).
  { apply (in_seqZ_forallb
             (λ n, (padStart 3 "0" (toString n) =? toString n)
                   && (length (toString n) =? 3)%nat) (-99) 90);
      [vm_compute; reflexivity|lia]. }
  apply andb_true_iff in H as [H1 H2]. apply String.eqb_eq in H1.
  by apply Nat.eqb_eq in H2.
Qed.

(** X10. [updateDisplay] writes both counters with [padStart(3, '0')].  In
    every state the page can reach the clock's text is three digits that
    read as the clock's value.  The mine counter's text is so for the
    values 0 to 999; for -1 to -9, when more flags are set than there are
    mines, the padding goes in front of the minus sign and the text is no
    number; from -10 to -99 nothing is padded. *)
Theorem updateDisplay_texts (g : Minesweeper) :
  reachable g →
  (length (timerText g) = 3%nat ∧ allDigits (timerText g) = true ∧
   numberOf (timerText g) = Some (timer g)) ∧
  ((0 ≤ minesLeft g ≤ 999)%Z →
   length (minesLeftText g) = 3%nat ∧ allDigits (minesLeftText g) = true ∧
   numberOf (minesLeftText g) = Some (minesLeft g)) ∧
  ((-9 ≤ minesLeft g < 0)%Z →
   minesLeftText g = "0" ++ toString (minesLeft g) ∧
   numberOf (minesLeftText g) = None) ∧
  ((-99 ≤ minesLeft g ≤ -10)%Z →
   minesLeftText g = toString (minesLeft g) ∧ length (minesLeftText g) = 3%nat).
Proof.
  intros Hreach. pose proof (ti_timer g (TimerInv_reachable g Hreach)) as Ht.
  unfold timerText, minesLeftText. split; [|split; [|split]].
  - by apply showsNumber_spec, pad_three.
  - intros Hn. by apply showsNumber_spec, pad_three.
  - apply pad_minus_one_digit.
  - intros Hn. destruct (pad_minus_two_digits _ Hn) as [H1 H2]. by rewrite H1.
Qed.

Lemma updateDisplay_texts_witness :
  length (timerText exampleOpened) = 3%nat ∧
  numberOf (timerText exampleOpened) = Some (timer exampleOpened).
Proof.
  destruct (updateDisplay_texts exampleOpened) as [(Hl & _ & Hn) _].
  - exists (EClick 4 4 exampleDraws :: repeat EFire 400). vm_compute. reflexivity.
  - split; [exact Hl|exact Hn].
Defined.

Lemma toString_digit k :
  (1 ≤ k ≤ 8)%Z → length (toString k) = 1%nat ∧ numberOf (toString k) = Some k.
Proof.
  intros Hk.
  assert (H : (length (toString k) =? 1)%nat
              && match numberOf (toString k) with
                 | Some m => (m =? k)%Z | None => false end = true).
  { apply (in_seqZ_forallb
             (λ k, (length (toString k) =? 1)%nat
                   && match numberOf (toString k) with
                      | Some m => (m =? k)%Z | None => false end) 1 8);
      [vm_compute; reflexivity|lia]. }
  apply andb_true_iff in H as [H1 H2]. apply Nat.eqb_eq in H1. split; [done|].
  destruct (numberOf (toString k)) as [m|]; [|done]. apply Z.eqb_eq in H2. by subst.
Qed.

(** X11. What [updateCellDisplay] shows for a cell of the board in orderly
    play: a flag goes first, also on a revealed mine; an unrevealed cell has
    the bare class; a revealed mine has the class [mine]; a revealed cell
    that is not a mine and has [k] mines next to it shows nothing when [k]
    is 0 and else the class [num-k] and the text [k], one digit from 1 to
    8, where [k] is the number of mines around the cell on the board. *)
Theorem updateCellDisplay_shows (g : Minesweeper) (r c : Z) (cell : Cell)
    (el : Element) :
  orderly g → getCell (board g) r c = Some cell →
  ∃ el', updateCellDisplay cell (Some el) = Some el' ∧
    (isFlagged cell = true →
       className el' = ["cell"; "flagged"] ∧ textContent el' = textContent el) ∧
    (isFlagged cell = false → isRevealed cell = false →
       className el' = ["cell"] ∧ textContent el' = textContent el) ∧
    (isFlagged cell = false → isRevealed cell = true → isMine cell = true →
       className el' = ["cell"; "revealed"; "mine"] ∧
       textContent el' = textContent el) ∧
    (isFlagged cell = false → isRevealed cell = true → isMine cell = false →
       let k := mooreMineCount (rows g) (cols g) (board g) r c in
       (k = 0%Z → className el' = ["cell"; "revealed"] ∧
                  textContent el' = textContent el) ∧
       (k ≠ 0%Z → className el' = ["cell"; "revealed"; "num-" ++ toString k] ∧
                  textContent el' = toString k ∧ (1 ≤ k ≤ 8)%Z ∧
                  length (textContent el') = 1%nat ∧
                  numberOf (textContent el') = Some k)).
Proof.
  intros Hord Hget. destruct (orderly_inv g Hord) as [Hinv _].
  eexists. split; [reflexivity|].
  split; [|split; [|split]].
  - intros ->. done.
  - intros -> ->. done.
  - intros -> -> ->. done.
  - intros Hf Hr Hm k.
    pose proof (gi_adjacent g Hinv r c cell Hget Hm) as Hk. fold k in Hk.
    pose proof (mooreMineCount_range (rows g) (cols g) (board g) r c) as Hrange.
    fold k in Hrange. rewrite Hf, Hr, Hm, Hk. split.
    + intros ->. done.
    + intros Hnz. destruct (Z.ltb_spec 0 k) as [_|?]; [|lia].
      destruct (toString_digit k ltac:(lia)) as [Hlen Hnum].
      split; [done|]. split; [done|]. split; [lia|]. split; [exact Hlen|exact Hnum].
Qed.

Lemma updateCellDisplay_shows_witness :
  ∃ el', updateCellDisplay (mkCell 1 0 false true false 2)
           (Some (mkElement [] "")) = Some el' ∧
         className el' = ["cell"; "revealed"; "num-2"] ∧ textContent el' = "2".
Proof.
  destruct (updateCellDisplay_shows exampleOpened 1 0 (mkCell 1 0 false true false 2)
              (mkElement [] "")) as (el' & Hel & _ & _ & _ & H).
  - apply (orderly_run (EClick 4 4 exampleDraws :: repeat EFire 400) construct);
      [apply orderly_init | by vm_compute | by vm_compute].
  - vm_compute. reflexivity.
  - exists el'. split; [exact Hel|].
    destruct (H eq_refl eq_refl eq_refl) as [_ Hk].
    assert (Hcount : mooreMineCount (rows exampleOpened) (cols exampleOpened)
                       (board exampleOpened) 1 0 = 2%Z) by (vm_compute; reflexivity).
    rewrite Hcount in Hk. destruct Hk as (Hc & Ht & _); [done|].
    split; [exact Hc|exact Ht].
Defined.

End DisplayFacts.

(** ** After a click on a mine *)

(** X17. In orderly play, while the game is InProgress, a click on an
    unflagged, unrevealed mine takes the game to Lost at once and reveals
    the cell, and every mine of the board is then revealed or has a timeout
    of [gameOver] pending; when the pending timeouts have run, every mine of
    the board is revealed.  If no timeout was pending at the click, the game
    is still Lost then. *)
Theorem reveal_mine_loses (g : Minesweeper) (r c : Z) (cell : Cell)
    (draws : list (Rand * Rand)) :
  orderly g → gameState g = InProgress →
  getCell (board g) r c = Some cell →
  isMine cell = true → isRevealed cell = false → isFlagged cell = false →
  let g1 := gameOver r c (markRevealed r c g) in
  step g (EClick r c draws) = Some g1 ∧
  gameState g1 = Lost ∧ gameState g1 ≠ Won ∧
  (∃ cell1, getCell (board g1) r c = Some cell1 ∧ isRevealed cell1 = true) ∧
  minesAnnounced g1 ∧
  let g2 := settle (settleFuel g1) g1 in
  timeoutPending g2 = false ∧
  (∀ r' c' cell', getCell (board g2) r' c' = Some cell' → isMine cell' = true →
                  isRevealed cell' = true) ∧
  (timeoutPending g = false → gameState g2 = Lost).
Proof.
  intros Hord Hstate Hget Hmine Hrev Hflag g1.
  destruct (orderly_inv g Hord) as [Hinv Htinv].
  assert (Hover : isGameOver g = false ∧ isFirstClick g = false).
  { unfold gameState in Hstate. destruct (isGameOver g); [by destruct (face g)|].
    by destruct (isFirstClick g). }
  destruct Hover as [Hover Hfirst].
  assert (Hclick : handleClick draws r c g = Done g1).
  { unfold handleClick. rewrite Hover, Hget, Hflag, Hrev, Hfirst. simpl.
    by rewrite revealCell_unfold, Hget, Hrev, Hflag, Hmine. }
  assert (Hstep : step g (EClick r c draws) = Some g1) by (simpl; by rewrite Hclick).
  assert (Hord1 : orderly g1) by (by apply (orderly_step g (EClick r c draws))).
  destruct (orderly_inv g1 Hord1) as [Hinv1 Htinv1].
  destruct (gameOver_fields r c (markRevealed r c g))
    as (Hb&_&_&_&_&Ho&Hf&_&_&_&Hface&Hgen&_&Htm).
  fold g1 in Hb, Ho, Hf, Hface, Hgen, Htm. simpl in Hb, Hgen.
  assert (Hlost : gameState g1 = Lost).
  { unfold gameState. by rewrite Ho, Hface. }
  assert (Hann : minesAnnounced g1).
  { intros r' c' cell' Hget' Hm'. right.
    assert (Hin : cell' ∈ allCells (board g1)) by (apply elem_of_allCells; eauto).
    rewrite Hb in Hin.
    destruct (mineEntries_complete (boardGen g) _ (nextTimerId g) (now g) 0 cell' Hin Hm')
      as (e & He & Hcb).
    destruct (wfBoard_pos _ _ _ _ _ _ (gi_wf g1 Hinv1) Hget') as [Hr' Hc'].
    exists e. split.
    - rewrite Htm. apply elem_of_app. right. exact He.
    - by rewrite Hgen, <- Hr', <- Hc'. }
  split; [done|]. split; [done|]. split; [by rewrite Hlost|]. split.
  { exists (setRevealed true cell). split; [|done].
    rewrite Hb. by apply getCell_updCell_eq. }
  split; [done|]. intros g2.
  assert (HP : GameInv g2 ∧ TimerInv g2 ∧ minesAnnounced g2).
  { apply (settle_invariant (λ g, GameInv g ∧ TimerInv g ∧ minesAnnounced g));
      [|done].
    intros g0 (H1 & H2 & H3) _.
    split; [by apply GameInv_fireNext|]. split; [by apply TimerInv_fireNext|].
    by apply minesAnnounced_fireNext. }
  destruct HP as (Hinv2 & Htinv2 & Hann2).
  assert (Hquiet : timeoutPending g2 = false) by (by apply settle_settleFuel).
  split; [done|]. split.
  - intros r' c' cell' Hget' Hm'.
    destruct (Hann2 r' c' cell' Hget' Hm') as [?|(e & He & Hcb)]; [done|].
    assert (timeoutPending g2 = true); [|congruence].
    apply timeoutPending_elem. exists e. split; [done|].
    unfold isTimeout. by rewrite Hcb.
  - intros Hq.
    assert (Honly : onlyMinesPending g1).
    { intros e He Het. rewrite Htm in He. apply elem_of_app in He as [He|He].
      - apply stopTimer_subset in He. simpl in He.
        assert (timeoutPending g = true); [|congruence].
        apply timeoutPending_elem. eauto.
      - apply mineEntries_elem in He as (mine & _ & _ & Hcb). eauto. }
    apply (settle_invariant
             (λ g, GameInv g ∧ TimerInv g ∧ onlyMinesPending g ∧ gameState g = Lost));
      [|done].
    intros g0 (H1 & H2 & H3 & H4) _.
    split; [by apply GameInv_fireNext|]. split; [by apply TimerInv_fireNext|].
    by apply lostQuiet_fireNext.
Qed.

Lemma reveal_mine_loses_witness :
  step exampleOpened (EClick 0 0 [])
  = Some (gameOver 0 0 (markRevealed 0 0 exampleOpened)) ∧
  gameState (gameOver 0 0 (markRevealed 0 0 exampleOpened)) = Lost.
Proof.
  destruct (reveal_mine_loses exampleOpened 0 0 (mkCell 0 0 true false false 0) [])
    as (Hstep & Hlost & _).
  - exact orderly_exampleOpened.
  - vm_compute. reflexivity.
  - vm_compute. reflexivity.
  - reflexivity.
  - reflexivity.
  - reflexivity.
  - split; [exact Hstep|exact Hlost].
Defined.

(** X13. [revealCell] does not look at [isGameOver], so a cascade that is
    still running when a mine is clicked goes on after the game is lost.
    In orderly play: when the game is Lost, the next timer is a cascade step
    on an unrevealed, unflagged cell and the counter is one short of
    [totalNonMines], that step calls [win]: the game turns from Lost to
    Won, although a mine is revealed and some cell without a mine is not. *)
Theorem lost_game_can_turn_won (g : Minesweeper) (r c : Z) (cell : Cell) :
  orderly g → gameState g = Lost →
  nextCallback g = Some (TRevealCell r c) →
  getCell (board g) r c = Some cell →
  isRevealed cell = false → isFlagged cell = false →
  revealedCount g + 1 = totalNonMines g →
  gameState (fireNext g) = Won ∧
  mineShown (board (fireNext g)) = true ∧
  ¬ (∀ p q cell', getCell (board (fireNext g)) p q = Some cell' →
                  isMine cell' = false → isRevealed cell' = true).
Proof.
  intros Hord Hstate Hnext Hget Hrev Hflag Hcount.
  destruct (orderly_inv g Hord) as [Hinv Htinv].
  pose proof (GameInv_fireNext g Hinv) as Hinv'.
  assert (Hover : isGameOver g = true ∧ face g ≠ FaceCool).
  { unfold gameState in Hstate. destruct (isGameOver g).
    - split; [done|]. by destruct (face g).
    - by destruct (isFirstClick g). }
  destruct Hover as [Hover Hface].
  assert (Hshown : mineShown (board g) = true).
  { destruct (mineShown (board g)) eqn:Hs; [done|].
    by destruct (gi_won g Hinv Hover Hs). }
  assert (Hfirst : isFirstClick g = false).
  { destruct (isFirstClick g) eqn:Hf; [|done].
    destruct (gi_fresh g Hinv Hf) as (_ & _ & ?). congruence. }
  unfold nextCallback in Hnext.
  destruct (nextTimer (timers g)) as [[e rest]|] eqn:Hnt; [|discriminate].
  injection Hnext as Hcb.
  pose proof (fireNext_cases g e rest Hinv Htinv Hnt) as Hcase.
  rewrite Hcb in Hcase. simpl in Hcase.
  apply nextTimer_Some in Hnt as [Hperm _].
  assert (He : e ∈ timers g) by (rewrite Hperm; by apply elem_of_cons; left).
  destruct (gi_reveal g Hinv e r c He Hcb) as (cell0 & Hget0 & Hmine).
  assert (cell0 = cell) as -> by congruence.
  set (g1 := set_timers rest _) in Hcase.
  assert (Hfire : board (fireNext g) = updCell (setRevealed true) r c (board g) ∧
                  gameState (fireNext g) = Won ∧
                  revealedCount (fireNext g) = revealedCount g + 1).
  { rewrite Hcase. rewrite revealCell_unfold.
    replace (getCell (board g1) r c) with (Some cell) by done.
    rewrite Hrev, Hflag, Hmine. simpl.
    replace (revealedCount g + 1 =? totalNonMines g) with true
      by (symmetry; by apply Z.eqb_eq).
    set (g2 := if adjacentMines cell =? 0 then _ else _).
    assert (Hb2 : board g2 = updCell (setRevealed true) r c (board g) ∧
                  revealedCount g2 = revealedCount g + 1).
    { subst g2. destruct (adjacentMines cell =? 0); [|done].
      destruct (scheduleReveals_fields 0
                  (getAdjacentCells (rows g) (cols g)
                     (updCell (setRevealed true) r c (board g)) r c)
                  (markRevealed r c g1)) as (-> & _ & _ & _ & _ & _ & _ & _ & _ & -> & _).
      done. }
    destruct Hb2 as [Hb2 Hrc2].
    destruct (win_fields g2) as (Hb & _ & _ & _ & _ & Ho & _ & _ & Hrc & _ & Hf & _).
    split; [by rewrite Hb|]. split; [|by rewrite Hrc].
    unfold gameState. by rewrite Ho, Hf. }
  destruct Hfire as (Hb & Hwon & Hrc'). split; [exact Hwon|].
  assert (Hshown' : mineShown (board (fireNext g)) = true).
  { rewrite Hb. unfold mineShown.
    rewrite (countCells_updCell_same _ _ _ _ _ cell Hget); [done|].
    unfold isRevealedMine. simpl. by rewrite Hmine, !andb_false_r. }
  split; [exact Hshown'|]. intros Hall.
  assert (Hover' : isGameOver (fireNext g) = true).
  { unfold gameState in Hwon. destruct (isGameOver (fireNext g)); [done|].
    by destruct (isFirstClick (fireNext g)). }
  pose proof (gi_count _ Hinv') as Hc'. rewrite Hshown' in Hc'.
  destruct (sameGame_fireNext g) as (_ & _ & Hr' & Hc'' & Hm' & Hf' & _).
  pose proof (gi_mines _ Hinv') as Hmines. rewrite Hf', Hfirst in Hmines.
  destruct (gi_config _ Hinv') as (_ & _ & _ & Htot).
  pose proof (countCells_isSafe _ _ _ (gi_wf _ Hinv')) as Hsafe.
  assert (Hle : countCells isSafe (board (fireNext g))
                ≤ countCells isRevealedSafe (board (fireNext g))).
  { apply countCells_le. intros p q cell' Hget' Hs. unfold isRevealedSafe, isSafe in *.
    apply negb_true_iff in Hs as Hs'. by rewrite (Hall p q cell' Hget' Hs'), Hs. }
  assert (Hrc : revealedCount (fireNext g) ≤ totalNonMines (fireNext g)).
  { destruct (gi_config g Hinv) as (_ & _ & _ & Htot0).
    rewrite Hrc', Hcount, Htot, Htot0, Hr', Hc'', Hm'. lia. }
  lia.
Qed.

Lemma lost_game_can_turn_won_witness :
  gameState exampleLostEarly = Lost ∧ gameState (fireNext exampleLostEarly) = Won.
Proof.
  assert (Hlost : gameState exampleLostEarly = Lost) by (vm_compute; reflexivity).
  split; [exact Hlost|].
  apply (lost_game_can_turn_won exampleLostEarly 8 6 (mkCell 8 6 false false false 2)).
  - apply (orderly_run lostEarlyEvents construct);
      [apply orderly_init | by vm_compute | by vm_compute].
  - exact Hlost.
  - vm_compute. reflexivity.
  - vm_compute. reflexivity.
  - reflexivity.
  - reflexivity.
  - vm_compute. reflexivity.
Defined.

(** ** The face and the configuration *)

(** X14. In every state the page can reach the face tells the state of the
    game: it is the smiling or the gasping face exactly while the game is
    not over, the cool face exactly when the game is Won and the dead face
    exactly when it is Lost; pressing or releasing the mouse on a cell of a
    finished game leaves the face as it is. *)
Theorem face_shows_state (g : Minesweeper) :
  reachable g →
  (isGameOver g = false ↔ face g = FaceSmile ∨ face g = FaceGasp) ∧
  (gameState g = Won ↔ face g = FaceCool) ∧
  (gameState g = Lost ↔ face g = FaceDead) ∧
  (isGameOver g = true → handleMouseDown g = g ∧ handleMouseUp g = g).
Proof.
  intros Hreach. destruct (face_preset_reachable g Hreach) as [Hf _].
  unfold faceAgrees in Hf. unfold gameState, handleMouseDown, handleMouseUp.
  destruct (isGameOver g), (face g), (isFirstClick g);
    repeat split; try done; try (intros [?|?]; done); try (by left); try (by right);
    destruct Hf; done.
Qed.

Lemma face_shows_state_witness :
  gameState exampleWon = Won ↔ face exampleWon = FaceCool.
Proof.
  destruct (face_shows_state exampleWon) as (_ & H & _).
  - exists (EClick 4 4 exampleDraws :: repeat EFire 400 ++ [EClick 8 8 []]).
    vm_compute. reflexivity.
  - exact H.
Defined.

(** X15. In every state the page can reach the size of the board and the
    number of mines are those of one of the three presets, and the number
    of cells without a mine is kept in [totalNonMines]; so more than nine
    cells are free of mines, which lets [placeMines] keep the block around
    the first click clear. *)
Theorem configuration_is_preset (g : Minesweeper) :
  reachable g →
  (∃ d, difficulties d = (rows g, cols g, mines g)) ∧
  totalNonMines g = rows g * cols g - mines g ∧
  9 < totalNonMines g ∧ 0 < mines g.
Proof.
  intros Hreach. destruct (face_preset_reachable g Hreach) as [_ [d Hd]].
  destruct (pi_config g (PageInv_reachable g Hreach)) as (_ & _ & Hm & Htot).
  split; [by exists d|]. split; [done|]. split; [lia|].
  destruct d; simpl in Hd; injection Hd as _ _ <-; lia.
Qed.

Lemma configuration_is_preset_witness :
  ∃ d, difficulties d = (rows wallFlagged, cols wallFlagged, mines wallFlagged).
Proof.
  destruct (configuration_is_preset wallFlagged) as [H _].
  - exists (EClick 4 0 wallDraws :: repeat EFire 200 ++ [ERightClick 5 7]).
    vm_compute. reflexivity.
  - exact H.
Defined.

(** ** What the first click leaves alone *)

(** X16. [placeMines], as the first click calls it, writes nothing but
    [isMine] and [adjacentMines]: every cell keeps its coordinates, its
    revealed state and the flag it may have been given before the first
    click, so the number of flags and the mine counter are unchanged (a
    mine may well land under a flag); no other field of the game changes. *)
Theorem placeMines_frame (g g' : Minesweeper) (draws : list (Rand * Rand))
    (excludeRow excludeCol : Z) :
  reachable g → isFirstClick g = true →
  placeMines draws excludeRow excludeCol (set_isFirstClick false g) = Done g' →
  g' = set_board (board g') (set_isFirstClick false g) ∧
  (∀ r c, getCell (board g) r c = None ↔ getCell (board g') r c = None) ∧
  (∀ r c cell cell', getCell (board g) r c = Some cell →
     getCell (board g') r c = Some cell' →
     row cell' = row cell ∧ col cell' = col cell ∧
     isRevealed cell' = isRevealed cell ∧ isFlagged cell' = isFlagged cell) ∧
  countCells isFlagged (board g') = countCells isFlagged (board g) ∧
  minesLeft g' = mines g' - countCells isFlagged (board g').
Proof.
  intros Hreach Hfirst. pose proof (PageInv_reachable g Hreach) as Hinv.
  unfold placeMines. simpl.
  destruct (placeMinesBoard _ _ _ _ _ _ _) as [b'| |] eqn:Hplace; simpl;
    try discriminate.
  intros [= <-]. simpl.
  destruct (pi_config g Hinv) as (_ & _ & [Hm0 _] & _).
  destruct (placeMinesBoard_spec _ _ _ _ _ _ _ _ Hm0 (pi_wf g Hinv)
              (pi_first g Hinv Hfirst) Hplace) as (Hwf' & _ & Hold & _).
  pose proof (placeMinesBoard_count isFlagged _ _ _ _ _ _ _ _
                ltac:(done) ltac:(done) Hplace) as Hflags.
  split; [done|]. split; [|split; [|split]].
  - intros r c.
    pose proof (wfBoard_getCell _ _ _ r c (pi_wf g Hinv)) as H1.
    pose proof (wfBoard_getCell _ _ _ r c Hwf') as H2.
    destruct (getCell (board g) r c) eqn:E1, (getCell b' r c) eqn:E2; try done.
    + split; [done|]. intros _.
      destruct (proj1 H2 (proj2 H1 (ex_intro _ _ eq_refl))) as [? ?]. done.
    + split; [|done]. intros _.
      destruct (proj1 H1 (proj2 H2 (ex_intro _ _ eq_refl))) as [? ?]. done.
  - intros r c cell cell' Hget Hget'.
    destruct (Hold r c cell' Hget') as (cell0 & Hget0 & Hr & Hf & _).
    assert (cell0 = cell) as -> by congruence.
    destruct (pi_wf g Hinv) as (_ & _ & _ & _ & Hpos).
    destruct Hwf' as (_ & _ & _ & _ & Hpos').
    destruct (Hpos r c cell Hget) as [-> ->].
    destruct (Hpos' r c cell' Hget') as [-> ->]. done.
  - exact Hflags.
  - rewrite Hflags. apply (pi_flags g Hinv).
Qed.

Lemma placeMines_frame_witness :
  countCells isFlagged (board exampleFlagPlaced)
  = countCells isFlagged (board exampleFlagged) ∧
  minesLeft exampleFlagPlaced
  = mines exampleFlagPlaced - countCells isFlagged (board exampleFlagPlaced).
Proof.
  destruct (placeMines_frame exampleFlagged exampleFlagPlaced exampleDraws 4 4)
    as (_ & _ & _ & Hflags & Hleft).
  - exists [ERightClick 0 0]. reflexivity.
  - reflexivity.
  - vm_compute. reflexivity.
  - split; [exact Hflags|exact Hleft].
Defined.
